(** * nvim-completion-manager: the completion core ([autoload/cm.py])

    A shallow embedding of the [Handler] and [FileServer] classes of
    [autoload/cm.py], and the properties of the merge engine and of the
    versioned content cache.

    Modelling conventions.
    - A Python [str] is modelled on ASCII text: a [string] whose characters
      are below 128 ([PyStr.is_ascii]). There [str.lower] is the case map
      [PyStr.lower], character by character, and [len] is the number of
      characters. Outside ASCII [str.lower] is not character-wise (it can
      change the length of a text, and what it does to a letter can depend
      on where the letter stands), so a property that depends on what
      lower-casing does to a text is stated for ASCII text.
    - A Python [dict] keyed by names is an insertion-ordered association
      list ([dict V]); a subscript [d[k]] that finds no key raises
      [KeyError]. The dictionaries that come from the editor are records
      whose fields are options where the code may find the key missing.
    - A method of [Handler] is a function in the monad [M]: it threads the
      instance and either returns or raises; what the instance looked like
      when the exception was raised is kept, since Python does not roll
      mutations back.
    - Calls on [self._nvim] and on [logger] are recorded, in order, in the
      two trace fields [nvim_calls] and [log] of the instance.
    - [FileServer.get_src] is the body of its critical section; the editor
      it asks is a parameter. *)

From Stdlib Require Import List String Ascii ZArith Bool Lia Arith Permutation
  Sorted.
Import ListNotations.
Local Open Scope string_scope.
Local Open Scope Z_scope.

Set Implicit Arguments.

(* ================================================================== *)
(** ** Python strings *)

Module PyStr.

Fixpoint take (n : nat) (s : string) : string :=
  match n, s with
  | S n', String c r => String c (take n' r)
  | _, _ => EmptyString
  end.

Fixpoint drop (n : nat) (s : string) : string :=
  match n, s with
  | S n', String _ r => drop n' r
  | _, _ => s
  end.

Definition len (s : string) : Z := Z.of_nat (String.length s).

(** A slice bound as Python normalises it: a negative bound counts from
    the end, and the result is clamped to [0 .. len]. *)
Definition bound (n i : Z) : Z :=
  if i <? 0 then Z.max 0 (i + n) else Z.min i n.

(** [s[start:stop]], with [stop = None] for [s[start:]]. *)
Definition slice (s : string) (start : Z) (stop : option Z) : string :=
  let a := bound (len s) start in
  let b := match stop with
           | None => len s
           | Some j => bound (len s) j
           end in
  take (Z.to_nat (b - a)) (drop (Z.to_nat a) s).

Definition lower_ascii (c : ascii) : ascii :=
  let n := nat_of_ascii c in
  if (65 <=? n)%nat && (n <=? 90)%nat then ascii_of_nat (n + 32) else c.

(** [s.lower()] of an ASCII text. *)
Fixpoint lower (s : string) : string :=
  match s with
  | EmptyString => EmptyString
  | String c r => String (lower_ascii c) (lower r)
  end.

(** The texts on which [lower] is [str.lower]: every character is below
    128. *)
Fixpoint is_ascii (s : string) : bool :=
  match s with
  | EmptyString => true
  | String c r => (nat_of_ascii c <? 128)%nat && is_ascii r
  end.

(** [s[-1]] of a non-empty string. *)
Fixpoint last_char (s : string) : option ascii :=
  match s with
  | EmptyString => None
  | String c EmptyString => Some c
  | String _ r => last_char r
  end.

(** The class [[0-9a-zA-Z_]]. *)
Definition is_word_char (c : ascii) : bool :=
  let n := nat_of_ascii c in
  ((48 <=? n) && (n <=? 57) || (97 <=? n) && (n <=? 122)
   || (65 <=? n) && (n <=? 90) || (n =? 95))%nat.

Definition newline : string := String (ascii_of_nat 10) EmptyString.

(** [sep.join(parts)] *)
Definition join (sep : string) (parts : list string) : string :=
  String.concat sep parts.

End PyStr.

(* ================================================================== *)
(** ** Python dictionaries keyed by strings *)

Module Dict.
Section Dict.
Variable V : Type.

Definition dict := list (string * V).

(** [d.get(k)] *)
Fixpoint get (k : string) (d : dict) : option V :=
  match d with
  | [] => None
  | (k', v) :: r => if String.eqb k k' then Some v else get k r
  end.

(** [k in d] *)
Definition contains (k : string) (d : dict) : bool :=
  match get k d with Some _ => true | None => false end.

(** [d[k] = v]: overwrites in place, or appends a new key. *)
Fixpoint set (k : string) (v : V) (d : dict) : dict :=
  match d with
  | [] => [(k, v)]
  | (k', v') :: r =>
      if String.eqb k k' then (k, v) :: r else (k', v') :: set k v r
  end.

(** [del d[k]] *)
Fixpoint del (k : string) (d : dict) : dict :=
  match d with
  | [] => []
  | (k', v') :: r =>
      if String.eqb k k' then del k r else (k', v') :: del k r
  end.

(** [d.keys()] *)
Definition keys (d : dict) : list string := map fst d.

End Dict.
End Dict.

Abbreviation dict := Dict.dict.

(* ================================================================== *)
(** ** Exceptions and fallible pure code *)

Inductive exn : Type :=
| KeyError (key : string).

Inductive result (A : Type) : Type :=
| Ok (a : A)
| Raise (ex : exn).
Arguments Ok {A} a.
Arguments Raise {A} ex.

Definition rbind {A B} (r : result A) (k : A -> result B) : result B :=
  match r with
  | Ok a => k a
  | Raise ex => Raise ex
  end.

(** The keys of a sort are computed for every element, in order, before
    anything is compared: the first failing key aborts the sort. *)
Fixpoint rmap {A B} (f : A -> result B) (l : list A) : result (list B) :=
  match l with
  | [] => Ok []
  | x :: r => rbind (f x) (fun y => rbind (rmap f r) (fun ys => Ok (y :: ys)))
  end.

(* ================================================================== *)
(** ** Stable sorting, as [sorted] and [list.sort] do it *)

Section StableSort.
Variable A : Type.
(** [before x y]: [x] has to stay in front of a later-or-equal [y]. *)
Variable before : A -> A -> bool.

Fixpoint insert (x : A) (l : list A) : list A :=
  match l with
  | [] => [x]
  | y :: r => if before x y then x :: y :: r else y :: insert x r
  end.

Fixpoint stable_sort (l : list A) : list A :=
  match l with
  | [] => []
  | x :: r => insert x (stable_sort r)
  end.
End StableSort.

(* ================================================================== *)
(** ** Data model *)

(** A candidate as a source sends it: a bare string, or a dictionary in
    which every key may be missing. *)
Record raw_match : Type := {
  r_word : option string;
  r_menu : option string;
  r_info : option string;
  r_extra : list (string * string)
}.

Inductive item : Type :=
| Str (s : string)
| Rec (d : raw_match).

(** A candidate that went through [process_matches]: [word] was read and
    [menu] was set. *)
Record candidate : Type := {
  word : string;
  menu : string;
  info : option string;
  extra : list (string * string)
}.

(** One value of [self._matches]. *)
Record entry : Type := {
  e_startcol : Z;
  e_matches : list item;
  e_last_matches : option (list candidate)
}.

Record channel : Type := { ch_id : option Z }.

(** A source descriptor, one value of [srcs]. *)
Record source_info : Type := {
  s_name : option string;
  s_priority : option Z;
  s_scopes : option (list string);
  s_refresh : option Z;
  s_cm_refresh : bool;              (* ['cm_refresh' in info] *)
  s_channels : option (list channel);
  s_abbreviation : option string
}.

(** What [FileServer] reads of a context. *)
Record version : Type := {
  v_changedtick : Z;
  v_curpos : list Z
}.

Record file_url : Type := {
  u_port : Z;
  u_context : version
}.

Record context : Type := {
  typed : string;
  col : Z;
  filetype : string;
  scope : option string;
  changedtick : Z;
  curpos : list Z;
  ctx_file_url : option file_url
}.

Definition version_of (ctx : context) : version :=
  {| v_changedtick := changedtick ctx; v_curpos := curpos ctx |}.

(* ================================================================== *)
(** ** [Handler.process_matches] *)

Definition truthy (s : string) : bool :=
  match s with EmptyString => false | _ => true end.

Definition get_abbreviation (i : source_info) : string :=
  match s_abbreviation i with Some a => a | None => "" end.

(** [self._sources[name]] *)
Definition source_of (sources : dict source_info) (name : string)
  : result source_info :=
  match Dict.get name sources with
  | Some i => Ok i
  | None => Raise (KeyError name)
  end.

(** Lines 214-221: the value given to [e['menu']] when the key is missing. *)
Definition derive_menu (sources : dict source_info) (name : string)
    (e_info : option string) : result string :=
  match e_info with
  | Some i =>
      if truthy i && (PyStr.len i <? 70) then
        rbind (source_of sources name) (fun src =>
          if truthy (get_abbreviation src)
          then rbind (source_of sources name) (fun src' =>
                 match s_abbreviation src' with
                 | Some a => Ok (a ++ " :" ++ i)
                 | None => Raise (KeyError "abbreviation")
                 end)
          else Ok i)
      else rbind (source_of sources name) (fun src => Ok (get_abbreviation src))
  | None => rbind (source_of sources name) (fun src => Ok (get_abbreviation src))
  end.

Arguments derive_menu : simpl never.

(** Lines 208-221: the dictionary [e] built for one [item]; its ['word'] may
    still be missing. *)
Definition normalize (sources : dict source_info) (name : string) (it : item)
  : result raw_match :=
  let e := match it with
           | Str s => {| r_word := Some s; r_menu := None; r_info := None;
                         r_extra := [] |}
           | Rec d => d
           end in
  match r_menu e with
  | Some _ => Ok e
  | None =>
      rbind (derive_menu sources name (r_info e)) (fun m =>
        Ok {| r_word := r_word e; r_menu := Some m; r_info := r_info e;
              r_extra := r_extra e |})
  end.

(** [base.lower() != e['word'][0:len(base)].lower()] is false. *)
Definition matches_base (base w : string) : bool :=
  String.eqb (PyStr.lower base)
             (PyStr.lower (PyStr.slice w 0 (Some (PyStr.len base)))).

(** Lines 206-228: the loop over [matches], building [result]. *)
Fixpoint filter_matches (sources : dict source_info) (name base : string)
    (matches : list item) : result (list candidate) :=
  match matches with
  | [] => Ok []
  | it :: rest =>
      rbind (normalize sources name it) (fun e =>
        match r_word e, r_menu e with
        | None, _ => Raise (KeyError "word")
        | Some w, m =>
            rbind (filter_matches sources name base rest) (fun res =>
              if matches_base base w
              then Ok ({| word := w;
                          menu := match m with Some x => x | None => "" end;
                          info := r_info e; extra := r_extra e |} :: res)
              else Ok res)
        end)
  end.

(** [result.sort(key=lambda e: len(e['word']))] *)
Definition shorter_first (x y : candidate) : bool :=
  (String.length (word x) <=? String.length (word y))%nat.

Definition process_matches (sources : dict source_info) (name : string)
    (ctx : context) (startcol : Z) (matches : list item)
  : result (list candidate) :=
  let base := PyStr.slice (typed ctx) (startcol - 1) None in
  rbind (filter_matches sources name base matches) (fun res =>
    Ok (stable_sort shorter_first res)).

(* ================================================================== *)
(** ** [FileServer] *)

(** The editor as the file server's own connection sees it: what
    [cm#context()] evaluates to and the lines of the current buffer. *)
Record editor : Type := {
  cm_context : version;
  buffer : list string
}.

Record FileServer : Type := {
  _current_context : option version;
  _cache_context : option version;
  _cache_src : string;
  server_port : Z
}.

Module FS.

Definition init (port : Z) : FileServer :=
  {| _current_context := None; _cache_context := None;
     _cache_src := ""; server_port := port |}.

Fixpoint curpos_eqb (a b : list Z) : bool :=
  match a, b with
  | [], [] => true
  | x :: a', y :: b' => (x =? y) && curpos_eqb a' b'
  | _, _ => false
  end.

(** [ctx1 is None or ctx2 is None or ctx1['changedtick'] !=
    ctx2['changedtick'] or ctx1['curpos'] != ctx2['curpos']] *)
Definition _context_changed (ctx1 ctx2 : option version) : bool :=
  match ctx1, ctx2 with
  | Some c1, Some c2 =>
      negb (v_changedtick c1 =? v_changedtick c2)
      || negb (curpos_eqb (v_curpos c1) (v_curpos c2))
  | _, _ => true
  end.

Definition set_current (c : option version) (fs : FileServer) : FileServer :=
  {| _current_context := c; _cache_context := _cache_context fs;
     _cache_src := _cache_src fs; server_port := server_port fs |}.

Definition set_cache (c : option version) (src : string) (fs : FileServer)
  : FileServer :=
  {| _current_context := _current_context fs; _cache_context := c;
     _cache_src := src; server_port := server_port fs |}.

(** The body of [get_src], run under [self._rlock]; [None] is Python's
    [None]. *)
Definition get_src (nvim : editor) (fs : FileServer) (ctx : version)
  : option string * FileServer :=
  let fs1 :=
    if _context_changed (_current_context fs) (Some ctx)
    then set_current (Some (cm_context nvim)) fs
    else fs in
  if _context_changed (_current_context fs1) (Some ctx) then (None, fs1)
  else
    let fs2 :=
      if _context_changed (_current_context fs1) (_cache_context fs1)
      then set_cache (_current_context fs1)
                     (PyStr.join PyStr.newline (buffer nvim)) fs1
      else fs1 in
    (Some (_cache_src fs2), fs2).

Definition set_current_context (ctx : context) (fs : FileServer)
  : FileServer :=
  set_current (Some (version_of ctx)) fs.

Definition get_file_url (fs : FileServer) (ctx : context) : file_url :=
  {| u_port := server_port fs; u_context := version_of ctx |}.

End FS.

Arguments FS._context_changed : simpl never.

(* ================================================================== *)
(** ** [Handler]: the instance and the monad of its methods *)

Record notification : Type := {
  n_name : string;
  n_id : Z;
  n_context : context
}.

Inductive nvim_call : Type :=
| Notify_sources_to_refresh (calls : list string)
    (channels : list notification) (ctx : context)
| Core_complete (ctx : context) (startcol : Z) (matches : list candidate)
    (source_matches : dict entry).

Inductive log_entry : Type :=
| Info_not_popping_up (name : string) (startcol : Z) (matches : list item)
| Info_check_scope_failed (name : string)
| Error_cm_refresh_exception (ex : exn)
| Info_not_notifying
| Info_notify (calls : list string) (channels : list notification)
| Info_refresh_completions (names : list string) (startcol : Z)
    (matches : list candidate)
| Error_invalid_startcol (e : entry)
| Error_refresh_completions_exception (ex : exn).

Record Handler : Type := {
  _matches : dict entry;
  _sources : dict source_info;
  _last_matches : list candidate;
  _has_popped_up : bool;
  _file_server : FileServer;
  nvim_calls : list nvim_call;
  log : list log_entry
}.

(** [Handler.__init__] *)
Definition init (port : Z) : Handler :=
  {| _matches := []; _sources := []; _last_matches := [];
     _has_popped_up := false; _file_server := FS.init port;
     nvim_calls := []; log := [] |}.

Definition set_matches (m : dict entry) (h : Handler) : Handler :=
  {| _matches := m; _sources := _sources h;
     _last_matches := _last_matches h; _has_popped_up := _has_popped_up h;
     _file_server := _file_server h; nvim_calls := nvim_calls h;
     log := log h |}.

Definition set_sources (s : dict source_info) (h : Handler) : Handler :=
  {| _matches := _matches h; _sources := s;
     _last_matches := _last_matches h; _has_popped_up := _has_popped_up h;
     _file_server := _file_server h; nvim_calls := nvim_calls h;
     log := log h |}.

Definition set_has_popped_up (b : bool) (h : Handler) : Handler :=
  {| _matches := _matches h; _sources := _sources h;
     _last_matches := _last_matches h; _has_popped_up := b;
     _file_server := _file_server h; nvim_calls := nvim_calls h;
     log := log h |}.

Definition set_file_server (fs : FileServer) (h : Handler) : Handler :=
  {| _matches := _matches h; _sources := _sources h;
     _last_matches := _last_matches h; _has_popped_up := _has_popped_up h;
     _file_server := fs; nvim_calls := nvim_calls h; log := log h |}.

Definition add_call (c : nvim_call) (h : Handler) : Handler :=
  {| _matches := _matches h; _sources := _sources h;
     _last_matches := _last_matches h; _has_popped_up := _has_popped_up h;
     _file_server := _file_server h; nvim_calls := nvim_calls h ++ [c];
     log := log h |}.

Definition add_log (l : log_entry) (h : Handler) : Handler :=
  {| _matches := _matches h; _sources := _sources h;
     _last_matches := _last_matches h; _has_popped_up := _has_popped_up h;
     _file_server := _file_server h; nvim_calls := nvim_calls h;
     log := log h ++ [l] |}.

Inductive outcome (A : Type) : Type :=
| Returned (a : A) (h : Handler)
| Raised (ex : exn) (h : Handler).
Arguments Returned {A} a h.
Arguments Raised {A} ex h.

Definition M (A : Type) : Type := Handler -> outcome A.

Definition final {A} (o : outcome A) : Handler :=
  match o with
  | Returned _ h => h
  | Raised _ h => h
  end.

Definition ret {A} (a : A) : M A := fun h => Returned a h.

Definition bind {A B} (m : M A) (k : A -> M B) : M B :=
  fun h => match m h with
           | Returned a h' => k a h'
           | Raised ex h' => Raised ex h'
           end.

Definition gets {A} (f : Handler -> A) : M A := fun h => Returned (f h) h.

Definition modify (f : Handler -> Handler) : M unit :=
  fun h => Returned tt (f h).

Definition lift {A} (r : result A) : M A :=
  fun h => match r with
           | Ok a => Returned a h
           | Raise ex => Raised ex h
           end.

(** [try: body / except Exception as inst: handler] *)
Definition try_except {A} (body : M A) (handler : exn -> M A) : M A :=
  fun h => match body h with
           | Returned a h' => Returned a h'
           | Raised ex h' => handler ex h'
           end.

(** [try: body / finally: fin]: [fin] runs on both exits, and an exception
    of the body goes on after it. *)
Definition try_finally {A} (body : M A) (fin : M unit) : M A :=
  fun h => match body h with
           | Returned a h' =>
               match fin h' with
               | Returned _ h'' => Returned a h''
               | Raised ex h'' => Raised ex h''
               end
           | Raised ex h' =>
               match fin h' with
               | Returned _ h'' => Raised ex h''
               | Raised ex' h'' => Raised ex' h''
               end
           end.

(** [for x in xs: acc = body x acc], the local variables of the loop being
    carried in [acc]. *)
Fixpoint for_each {X A} (xs : list X) (body : X -> A -> M A) (acc : A) : M A :=
  match xs with
  | [] => ret acc
  | x :: r => bind (body x acc) (for_each r body)
  end.

Declare Scope handler_scope.
Delimit Scope handler_scope with handler.
Notation "x <- m ;; k" := (bind m (fun x => k))
  (at level 61, m at next level, right associativity) : handler_scope.
Notation "m ;; k" := (bind m (fun _ => k))
  (at level 61, right associativity) : handler_scope.
Local Open Scope handler_scope.

Definition logger (l : log_entry) : M unit := modify (add_log l).

(* ================================================================== *)
(** ** The methods of [Handler] *)

Definition is_nil {A} (l : list A) : bool :=
  match l with [] => true | _ => false end.

(** [self._matches[name]] *)
Definition entry_of (name : string) : M entry :=
  m <- gets _matches ;;
  lift (match Dict.get name m with
        | Some e => Ok e
        | None => Raise (KeyError name)
        end).

(** [self._matches[name]['last_matches']] *)
Definition last_matches_of (name : string) : M (list candidate) :=
  e <- entry_of name ;;
  lift (match e_last_matches e with
        | Some l => Ok l
        | None => Raise (KeyError "last_matches")
        end).

Definition with_last_matches (l : list candidate) (e : entry) : entry :=
  {| e_startcol := e_startcol e; e_matches := e_matches e;
     e_last_matches := Some l |}.

(** [self._matches[name]['last_matches'] = l] *)
Definition put_last_matches (name : string) (l : list candidate) : M unit :=
  e <- entry_of name ;;
  modify (fun h => set_matches (Dict.set name (with_last_matches l e)
                                         (_matches h)) h).

(** Lines 54-61, the [finally] block of [cm_complete]: a new name gets an
    empty dictionary at the end of [self._matches]; then the entry is
    deleted, or its ['startcol'] and ['matches'] are assigned, whatever
    ['last_matches'] it had being left in place. *)
Definition store_matches (name : string) (startcol : Z) (matches : list item)
    (m : dict entry) : dict entry :=
  match matches with
  | [] => Dict.del name m
  | _ :: _ =>
      let last := match Dict.get name m with
                  | Some e => e_last_matches e
                  | None => None
                  end in
      Dict.set name {| e_startcol := startcol; e_matches := matches;
                       e_last_matches := last |} m
  end.

(** [_complete] *)
Definition _complete (ctx : context) (startcol : Z) (matches : list candidate)
  : M unit :=
  last <- gets _last_matches ;;
  if is_nil matches && is_nil last then ret tt
  else
    m <- gets _matches ;;
    modify (add_call (Core_complete ctx startcol matches m)).

(** [self._sources[x]['priority']] *)
Definition priority_of (sources : dict source_info) (x : string) : result Z :=
  rbind (source_of sources x) (fun i =>
    match s_priority i with
    | Some p => Ok p
    | None => Raise (KeyError "priority")
    end).

Definition higher_first (x y : Z * string) : bool := fst y <=? fst x.

(** [sorted(self._matches.keys(), key=lambda x:
    self._sources[x]['priority'], reverse=True)] *)
Definition sorted_names (sources : dict source_info) (m : dict entry)
  : result (list string) :=
  rbind (rmap (fun x => rbind (priority_of sources x) (fun p => Ok (p, x)))
              (Dict.keys m))
        (fun keyed => Ok (map snd (stable_sort higher_first keyed))).

(** Lines 153-169: what the [try] of the first loop guards; [startcol] is
    the running minimum. *)
Definition process_source_body (ctx : context) (name : string) (startcol : Z)
  : M Z :=
  e <- entry_of name ;;
  let source_startcol := e_startcol e in
  if col ctx <? source_startcol then
    put_last_matches name [] ;;
    e' <- entry_of name ;;
    logger (Error_invalid_startcol e') ;;
    ret startcol
  else
    e <- entry_of name ;;
    sources <- gets _sources ;;
    source_matches <-
      lift (process_matches sources name ctx source_startcol (e_matches e)) ;;
    put_last_matches name source_matches ;;
    if is_nil source_matches then ret startcol
    else if source_startcol <? startcol then ret source_startcol
    else ret startcol.

(** Lines 152-173: one turn of the first loop. *)
Definition process_source (ctx : context) (name : string) (startcol : Z)
  : M Z :=
  try_except
    (process_source_body ctx name startcol)
    (fun inst => logger (Error_refresh_completions_exception inst) ;;
                 ret startcol).

(** [e['word'] = prefix + e['word']] *)
Definition pad (prefix : string) (e : candidate) : candidate :=
  {| word := prefix ++ word e; menu := menu e; info := info e;
     extra := extra e |}.

(** Lines 179-191: what the [try] of the second loop guards. The candidates
    are changed in place, so the list kept under ['last_matches'] changes
    with them. *)
Definition merge_source_body (ctx : context) (startcol : Z) (name : string)
    (matches : list candidate) : M (list candidate) :=
  e <- entry_of name ;;
  let source_startcol := e_startcol e in
  if col ctx <? source_startcol then
    logger (Error_invalid_startcol e) ;;
    ret matches
  else
    source_matches <- last_matches_of name ;;
    let prefix := PyStr.slice (typed ctx) (startcol - 1)
                              (Some (source_startcol - 1)) in
    let padded := map (pad prefix) source_matches in
    put_last_matches name padded ;;
    ret (matches ++ padded)%list.

(** Lines 178-195: one turn of the second loop. *)
Definition merge_source (ctx : context) (startcol : Z) (name : string)
    (matches : list candidate) : M (list candidate) :=
  try_except
    (merge_source_body ctx startcol name matches)
    (fun inst => logger (Error_refresh_completions_exception inst) ;;
                 ret matches).

(** Lines 136-197: all of [_refresh_completions] up to its call of
    [_complete], returning the [startcol] and the [matches] of that call. *)
Definition merged (ctx : context) : M (Z * list candidate) :=
  sources <- gets _sources ;;
  m <- gets _matches ;;
  names <- lift (sorted_names sources m) ;;
  match names with
  | [] =>
      logger (Info_refresh_completions names (col ctx) []) ;;
      ret (col ctx, [])
  | _ :: _ =>
      startcol <- for_each names (process_source ctx) (col ctx) ;;
      matches <- for_each names (merge_source ctx startcol) [] ;;
      logger (Info_refresh_completions names startcol matches) ;;
      ret (startcol, matches)
  end.

Definition _refresh_completions (ctx : context) : M unit :=
  r <- merged ctx ;;
  _complete ctx (fst r) (snd r).

(** [self._matches.get(name,{}).get('last_matches',[])] *)
Definition stored_last (name : string) (m : dict entry) : list candidate :=
  match Dict.get name m with
  | Some e => match e_last_matches e with
              | Some l => l
              | None => []
              end
  | None => []
  end.

(** The [try] block of [cm_complete]; [true] when it leaves through its
    [return]. *)
Definition complete_is_inert (name : string) (ctx : context) (startcol : Z)
    (matches : list item) : M bool :=
  sources <- gets _sources ;;
  result <- lift (process_matches sources name ctx startcol matches) ;;
  m <- gets _matches ;;
  if is_nil result && is_nil (stored_last name m) then
    logger (Info_not_popping_up name startcol matches) ;;
    ret true
  else ret false.

Definition cm_complete (srcs : dict source_info) (name : string)
    (ctx : context) (startcol : Z) (matches : list item) : M unit :=
  modify (set_sources srcs) ;;
  returned <-
    try_finally
      (complete_is_inert name ctx startcol matches)
      (modify (fun h => set_matches
                          (store_matches name startcol matches (_matches h)) h)) ;;
  if (returned : bool) then ret tt
  else
    popped <- gets _has_popped_up ;;
    if (popped : bool) then _refresh_completions ctx else ret tt.

Definition cm_insert_enter : M unit := modify (set_matches []).

Definition cm_complete_timeout (srcs : dict source_info) (ctx : context)
  : M unit :=
  popped <- gets _has_popped_up ;;
  if (popped : bool) then ret tt
  else
    _refresh_completions ctx ;;
    modify (set_has_popped_up true).

Definition _check_scope (ctx : context) (info : source_info) : bool :=
  let scopes := match s_scopes info with Some l => l | None => ["*"] end in
  let cur_scope := match scope ctx with
                   | Some s => s
                   | None => filetype ctx
                   end in
  existsb (fun sc => String.eqb sc "*" || String.eqb sc cur_scope) scopes.

Definition notifications (name : string) (ctx : context) (info : source_info)
  : list notification :=
  flat_map (fun ch => match ch_id ch with
                      | Some i => [{| n_name := name; n_id := i;
                                      n_context := ctx |}]
                      | None => []
                      end)
           (match s_channels info with Some l => l | None => [] end).

(** Lines 98-110: what the [try] in the loop of [cm_refresh] guards; the
    two lists being built are the accumulator. *)
Definition refresh_source_body (ctx : context) (src : string * source_info)
    (acc : list string * list notification)
  : M (list string * list notification) :=
  let name := fst src in
  let info := snd src in
  if negb (_check_scope ctx info) then
    logger (Info_check_scope_failed name) ;;
    ret acc
  else
    n <- lift (match s_name info with
               | Some n => Ok n
               | None => Raise (KeyError "name")
               end) ;;
    m <- gets _matches ;;
    if Dict.contains n m
       && (match s_refresh info with Some r => r | None => 0 end =? 0)
    then ret acc
    else
      ret (if s_cm_refresh info then (fst acc ++ [name])%list else fst acc,
           (snd acc ++ notifications name ctx info)%list).

(** Lines 94-113: one turn of the loop of [cm_refresh] over [srcs]. *)
Definition refresh_source (ctx : context) (src : string * source_info)
    (acc : list string * list notification)
  : M (list string * list notification) :=
  try_except
    (refresh_source_body ctx src acc)
    (fun inst => logger (Error_cm_refresh_exception inst) ;;
                 ret acc).

Definition with_file_url (u : file_url) (ctx : context) : context :=
  {| typed := typed ctx; col := col ctx; filetype := filetype ctx;
     scope := scope ctx; changedtick := changedtick ctx;
     curpos := curpos ctx; ctx_file_url := Some u |}.

Definition cm_refresh (srcs : dict source_info) (ctx0 : context) : M unit :=
  modify (fun h => set_file_server
                     (FS.set_current_context ctx0 (_file_server h)) h) ;;
  fs <- gets _file_server ;;
  let ctx := with_file_url (FS.get_file_url fs ctx0) ctx0 in
  modify (set_sources srcs) ;;
  modify (set_has_popped_up false) ;;
  (match PyStr.last_char (typed ctx) with
   | None => modify (set_matches [])
   | Some c =>
       if negb (PyStr.is_word_char c) then modify (set_matches [])
       else ret tt
   end) ;;
  refreshes <- for_each srcs (refresh_source ctx) ([], []) ;;
  if is_nil (fst refreshes) && is_nil (snd refreshes) then
    logger Info_not_notifying ;;
    _refresh_completions ctx ;;
    modify (set_has_popped_up true)
  else
    logger (Info_notify (fst refreshes) (snd refreshes)) ;;
    modify (add_call (Notify_sources_to_refresh (fst refreshes)
                                                (snd refreshes) ctx)).

(** The events the editor sends, and the instance after a sequence of them
    (the dispatch by name of [cm_event_loop]); a call that raises leaves
    the instance as it was when it raised, for the next event. *)
Inductive event : Type :=
| Ev_complete (srcs : dict source_info) (name : string) (ctx : context)
    (startcol : Z) (matches : list item)
| Ev_insert_enter
| Ev_complete_timeout (srcs : dict source_info) (ctx : context)
| Ev_refresh (srcs : dict source_info) (ctx : context).

Definition dispatch (ev : event) : M unit :=
  match ev with
  | Ev_complete srcs name ctx startcol matches =>
      cm_complete srcs name ctx startcol matches
  | Ev_insert_enter => cm_insert_enter
  | Ev_complete_timeout srcs ctx => cm_complete_timeout srcs ctx
  | Ev_refresh srcs ctx => cm_refresh srcs ctx
  end.

Definition run (evs : list event) (h : Handler) : Handler :=
  fold_left (fun h ev => final (dispatch ev h)) evs h.

(* ================================================================== *)
(** ** The HTTP side of [FileServer] *)

(** What [HttpHandler] writes back: [send_response], the one header, and
    the bytes of the body. *)
Record http_response : Type := {
  status : Z;
  content_type : string;
  body : string
}.

Section Http.
(** [json.loads] on the text of the ['context'] parameter: the version it
    decodes to (a decoded context has its two keys), or the message of the
    exception it raises. The pairs of the query are taken as
    [urllib.parse.parse_qsl] returns them. *)
Variable json_loads : string -> version + string.

(** Lines 293-295: [params[e[0]] = e[1]] for every pair of the query. *)
Definition query_params (query : list (string * string)) : dict string :=
  fold_left (fun params e => Dict.set (fst e) (snd e) params) query [].

(** [str(KeyError(k))] *)
Definition key_error_message (k : string) : string := "'" ++ k ++ "'".

(** [run_GET]: the response it sends, or the message of the exception it
    raises before it sends anything. *)
Definition run_GET (query : list (string * string)) (nvim : editor)
    (fs : FileServer) : (http_response + string) * FileServer :=
  match Dict.get "context" (query_params query) with
  | None => (inr (key_error_message "context"), fs)
  | Some text =>
      match json_loads text with
      | inr message => (inr message, fs)
      | inl context =>
          let r := FS.get_src nvim fs context in
          let src := match fst r with Some s => s | None => "" end in
          (inl {| status := 200; content_type := "text/html"; body := src |},
           snd r)
      end
  end.

(** [do_GET]: an exception out of [run_GET] becomes a response 500 with
    its message. *)
Definition do_GET (query : list (string * string)) (nvim : editor)
    (fs : FileServer) : http_response * FileServer :=
  match run_GET query nvim fs with
  | (inl response, fs') => (response, fs')
  | (inr message, fs') =>
      ({| status := 500; content_type := "text/html"; body := message |}, fs')
  end.
End Http.

(** The value of the last pair of the query with key [k]. *)
Fixpoint last_value (k : string) (query : list (string * string))
  : option string :=
  match query with
  | [] => None
  | (k', v) :: rest =>
      match last_value k rest with
      | Some x => Some x
      | None => if String.eqb k k' then Some v else None
      end
  end.

(* ================================================================== *)
(** ** Vocabulary of the properties *)

(** A source whose stored matches count for the start column of a merge:
    its start column is not past the cursor and processing its raw matches
    gives a non-empty list. *)
Definition qualifies (sources : dict source_info) (ctx : context)
    (name : string) (e : entry) : bool :=
  (e_startcol e <=? col ctx)
  && match process_matches sources name ctx (e_startcol e) (e_matches e) with
     | Ok (_ :: _) => true
     | _ => false
     end.

(** The three keys of a raw candidate that [process_matches] reads. *)
Definition word_of (it : item) : option string :=
  match it with Str s => Some s | Rec d => r_word d end.

Definition menu_of (it : item) : option string :=
  match it with Str _ => None | Rec d => r_menu d end.

Definition info_of (it : item) : option string :=
  match it with Str _ => None | Rec d => r_info d end.

(** A raw candidate that carries the required ['word']. *)
Definition has_word (it : item) : Prop :=
  match it with
  | Str _ => True
  | Rec d => r_word d <> None
  end.

(** The store as the data model has it: distinct names, 1-based start
    columns, every candidate with its word. *)
Definition well_formed_store (m : dict entry) : Prop :=
  NoDup (Dict.keys m)
  /\ forall name e, Dict.get name m = Some e ->
       1 <= e_startcol e /\ Forall has_word (e_matches e).

(** The typed text and the words of the stored candidates are ASCII. *)
Definition ascii_text (ctx : context) (m : dict entry) : Prop :=
  PyStr.is_ascii (typed ctx) = true
  /\ forall name e it w,
       Dict.get name m = Some e -> In it (e_matches e) ->
       word_of it = Some w -> PyStr.is_ascii w = true.

(** The part of an entry that only [cm_complete] writes. *)
Definition reported (e : entry) : Z * list item :=
  (e_startcol e, e_matches e).

Definition with_log (l : list log_entry) (h : Handler) : Handler :=
  {| _matches := _matches h; _sources := _sources h;
     _last_matches := _last_matches h; _has_popped_up := _has_popped_up h;
     _file_server := _file_server h; nvim_calls := nvim_calls h;
     log := l |}.

(** The two loops of [_refresh_completions] as folds over the store, the
    form in which their effect on [self._matches] is reasoned about. *)
Definition step1 (sources : dict source_info) (ctx : context)
    (st : dict entry * Z) (name : string) : dict entry * Z :=
  let (m, startcol) := st in
  match Dict.get name m with
  | None => st
  | Some e =>
      if col ctx <? e_startcol e
      then (Dict.set name (with_last_matches [] e) m, startcol)
      else match process_matches sources name ctx (e_startcol e)
                                 (e_matches e) with
           | Raise _ => st
           | Ok r =>
               (Dict.set name (with_last_matches r e) m,
                if is_nil r then startcol
                else if e_startcol e <? startcol then e_startcol e
                else startcol)
           end
  end.

Definition step2 (ctx : context) (startcol : Z)
    (st : dict entry * list candidate) (name : string)
  : dict entry * list candidate :=
  let (m, matches) := st in
  match Dict.get name m with
  | None => st
  | Some e =>
      if col ctx <? e_startcol e then st
      else match e_last_matches e with
           | None => st
           | Some l =>
               let padded :=
                 map (pad (PyStr.slice (typed ctx) (startcol - 1)
                                       (Some (e_startcol e - 1)))) l in
               (Dict.set name (with_last_matches padded e) m,
                (matches ++ padded)%list)
           end
  end.

Arguments step1 : simpl never.
Arguments step2 : simpl never.

Definition loop1 (sources : dict source_info) (ctx : context)
    (names : list string) (m : dict entry) : dict entry * Z :=
  fold_left (step1 sources ctx) names (m, col ctx).

Definition loop2 (ctx : context) (startcol : Z) (names : list string)
    (m : dict entry) : dict entry * list candidate :=
  fold_left (step2 ctx startcol) names (m, []).

(** Two stores that agree on what the sources reported. *)
Definition same_reports (m m' : dict entry) : Prop :=
  forall n, option_map reported (Dict.get n m')
            = option_map reported (Dict.get n m).

(** A candidate agrees with the prefix typed from column [g]. *)
Definition prefix_ok (ctx : context) (g : Z) (c : candidate) : Prop :=
  let prefix := PyStr.slice (typed ctx) (g - 1) None in
  PyStr.lower (PyStr.slice (word c) 0 (Some (PyStr.len prefix)))
  = PyStr.lower prefix.

(** A candidate of the merged list is a processed candidate of a stored
    source, padded from column [g] to the source's own start column. *)
Definition emitted_from (sources : dict source_info) (ctx : context)
    (m : dict entry) (g : Z) (c : candidate) : Prop :=
  exists n e r c0,
    Dict.get n m = Some e /\ e_startcol e <= col ctx
    /\ process_matches sources n ctx (e_startcol e) (e_matches e) = Ok r
    /\ In c0 r
    /\ c = pad (PyStr.slice (typed ctx) (g - 1) (Some (e_startcol e - 1))) c0.

(** The entry of [n], if it is within the cursor column, holds under
    ['last_matches'] what processing its raw matches gives. *)
Definition fresh (sources : dict source_info) (ctx : context)
    (m : dict entry) (n : string) : Prop :=
  forall e, Dict.get n m = Some e -> e_startcol e <= col ctx ->
    exists r, process_matches sources n ctx (e_startcol e) (e_matches e) = Ok r
              /\ e_last_matches e = Some r.

(** Processing raises for no stored source. *)
Definition processable (sources : dict source_info) (ctx : context)
    (m : dict entry) : Prop :=
  forall n e, Dict.get n m = Some e ->
    exists r, process_matches sources n ctx (e_startcol e) (e_matches e) = Ok r.

(** A method that keeps an invariant of the instance, however it ends. *)
Definition preserves {A} (P : Handler -> Prop) (m : M A) : Prop :=
  forall h, P h -> P (final (m h)).

(** What was sent to the popup: start column and words, call by call. *)
Definition completions_sent (h : Handler) : list (Z * list string) :=
  flat_map (fun c => match c with
                     | Core_complete _ g ms _ => [(g, map word ms)]
                     | Notify_sources_to_refresh _ _ _ => []
                     end)
           (nvim_calls h).

(** More of a raw candidate: its other keys, and whether it has a menu. *)
Definition extra_of (it : item) : list (string * string) :=
  match it with Str _ => [] | Rec d => r_extra d end.

Definition has_menu (it : item) : Prop := menu_of it <> None.

(** The words of the raw candidates that have one, in order. *)
Definition raw_words (matches : list item) : list string :=
  flat_map (fun it => match word_of it with
                      | Some w => [w]
                      | None => []
                      end)
           matches.

Definition word_length_is (k : nat) (c : candidate) : bool :=
  (String.length (word c) =? k)%nat.

Definition no_longer (x y : candidate) : Prop :=
  (String.length (word x) <= String.length (word y))%nat.

(** What one stored source adds to a merge from column [g]: nothing when
    its start column is past the cursor or its processing raises, else its
    processed candidates with the text from [g] to its start column in
    front. *)
Definition contribution (sources : dict source_info) (ctx : context) (g : Z)
    (m : dict entry) (name : string) : list candidate :=
  match Dict.get name m with
  | None => []
  | Some e =>
      if col ctx <? e_startcol e then []
      else match process_matches sources name ctx (e_startcol e)
                                 (e_matches e) with
           | Ok r =>
               map (pad (PyStr.slice (typed ctx) (g - 1)
                                     (Some (e_startcol e - 1)))) r
           | Raise _ => []
           end
  end.

(** A store in which the names are distinct and every raw candidate has
    its word. *)
Definition store_with_words (m : dict entry) : Prop :=
  NoDup (Dict.keys m)
  /\ forall name e, Dict.get name m = Some e -> Forall has_word (e_matches e).

(** [x] has priority [p] in the table. *)
Definition priority_is (sources : dict source_info) (p : Z) (x : string)
  : bool :=
  match priority_of sources x with
  | Ok q => q =? p
  | Raise _ => false
  end.

Definition priority_not_below (sources : dict source_info) (x y : string)
  : Prop :=
  exists p q, priority_of sources x = Ok p /\ priority_of sources y = Ok q
              /\ q <= p.

(** The entry of [n], if it starts past the cursor, has an empty list
    under ['last_matches']. *)
Definition cleared (ctx : context) (m : dict entry) (n : string) : Prop :=
  forall e, Dict.get n m = Some e -> col ctx < e_startcol e ->
            e_last_matches e = Some [].

(** Two stores that hold the same entry under every name but [name]. *)
Definition agree_off (name : string) (m m' : dict entry) : Prop :=
  forall n, n <> name -> Dict.get n m' = Dict.get n m.

(** The entry of [name] starts past the cursor. *)
Definition past_cursor (ctx : context) (m : dict entry) (name : string)
  : Prop :=
  exists e, Dict.get name m = Some e /\ col ctx < e_startcol e.

Definition other_than (name x : string) : bool := negb (String.eqb name x).

(** [cm_refresh] starts a new completion: the typed text is empty or ends
    with a character that is not a word character. *)
Definition typed_reset (ctx : context) : bool :=
  match PyStr.last_char (typed ctx) with
  | None => true
  | Some c => negb (PyStr.is_word_char c)
  end.

(** [cm_refresh] asks the source described by [info]: it is in scope, has
    a name, and has no stored matches or sets ['refresh']. *)
Definition asks (ctx : context) (m : dict entry) (info : source_info) : bool :=
  _check_scope ctx info
  && match s_name info with
     | Some n =>
         negb (Dict.contains n m
               && (match s_refresh info with Some r => r | None => 0 end =? 0))
     | None => false
     end.

Definition asked_calls (ctx : context) (m : dict entry)
    (srcs : dict source_info) : list string :=
  map fst (filter (fun src => asks ctx m (snd src) && s_cm_refresh (snd src))
                  srcs).

Definition asked_channels (ctx : context) (m : dict entry)
    (srcs : dict source_info) : list notification :=
  flat_map (fun src => if asks ctx m (snd src)
                       then notifications (fst src) ctx (snd src)
                       else [])
           srcs.

(** The context as [cm_refresh] hands it on, with its ['file_url']. *)
Definition stamped (h : Handler) (ctx : context) : context :=
  with_file_url (FS.get_file_url (_file_server h) ctx) ctx.

Definition store_after_reset (ctx : context) (m : dict entry) : dict entry :=
  if typed_reset ctx then [] else m.

(** A message to the editor as the core may send it: a completion result
    has a list that is not empty and a start column within the cursor
    column of its context. *)
Definition sound_call (c : nvim_call) : Prop :=
  match c with
  | Core_complete ctx g ms _ => ms <> [] /\ g <= col ctx
  | Notify_sources_to_refresh _ _ _ => True
  end.

Definition sound_instance (h : Handler) : Prop :=
  _last_matches h = [] /\ Forall sound_call (nvim_calls h).

(* ================================================================== *)
(** ** Concrete instances used below *)

Definition law_ctx : context :=
  {| typed := "a.fo"; col := 5; filetype := "python"; scope := None;
     changedtick := 7; curpos := [0; 1; 5; 0]; ctx_file_url := None |}.

Definition plain_source (p : Z) (abbr : option string) : source_info :=
  {| s_name := None; s_priority := Some p; s_scopes := None;
     s_refresh := None; s_cm_refresh := false; s_channels := None;
     s_abbreviation := abbr |}.

Definition law_sources : dict source_info :=
  [("words", plain_source 5 None); ("tags", plain_source 10 (Some "Tag"))].

(** Two sources answered: [words] from column 3, [tags] from column 1. *)
Definition law_handler : Handler :=
  run [Ev_complete law_sources "words" law_ctx 3 [Str "foo"; Str "bar"];
       Ev_complete law_sources "tags" law_ctx 1 [Str "a.foo"]]
      (init 8000).

Definition law_merged : Z * list candidate * Handler :=
  Eval vm_compute in
    match merged law_ctx law_handler with
    | Returned r h' => (fst r, snd r, h')
    | Raised _ h' => (0, [], h')
    end.

(** Two runs on input outside the data model: a source that starts at
    column 0, and a source that answers with a candidate without its word
    after a merge has processed an earlier answer of it. *)
Definition column0_ctx : context :=
  {| typed := "foo"; col := 4; filetype := "python"; scope := None;
     changedtick := 8; curpos := [0; 1; 4; 0]; ctx_file_url := None |}.

Definition column0_handler : Handler :=
  run [Ev_complete law_sources "tags" column0_ctx 0 [Str "ok"];
       Ev_complete law_sources "words" column0_ctx 1 [Str "foo"];
       Ev_complete_timeout law_sources column0_ctx]
      (init 8000).

Definition earlier_ctx : context :=
  {| typed := "f"; col := 2; filetype := "python"; scope := None;
     changedtick := 8; curpos := [0; 1; 2; 0]; ctx_file_url := None |}.

Definition later_ctx : context :=
  {| typed := "fx"; col := 3; filetype := "python"; scope := None;
     changedtick := 9; curpos := [0; 1; 3; 0]; ctx_file_url := None |}.

Definition wordless_handler : Handler :=
  run [Ev_complete law_sources "tags" earlier_ctx 1 [Str "foo"];
       Ev_complete_timeout law_sources earlier_ctx;
       Ev_complete law_sources "tags" later_ctx 1
         [Rec {| r_word := None; r_menu := Some "m"; r_info := None;
                 r_extra := [] |}];
       Ev_complete law_sources "words" later_ctx 1 [Str "fxy"]]
      (init 8000).


Definition guard_ctx : context :=
  {| typed := "fo"; col := 3; filetype := "python"; scope := None;
     changedtick := 3; curpos := [0; 1; 3; 0]; ctx_file_url := None |}.

(** [words] answered while it was described; the table supplied next does
    not describe it. *)
Definition guard_described : Handler :=
  run [Ev_complete law_sources "words" guard_ctx 1 [Str "foo"]] (init 8000).

Definition guard_undescribed : Handler :=
  set_sources [("tags", plain_source 10 None)] guard_described.





Definition popup_ctx : context :=
  {| typed := "fo"; col := 3; filetype := "python"; scope := None;
     changedtick := 5; curpos := [0; 1; 3; 0]; ctx_file_url := None |}.

(** [tags] answered with a candidate and the timeout showed the popup. *)
Definition popup_shown : Handler :=
  run [Ev_complete law_sources "tags" popup_ctx 1 [Str "foo"];
       Ev_complete_timeout law_sources popup_ctx]
      (init 8000).

Definition popup_inert_result : Handler :=
  add_log (Info_not_popping_up "words" 1 [])
          (set_sources law_sources popup_shown).

(** After the popup was shown with ["foo"], [tags] withdraws its
    candidates: the merge forced by that answer comes out empty; so does
    the next one. *)
Definition withdrawn : Handler :=
  final (cm_complete law_sources "tags" popup_ctx 1 [] popup_shown).

Definition withdrawn_again : Handler :=
  final (_refresh_completions popup_ctx withdrawn).

Definition version0 : version :=
  {| v_changedtick := 10; v_curpos := [0; 1; 3; 0] |}.

Definition version1 : version :=
  {| v_changedtick := 11; v_curpos := [0; 1; 4; 0] |}.

Definition version2 : version :=
  {| v_changedtick := 12; v_curpos := [0; 1; 5; 0] |}.

Definition editor_at_1 : editor :=
  {| cm_context := version1; buffer := ["abc"] |}.

Definition editor_at_2 : editor :=
  {| cm_context := version2; buffer := ["abcd"] |}.

(** The cache as a first request for [version1] builds it. *)
Definition cache_at_1 : FileServer :=
  snd (FS.get_src editor_at_1 (FS.init 8000) version1).

Definition case_ctx : context :=
  {| typed := "Fo"; col := 3; filetype := "python"; scope := None;
     changedtick := 5; curpos := [0; 1; 3; 0]; ctx_file_url := None |}.

(** The cursor is at column 10; [tags] answered for column 15, [words] for
    column 8. *)
Definition past_ctx : context :=
  {| typed := "import foo"; col := 10; filetype := "python"; scope := None;
     changedtick := 6; curpos := [0; 1; 10; 0]; ctx_file_url := None |}.

Definition past_handler : Handler :=
  run [Ev_complete law_sources "tags" past_ctx 15 [Str "foo"];
       Ev_complete law_sources "words" past_ctx 8 [Str "foobar"]]
      (init 8000).

Definition past_merged : Z * list candidate * Handler :=
  Eval vm_compute in
    match merged past_ctx past_handler with
    | Returned r h' => (fst r, snd r, h')
    | Raised _ h' => (0, [], h')
    end.

(** A table in which [jedi] is to be asked through a channel. *)
Definition asking_sources : dict source_info :=
  [("tags", {| s_name := Some "tags"; s_priority := Some 10;
               s_scopes := None; s_refresh := None; s_cm_refresh := true;
               s_channels := None; s_abbreviation := Some "Tag" |});
   ("jedi", {| s_name := Some "jedi"; s_priority := Some 9;
               s_scopes := Some ["python"]; s_refresh := Some 1;
               s_cm_refresh := false;
               s_channels := Some [{| ch_id := Some 3 |}];
               s_abbreviation := None |});
   ("gocode", {| s_name := Some "gocode"; s_priority := Some 9;
                 s_scopes := Some ["go"]; s_refresh := None;
                 s_cm_refresh := true; s_channels := None;
                 s_abbreviation := None |})].

Definition reset_ctx : context :=
  {| typed := "foo."; col := 5; filetype := "python"; scope := None;
     changedtick := 9; curpos := [0; 1; 5; 0]; ctx_file_url := None |}.

Unset Implicit Arguments.

(* ================================================================== *)
(** ** Strings *)

Module PyStrFacts.
Import PyStr.

Lemma take_drop (n : nat) (s : string) : take n s ++ drop n s = s.
Proof.
  revert s; induction n as [|n IH]; intros [|c r]; simpl; auto.
  now rewrite IH.
Qed.

Lemma drop_drop (n m : nat) (s : string) :
  drop n (drop m s) = drop (m + n) s.
Proof.
  revert s; induction m as [|m IH]; intros s; simpl; auto.
  destruct s as [|c r]; simpl; auto.
  now destruct n.
Qed.

Lemma length_drop (n : nat) (s : string) :
  String.length (drop n s) = (String.length s - n)%nat.
Proof.
  revert s; induction n as [|n IH]; intros [|c r]; simpl; auto.
Qed.

Lemma take_all (n : nat) (s : string) :
  (String.length s <= n)%nat -> take n s = s.
Proof.
  revert s; induction n as [|n IH]; intros [|c r]; simpl; auto.
  - lia.
  - intros H; rewrite IH; auto; lia.
Qed.

Lemma take_app (a b : string) (n : nat) :
  take (String.length a + n) (a ++ b) = a ++ take n b.
Proof.
  induction a as [|c a IH]; simpl; auto.
  now rewrite IH.
Qed.

Lemma length_app (a b : string) :
  String.length (a ++ b) = (String.length a + String.length b)%nat.
Proof.
  induction a as [|c a IH]; simpl; auto.
Qed.

Lemma lower_app (a b : string) : lower (a ++ b) = lower a ++ lower b.
Proof.
  induction a as [|c a IH]; simpl; auto.
  now rewrite IH.
Qed.

(** [w[0:n]] for a length [n] is the first [n] characters. *)
Lemma slice_prefix (w : string) (n : nat) :
  slice w 0 (Some (Z.of_nat n)) = take n w.
Proof.
  unfold slice, bound.
  assert (Hl : 0 <= len w) by (unfold len; lia).
  change (0 <? 0) with false; cbv iota.
  rewrite (Z.min_l 0 (len w)) by lia.
  rewrite Z.sub_0_r. change (drop (Z.to_nat 0) w) with w.
  destruct (Z.of_nat n <? 0) eqn:E; [apply Z.ltb_lt in E; lia|].
  destruct (Nat.le_gt_cases n (String.length w)) as [H|H].
  - rewrite Z.min_l by (unfold len; lia). now rewrite Nat2Z.id.
  - rewrite Z.min_r by (unfold len; lia). unfold len. rewrite Nat2Z.id.
    rewrite !take_all; auto; lia.
Qed.

(** From a start [a >= 0], the rest of the string splits at any later
    [b]: [s[a:] = s[a:b] + s[b:]]. *)
Lemma slice_split (s : string) (a b : Z) :
  0 <= a <= b ->
  slice s a None = slice s a (Some b) ++ slice s b None.
Proof.
  intros [Ha Hab]. unfold slice, bound.
  assert (Hl : 0 <= len s) by (unfold len; lia).
  destruct (a <? 0) eqn:Ea; [apply Z.ltb_lt in Ea; lia|].
  destruct (b <? 0) eqn:Eb; [apply Z.ltb_lt in Eb; lia|].
  set (a' := Z.min a (len s)). set (b' := Z.min b (len s)).
  assert (H1 : 0 <= a' <= b') by (unfold a', b'; lia).
  assert (H2 : b' <= len s) by (unfold b'; lia).
  replace (Z.to_nat b') with (Z.to_nat a' + Z.to_nat (b' - a'))%nat by lia.
  rewrite <- drop_drop.
  set (t := drop (Z.to_nat a') s).
  assert (Ht : String.length t = Z.to_nat (len s - a')).
  { unfold t. rewrite length_drop. unfold len in *. lia. }
  rewrite (@take_all (Z.to_nat (len s - a')) t) by lia.
  rewrite (@take_all (Z.to_nat (len s - b'))).
  - now rewrite take_drop.
  - rewrite length_drop, Ht. lia.
Qed.

End PyStrFacts.

(* ================================================================== *)
(** ** Dictionaries *)

Module DictFacts.
Section DictFacts.
Variable V : Type.
Implicit Types (d : dict V) (k : string) (v : V).

Lemma get_set_eq k v d : Dict.get k (Dict.set k v d) = Some v.
Proof.
  induction d as [|[k' v'] r IH]; simpl.
  - now rewrite String.eqb_refl.
  - destruct (String.eqb k k') eqn:E; simpl; rewrite ?String.eqb_refl, ?E; auto.
Qed.

Lemma get_set_ne k k' v d :
  k <> k' -> Dict.get k (Dict.set k' v d) = Dict.get k d.
Proof.
  intros N. induction d as [|[k2 v2] r IH]; simpl.
  - apply String.eqb_neq in N. now rewrite N.
  - destruct (String.eqb k' k2) eqn:E; simpl.
    + apply String.eqb_eq in E; subst k2.
      apply String.eqb_neq in N. now rewrite N.
    + now rewrite IH.
Qed.

Lemma get_del_eq k d : Dict.get k (Dict.del k d) = None.
Proof.
  induction d as [|[k' v'] r IH]; simpl; auto.
  destruct (String.eqb k k') eqn:E; simpl; rewrite ?E; auto.
Qed.

Lemma get_del_ne k k' d :
  k <> k' -> Dict.get k (Dict.del k' d) = Dict.get k d.
Proof.
  intros N. induction d as [|[k2 v2] r IH]; simpl; auto.
  destruct (String.eqb k' k2) eqn:E; simpl.
  - apply String.eqb_eq in E; subst k2.
    apply String.eqb_neq in N. now rewrite N.
  - now rewrite IH.
Qed.

Lemma in_keys_get k d :
  In k (Dict.keys d) <-> exists v, Dict.get k d = Some v.
Proof.
  induction d as [|[k' v'] r IH]; simpl.
  - split; [tauto | intros [v H]; discriminate].
  - destruct (String.eqb k k') eqn:E.
    + apply String.eqb_eq in E; subst. split; eauto.
    + apply String.eqb_neq in E. rewrite IH. split.
      * intros [H|H]; [congruence | exact H].
      * auto.
Qed.

(** Assigning to a key that is there leaves the order of the keys. *)
Lemma keys_set_present k v d :
  In k (Dict.keys d) -> Dict.keys (Dict.set k v d) = Dict.keys d.
Proof.
  induction d as [|[k' v'] r IH]; simpl; [tauto|].
  intros H. destruct (String.eqb k k') eqn:E; simpl.
  - apply String.eqb_eq in E; now subst.
  - apply String.eqb_neq in E. f_equal. apply IH.
    destruct H; [congruence | assumption].
Qed.

(** Assigning to a new key appends it. *)
Lemma keys_set_absent k v d :
  ~ In k (Dict.keys d) -> Dict.keys (Dict.set k v d) = (Dict.keys d ++ [k])%list.
Proof.
  induction d as [|[k' v'] r IH]; simpl; auto.
  intros H. destruct (String.eqb k k') eqn:E; simpl.
  - apply String.eqb_eq in E; subst. tauto.
  - f_equal. apply IH. tauto.
Qed.

Lemma in_keys_del k k' d :
  In k (Dict.keys (Dict.del k' d)) <-> k <> k' /\ In k (Dict.keys d).
Proof.
  rewrite !in_keys_get. split.
  - intros [v H]. destruct (string_dec k k') as [->|N].
    + rewrite get_del_eq in H; discriminate.
    + rewrite get_del_ne in H by auto. eauto.
  - intros [N [v H]]. exists v. now rewrite get_del_ne.
Qed.

Lemma NoDup_keys_set k v d :
  NoDup (Dict.keys d) -> NoDup (Dict.keys (Dict.set k v d)).
Proof.
  intros H. destruct (in_dec string_dec k (Dict.keys d)) as [I|I].
  - now rewrite keys_set_present.
  - rewrite keys_set_absent by auto.
    apply NoDup_rev in H. rewrite <- (rev_involutive (_ ++ _)).
    apply NoDup_rev. rewrite rev_app_distr; simpl.
    constructor; auto. now rewrite <- in_rev.
Qed.

Lemma NoDup_keys_del k d :
  NoDup (Dict.keys d) -> NoDup (Dict.keys (Dict.del k d)).
Proof.
  induction d as [|[k' v'] r IH]; simpl; auto.
  intros H. inversion H as [|? ? Hn Hr]; subst.
  destruct (String.eqb k k') eqn:E; simpl; auto.
  constructor; auto.
  intros I. apply in_keys_del in I. tauto.
Qed.

End DictFacts.
End DictFacts.

(* ================================================================== *)
(** ** Sorting *)

Section SortFacts.
Variable A : Type.
Variable before : A -> A -> bool.

Lemma insert_perm (x : A) (l : list A) :
  Permutation (insert before x l) (x :: l).
Proof.
  induction l as [|y r IH]; simpl; auto.
  destruct (before x y); auto.
  rewrite IH. apply perm_swap.
Qed.

Lemma stable_sort_perm (l : list A) : Permutation (stable_sort before l) l.
Proof.
  induction l as [|x r IH]; simpl; auto.
  rewrite insert_perm. now constructor.
Qed.

Lemma stable_sort_in (l : list A) (x : A) :
  In x (stable_sort before l) <-> In x l.
Proof.
  split; apply Permutation_in;
    [apply stable_sort_perm | symmetry; apply stable_sort_perm].
Qed.
End SortFacts.

Lemma rmap_ok_all {A B} (f : A -> result B) (l : list A) :
  (forall x, In x l -> exists y, f x = Ok y) -> exists ys, rmap f l = Ok ys.
Proof.
  induction l as [|x r IH]; simpl; intros H; eauto.
  destruct (H x) as [y Hy]; auto. rewrite Hy; simpl.
  destruct IH as [ys Hys]; auto. rewrite Hys; simpl. eauto.
Qed.

Lemma rmap_ok_inv {A B} (f : A -> result B) (l : list A) (ys : list B) :
  rmap f l = Ok ys -> Forall2 (fun x y => f x = Ok y) l ys.
Proof.
  revert ys; induction l as [|x r IH]; simpl; intros ys H.
  - inversion H; constructor.
  - destruct (f x) as [y|ex] eqn:E; simpl in H; [|discriminate].
    destruct (rmap f r) as [ys'|ex] eqn:E'; simpl in H; [|discriminate].
    inversion H; subst. constructor; auto.
Qed.

Lemma rmap_raise {A B} (f : A -> result B) (l : list A) (x : A) (ex : exn) :
  In x l -> f x = Raise ex -> exists ex', rmap f l = Raise ex'.
Proof.
  induction l as [|y r IH]; simpl; [tauto|].
  intros [->|I] E.
  - rewrite E; simpl; eauto.
  - destruct (f y); simpl; eauto.
    destruct (IH I E) as [ex' ->]; simpl; eauto.
Qed.

(** The sort succeeds exactly when every stored name has a priority, and
    then only reorders the names. *)
Lemma sorted_names_ok (sources : dict source_info) (m : dict entry) :
  (forall x, In x (Dict.keys m) -> exists p, priority_of sources x = Ok p) ->
  exists names, sorted_names sources m = Ok names.
Proof.
  intros H. unfold sorted_names.
  destruct (rmap_ok_all
              (fun x => rbind (priority_of sources x) (fun p => Ok (p, x)))
              (Dict.keys m)) as [ys E].
  - intros x I. destruct (H x I) as [p ->]; simpl; eauto.
  - rewrite E; simpl; eauto.
Qed.

Lemma sorted_names_perm (sources : dict source_info) (m : dict entry)
    (names : list string) :
  sorted_names sources m = Ok names ->
  Permutation names (Dict.keys m)
  /\ forall x, In x (Dict.keys m) -> exists p, priority_of sources x = Ok p.
Proof.
  unfold sorted_names. intros H.
  destruct (rmap _ (Dict.keys m)) as [ys|ex] eqn:E; simpl in H; [|discriminate].
  inversion H; subst names; clear H.
  apply rmap_ok_inv in E.
  assert (K : map snd ys = Dict.keys m
              /\ forall x, In x (Dict.keys m) ->
                   exists p, priority_of sources x = Ok p).
  { induction E as [|x y l l' Hxy _ [IH1 IH2]]; simpl; [split; [auto|tauto]|].
    destruct (priority_of sources x) as [p|] eqn:P; simpl in Hxy;
      [|discriminate].
    inversion Hxy; subst y; simpl. split; [now rewrite IH1|].
    intros x' [<-|I]; eauto. }
  destruct K as [K1 K2]. split; auto.
  rewrite <- K1. apply Permutation_map, stable_sort_perm.
Qed.

Lemma sorted_names_raise (sources : dict source_info) (m : dict entry)
    (x : string) (ex : exn) :
  In x (Dict.keys m) -> priority_of sources x = Raise ex ->
  exists ex', sorted_names sources m = Raise ex'.
Proof.
  intros I E. unfold sorted_names.
  destruct (rmap_raise
              (fun x => rbind (priority_of sources x) (fun p => Ok (p, x)))
              (Dict.keys m) x ex I) as [ex' ->]; simpl; eauto.
  now rewrite E.
Qed.

(* ================================================================== *)
(** ** [process_matches] *)

Lemma normalize_fields sources name it e :
  normalize sources name it = Ok e ->
  r_word e = word_of it /\ r_info e = info_of it
  /\ match menu_of it with
     | Some m => r_menu e = Some m
     | None => exists m, derive_menu sources name (info_of it) = Ok m
                         /\ r_menu e = Some m
     end.
Proof.
  unfold normalize. destruct it as [s|d]; simpl.
  - destruct (derive_menu sources name None) as [m|ex] eqn:E; simpl;
      intros H; inversion H; subst; simpl; eauto.
  - destruct (r_menu d) as [m|] eqn:Em.
    + intros H; inversion H; subst; auto.
    + destruct (derive_menu sources name (r_info d)) as [m|ex] eqn:E; simpl;
        intros H; inversion H; subst; simpl; eauto.
Qed.

(** Every candidate that is kept passed the prefix test and comes from a
    raw candidate of the list. *)
Lemma filter_matches_in sources name base matches res c :
  filter_matches sources name base matches = Ok res -> In c res ->
  matches_base base (word c) = true
  /\ exists it e, In it matches /\ normalize sources name it = Ok e
       /\ r_word e = Some (word c) /\ r_menu e = Some (menu c)
       /\ r_info e = info c.
Proof.
  revert res; induction matches as [|it rest IH]; simpl; intros res H I.
  - inversion H; subst; contradiction.
  - destruct (normalize sources name it) as [e|ex] eqn:N; simpl in H;
      [|discriminate].
    destruct (r_word e) as [w|] eqn:W; [|discriminate].
    destruct (filter_matches sources name base rest) as [res'|ex] eqn:F;
      simpl in H; [|discriminate].
    assert (Hm : exists m, r_menu e = Some m).
    { destruct (normalize_fields _ _ _ _ N) as (_ & _ & N').
      destruct (menu_of it); [eauto | destruct N' as (m & _ & ->); eauto]. }
    destruct Hm as [m Hm]. rewrite Hm in H.
    assert (K : In c res' ->
                matches_base base (word c) = true
                /\ exists it0 e0, In it0 (it :: rest)
                     /\ normalize sources name it0 = Ok e0
                     /\ r_word e0 = Some (word c) /\ r_menu e0 = Some (menu c)
                     /\ r_info e0 = info c).
    { intros I'. destruct (IH res' eq_refl I') as [Hb (it0 & e0 & Hi & Hr)].
      split; auto. exists it0, e0. simpl; tauto. }
    destruct (matches_base base w) eqn:B; inversion H; subst res; auto.
    destruct I as [Hc|I]; auto. subst c; simpl. split; auto.
    exists it, e. simpl; auto 10.
Qed.

Lemma process_matches_in sources name ctx startcol matches res c :
  process_matches sources name ctx startcol matches = Ok res -> In c res ->
  matches_base (PyStr.slice (typed ctx) (startcol - 1) None) (word c) = true
  /\ exists it e, In it matches /\ normalize sources name it = Ok e
       /\ r_word e = Some (word c) /\ r_menu e = Some (menu c)
       /\ r_info e = info c.
Proof.
  unfold process_matches. intros H I.
  destruct (filter_matches _ _ _ _) as [res'|ex] eqn:F; simpl in H;
    [|discriminate].
  inversion H; subst; clear H. apply stable_sort_in in I.
  eapply filter_matches_in; eauto.
Qed.

Lemma derive_menu_total sources name src i :
  Dict.get name sources = Some src ->
  exists m, derive_menu sources name i = Ok m.
Proof.
  intros G. unfold derive_menu, source_of. rewrite G; simpl.
  destruct i as [i|]; simpl; eauto.
  destruct (truthy i && (PyStr.len i <? 70)); simpl; eauto.
  unfold get_abbreviation.
  destruct (s_abbreviation src) as [a|]; simpl; eauto.
  destruct (truthy a); eauto.
Qed.

(** With the source described and every candidate carrying its word,
    processing returns. *)
Lemma process_matches_total sources name src ctx startcol matches :
  Dict.get name sources = Some src -> Forall has_word matches ->
  exists res, process_matches sources name ctx startcol matches = Ok res.
Proof.
  intros G W. unfold process_matches.
  assert (K : exists res,
             filter_matches sources name
               (PyStr.slice (typed ctx) (startcol - 1) None) matches = Ok res).
  { induction W as [|it rest Hw _ [res IH]]; simpl; eauto.
    assert (N : exists e, normalize sources name it = Ok e
                          /\ r_word e = word_of it).
    { unfold normalize. destruct it as [s|d]; simpl.
      - destruct (derive_menu_total sources name src None G) as [m ->]; simpl; eauto.
      - destruct (r_menu d); eauto.
        destruct (derive_menu_total sources name src (r_info d) G) as [m ->]; simpl; eauto. }
    destruct N as (e & -> & We); simpl. rewrite We.
    destruct it as [s|d]; simpl in *.
    - rewrite IH; simpl. destruct (matches_base _ s); eauto.
    - destruct (r_word d) as [w|]; [|congruence].
      rewrite IH; simpl. destruct (matches_base _ w); eauto. }
  destruct K as [res ->]; simpl; eauto.
Qed.

(* ================================================================== *)
(** ** Running the two loops of [_refresh_completions] *)

Ltac run_handler :=
  unfold put_last_matches, last_matches_of in *;
  unfold entry_of, logger in *;
  unfold try_except, bind, gets, modify, lift, ret in *;
  simpl in *.

Lemma with_log_nil (h : Handler) :
  with_log (log h ++ []) (set_matches (_matches h) h) = h.
Proof. destruct h; unfold with_log, set_matches; simpl. now rewrite app_nil_r. Qed.

Lemma with_log_same (m : dict entry) (h : Handler) :
  with_log (log h ++ []) (set_matches m h) = set_matches m h.
Proof. unfold with_log, set_matches; simpl. now rewrite app_nil_r. Qed.

Lemma with_log_twice (l1 l2 : list log_entry) (m1 m2 : dict entry)
    (h : Handler) :
  with_log (log (with_log (log h ++ l1) (set_matches m1 h)) ++ l2)
           (set_matches m2 (with_log (log h ++ l1) (set_matches m1 h)))
  = with_log (log h ++ (l1 ++ l2)) (set_matches m2 h).
Proof. unfold with_log, set_matches; simpl. now rewrite app_assoc. Qed.

(** One turn of the first loop never raises, and writes what [step1]
    says. *)
Lemma process_source_run (ctx : context) (name : string) (g : Z) (h : Handler) :
  exists L,
    process_source ctx name g h =
    Returned (snd (step1 (_sources h) ctx (_matches h, g) name))
      (with_log (log h ++ L)
         (set_matches (fst (step1 (_sources h) ctx (_matches h, g) name)) h)).
Proof.
  unfold process_source, process_source_body, step1. run_handler.
  destruct (Dict.get name (_matches h)) as [e|] eqn:G; simpl.
  - destruct (col ctx <? e_startcol e) eqn:C; simpl.
    + rewrite G; simpl. rewrite DictFacts.get_set_eq; simpl.
      eexists [_]; reflexivity.
    + rewrite G; simpl.
      destruct (process_matches _ name ctx _ _) as [r|ex]; simpl.
      * rewrite G; simpl. exists []. rewrite with_log_same.
        destruct r; simpl; auto. destruct (e_startcol e <? g); auto.
      * eexists [_]. reflexivity.
  - eexists [_]. reflexivity.
Qed.

Lemma loop1_run (ctx : context) (names : list string) :
  forall (g : Z) (h : Handler),
  exists L,
    for_each names (process_source ctx) g h =
    let st := fold_left (step1 (_sources h) ctx) names (_matches h, g) in
    Returned (snd st) (with_log (log h ++ L) (set_matches (fst st) h)).
Proof.
  induction names as [|name rest IH]; intros g h; simpl.
  - exists []. now rewrite with_log_nil.
  - unfold bind. destruct (process_source_run ctx name g h) as [L1 ->].
    set (st := step1 (_sources h) ctx (_matches h, g) name).
    destruct (IH (snd st) (with_log (log h ++ L1) (set_matches (fst st) h)))
      as [L2 ->].
    exists (L1 ++ L2)%list. cbv zeta.
    change (_sources (with_log (log h ++ L1) (set_matches (fst st) h)))
      with (_sources h).
    change (_matches (with_log (log h ++ L1) (set_matches (fst st) h)))
      with (fst st).
    rewrite with_log_twice. now rewrite <- surjective_pairing.
Qed.

(** One turn of the second loop never raises, and writes what [step2]
    says. *)
Lemma merge_source_run (ctx : context) (startcol : Z) (name : string)
    (acc : list candidate) (h : Handler) :
  exists L,
    merge_source ctx startcol name acc h =
    let st := step2 ctx startcol (_matches h, acc) name in
    Returned (snd st) (with_log (log h ++ L) (set_matches (fst st) h)).
Proof.
  unfold merge_source, merge_source_body, step2. run_handler.
  destruct (Dict.get name (_matches h)) as [e|] eqn:G; simpl.
  - destruct (col ctx <? e_startcol e) eqn:C; simpl.
    + eexists [_]. reflexivity.
    + rewrite G; simpl.
      destruct (e_last_matches e) as [l|]; simpl.
      * rewrite G; simpl. exists []. now rewrite with_log_same.
      * eexists [_]. reflexivity.
  - eexists [_]. reflexivity.
Qed.

Lemma loop2_run (ctx : context) (startcol : Z) (names : list string) :
  forall (acc : list candidate) (h : Handler),
  exists L,
    for_each names (merge_source ctx startcol) acc h =
    let st := fold_left (step2 ctx startcol) names (_matches h, acc) in
    Returned (snd st) (with_log (log h ++ L) (set_matches (fst st) h)).
Proof.
  induction names as [|name rest IH]; intros acc h; simpl.
  - exists []. now rewrite with_log_nil.
  - unfold bind. destruct (merge_source_run ctx startcol name acc h) as [L1 ->].
    cbv zeta.
    set (st := step2 ctx startcol (_matches h, acc) name).
    destruct (IH (snd st) (with_log (log h ++ L1) (set_matches (fst st) h)))
      as [L2 ->].
    exists (L1 ++ L2)%list. cbv zeta.
    change (_matches (with_log (log h ++ L1) (set_matches (fst st) h)))
      with (fst st).
    rewrite with_log_twice. now rewrite <- surjective_pairing.
Qed.

(** The whole of [merged]: it raises only out of the sort, before anything
    is written; otherwise it returns what the two folds compute. *)
Lemma merged_raise (ctx : context) (h : Handler) (ex : exn) :
  sorted_names (_sources h) (_matches h) = Raise ex ->
  merged ctx h = Raised ex h.
Proof.
  intros E. unfold merged. run_handler. now rewrite E.
Qed.

Lemma merged_run (ctx : context) (h : Handler) (names : list string) :
  sorted_names (_sources h) (_matches h) = Ok names ->
  exists L,
    merged ctx h =
    let st1 := loop1 (_sources h) ctx names (_matches h) in
    let st2 := loop2 ctx (snd st1) names (fst st1) in
    Returned (snd st1, snd st2)
             (with_log (log h ++ L) (set_matches (fst st2) h)).
Proof.
  intros E. unfold merged, loop1, loop2.
  unfold bind at 1 2 3. unfold gets, lift. rewrite E.
  destruct names as [|n names]; [simpl|].
  - unfold bind, logger, modify, ret; simpl. eexists [_]. reflexivity.
  - unfold bind at 1.
    destruct (loop1_run ctx (n :: names) (col ctx) h) as [L1 ->].
    cbv zeta.
    set (st1 := fold_left (step1 (_sources h) ctx) (n :: names)
                          (_matches h, col ctx)).
    unfold bind at 1.
    destruct (loop2_run ctx (snd st1) (n :: names) []
                (with_log (log h ++ L1) (set_matches (fst st1) h)))
      as [L2 ->].
    cbv zeta.
    change (_matches (with_log (log h ++ L1) (set_matches (fst st1) h)))
      with (fst st1).
    set (st2 := fold_left (step2 ctx (snd st1)) (n :: names) (fst st1, [])).
    rewrite with_log_twice.
    unfold bind, logger, modify, ret.
    eexists (L1 ++ L2 ++ [_])%list.
    unfold add_log, with_log, set_matches; simpl.
    now rewrite <- !app_assoc.
Qed.

(* ================================================================== *)
(** ** What the loops keep and what they compute *)

Lemma same_reports_refl (m : dict entry) : same_reports m m.
Proof. now intros n. Qed.

Lemma same_reports_trans (m1 m2 m3 : dict entry) :
  same_reports m1 m2 -> same_reports m2 m3 -> same_reports m1 m3.
Proof. intros H1 H2 n. now rewrite H2, H1. Qed.

Lemma same_reports_get (m m' : dict entry) (n : string) (e : entry) :
  same_reports m m' -> Dict.get n m = Some e ->
  exists e', Dict.get n m' = Some e' /\ reported e' = reported e.
Proof.
  intros H G. specialize (H n). rewrite G in H; simpl in H.
  destruct (Dict.get n m') as [e'|]; simpl in H; [|discriminate].
  exists e'. split; congruence.
Qed.

Lemma same_reports_sym (m m' : dict entry) :
  same_reports m m' -> same_reports m' m.
Proof. intros H n. now rewrite H. Qed.

(** Writing ['last_matches'] of a stored name changes no report and no
    key. *)
Lemma set_last_reports (m : dict entry) (name : string) (e : entry)
    (l : list candidate) :
  Dict.get name m = Some e ->
  same_reports m (Dict.set name (with_last_matches l e) m).
Proof.
  intros G n. destruct (string_dec n name) as [->|N].
  - now rewrite DictFacts.get_set_eq, G.
  - now rewrite DictFacts.get_set_ne.
Qed.

Lemma set_last_keys (m : dict entry) (name : string) (e : entry)
    (l : list candidate) :
  Dict.get name m = Some e ->
  Dict.keys (Dict.set name (with_last_matches l e) m) = Dict.keys m.
Proof.
  intros G. apply DictFacts.keys_set_present.
  apply DictFacts.in_keys_get; eauto.
Qed.

Lemma step1_keeps (sources : dict source_info) (ctx : context)
    (m : dict entry) (g : Z) (name : string) :
  same_reports m (fst (step1 sources ctx (m, g) name))
  /\ Dict.keys (fst (step1 sources ctx (m, g) name)) = Dict.keys m.
Proof.
  unfold step1.
  destruct (Dict.get name m) as [e|] eqn:G; simpl;
    [|split; [apply same_reports_refl | reflexivity]].
  destruct (col ctx <? e_startcol e); simpl.
  - split; [now apply set_last_reports | now apply set_last_keys].
  - destruct (process_matches _ _ _ _ _); simpl.
    + split; [now apply set_last_reports | now apply set_last_keys].
    + split; [apply same_reports_refl | reflexivity].
Qed.

Lemma step2_keeps (ctx : context) (startcol : Z) (m : dict entry)
    (acc : list candidate) (name : string) :
  same_reports m (fst (step2 ctx startcol (m, acc) name))
  /\ Dict.keys (fst (step2 ctx startcol (m, acc) name)) = Dict.keys m.
Proof.
  unfold step2.
  destruct (Dict.get name m) as [e|] eqn:G; simpl;
    [|split; [apply same_reports_refl | reflexivity]].
  destruct (col ctx <? e_startcol e); simpl;
    [split; [apply same_reports_refl | reflexivity]|].
  destruct (e_last_matches e); simpl.
  - split; [now apply set_last_reports | now apply set_last_keys].
  - split; [apply same_reports_refl | reflexivity].
Qed.

Lemma fold_step1_keeps (sources : dict source_info) (ctx : context)
    (names : list string) :
  forall (m : dict entry) (g : Z),
    same_reports m (fst (fold_left (step1 sources ctx) names (m, g)))
    /\ Dict.keys (fst (fold_left (step1 sources ctx) names (m, g)))
       = Dict.keys m.
Proof.
  induction names as [|n rest IH]; intros m g; simpl.
  - split; [apply same_reports_refl | reflexivity].
  - destruct (step1_keeps sources ctx m g n) as [R K].
    rewrite (surjective_pairing (step1 sources ctx (m, g) n)).
    destruct (IH (fst (step1 sources ctx (m, g) n))
                 (snd (step1 sources ctx (m, g) n))) as [R' K'].
    split; [eapply same_reports_trans; eauto | congruence].
Qed.

Lemma fold_step2_keeps (ctx : context) (startcol : Z) (names : list string) :
  forall (m : dict entry) (acc : list candidate),
    same_reports m (fst (fold_left (step2 ctx startcol) names (m, acc)))
    /\ Dict.keys (fst (fold_left (step2 ctx startcol) names (m, acc)))
       = Dict.keys m.
Proof.
  induction names as [|n rest IH]; intros m acc; simpl.
  - split; [apply same_reports_refl | reflexivity].
  - destruct (step2_keeps ctx startcol m acc n) as [R K].
    rewrite (surjective_pairing (step2 ctx startcol (m, acc) n)).
    destruct (IH (fst (step2 ctx startcol (m, acc) n))
                 (snd (step2 ctx startcol (m, acc) n))) as [R' K'].
    split; [eapply same_reports_trans; eauto | congruence].
Qed.

Lemma qualifies_reported (sources : dict source_info) (ctx : context)
    (name : string) (e e' : entry) :
  reported e' = reported e ->
  qualifies sources ctx name e' = qualifies sources ctx name e.
Proof.
  unfold reported, qualifies. intros H; inversion H as [[H1 H2]].
  now rewrite H1, H2.
Qed.

(** The running minimum after one turn of the first loop. *)
Lemma step1_startcol (sources : dict source_info) (ctx : context)
    (m : dict entry) (g : Z) (name : string) :
  snd (step1 sources ctx (m, g) name) =
  match Dict.get name m with
  | Some e => if qualifies sources ctx name e then Z.min g (e_startcol e)
              else g
  | None => g
  end.
Proof.
  unfold step1, qualifies.
  destruct (Dict.get name m) as [e|]; simpl; auto.
  destruct (col ctx <? e_startcol e) eqn:C; simpl.
  - apply Z.ltb_lt in C.
    destruct (e_startcol e <=? col ctx) eqn:C'; simpl; auto.
    apply Z.leb_le in C'. lia.
  - apply Z.ltb_ge in C. apply Z.leb_le in C. rewrite C; simpl.
    destruct (process_matches _ _ _ _ _) as [[|c r]|ex]; simpl; auto.
    destruct (e_startcol e <? g) eqn:L;
      [apply Z.ltb_lt in L | apply Z.ltb_ge in L]; lia.
Qed.

(** The start column the first loop ends with: the least start column of a
    qualifying source it went over, capped by the one it started from. *)
Lemma fold_step1_startcol (sources : dict source_info) (ctx : context)
    (m : dict entry) (names : list string) :
  forall (m0 : dict entry) (g : Z),
    same_reports m m0 ->
    let g' := snd (fold_left (step1 sources ctx) names (m0, g)) in
    g' <= g
    /\ (forall n e, In n names -> Dict.get n m = Some e ->
          qualifies sources ctx n e = true -> g' <= e_startcol e)
    /\ (g' = g
        \/ exists n e, In n names /\ Dict.get n m = Some e
             /\ qualifies sources ctx n e = true /\ g' = e_startcol e).
Proof.
  induction names as [|name rest IH]; intros m0 g R; simpl.
  - split; [lia|]. split; [tauto | auto].
  - rewrite (surjective_pairing (step1 sources ctx (m0, g) name)).
    destruct (step1_keeps sources ctx m0 g name) as [R1 _].
    pose proof (step1_startcol sources ctx m0 g name) as G1.
    set (m1 := fst (step1 sources ctx (m0, g) name)) in *.
    set (g1 := snd (step1 sources ctx (m0, g) name)) in *.
    destruct (IH m1 g1 (same_reports_trans _ _ _ R R1)) as (Hle & Hall & Hex).
    set (g' := snd (fold_left (step1 sources ctx) rest (m1, g1))) in *.
    assert (Hg1 : g1 <= g).
    { rewrite G1. destruct (Dict.get name m0) as [e0|]; [|lia].
      destruct (qualifies sources ctx name e0); lia. }
    split; [lia|]. split.
    + intros n e [<-|I] Ge Q; [|eauto].
      destruct (same_reports_get _ _ _ _ R Ge) as (e0 & G0 & Rep).
      rewrite G0, (qualifies_reported _ _ _ _ _ Rep), Q in G1.
      assert (e_startcol e0 = e_startcol e)
        by (unfold reported in Rep; congruence).
      lia.
    + destruct Hex as [Hex|(n & e & I & Ge & Q & Hg)].
      * destruct (Dict.get name m0) as [e0|] eqn:G0;
          [|left; lia].
        destruct (qualifies sources ctx name e0) eqn:Q0; [|left; lia].
        destruct (Z.le_gt_cases g (e_startcol e0)); [left; lia|].
        right.
        destruct (same_reports_get _ _ _ _ (same_reports_sym _ _ R) G0)
          as (e & Ge & Rep).
        exists name, e. repeat split; auto.
        -- now rewrite (qualifies_reported _ _ _ _ _ Rep).
        -- assert (e_startcol e = e_startcol e0)
             by (unfold reported in Rep; congruence).
           lia.
      * right. exists n, e. auto.
Qed.

Lemma _complete_run (ctx : context) (g : Z) (ms : list candidate) (h : Handler) :
  _complete ctx g ms h =
  Returned tt (if is_nil ms && is_nil (_last_matches h) then h
               else add_call (Core_complete ctx g ms (_matches h)) h).
Proof.
  unfold _complete, bind, gets, modify, ret.
  now destruct (is_nil ms && is_nil (_last_matches h)).
Qed.

Lemma refresh_after_merged (ctx : context) (h h' : Handler) (g : Z)
    (ms : list candidate) :
  merged ctx h = Returned (g, ms) h' ->
  _refresh_completions ctx h = _complete ctx g ms h'.
Proof. intros H. unfold _refresh_completions, bind. now rewrite H. Qed.

Lemma stored_in_names (sources : dict source_info) (m : dict entry)
    (names : list string) (n : string) (e : entry) :
  sorted_names sources m = Ok names -> Dict.get n m = Some e -> In n names.
Proof.
  intros S G. destruct (sorted_names_perm _ _ _ S) as [P _].
  apply (Permutation_in _ (Permutation_sym P)).
  apply DictFacts.in_keys_get; eauto.
Qed.

(* ================================================================== *)
(** ** The start column of a merge *)

(** C1. Whenever [_refresh_completions] gets as far as its call of
    [_complete]: if some stored source has a start column not past the
    cursor and non-empty processed matches, the start column passed on is
    the start column of such a source and no such source starts before it;
    if no stored source is like that, it is the column of the context. *)
Theorem startcol_law (ctx : context) (h h' : Handler) (startcol : Z)
    (matches : list candidate) :
  merged ctx h = Returned (startcol, matches) h' ->
  _refresh_completions ctx h = _complete ctx startcol matches h'
  /\ ((exists name e, Dict.get name (_matches h) = Some e
                      /\ qualifies (_sources h) ctx name e = true) ->
      (exists name e, Dict.get name (_matches h) = Some e
                      /\ qualifies (_sources h) ctx name e = true
                      /\ startcol = e_startcol e)
      /\ forall name e, Dict.get name (_matches h) = Some e ->
           qualifies (_sources h) ctx name e = true ->
           startcol <= e_startcol e)
  /\ ((forall name e, Dict.get name (_matches h) = Some e ->
         qualifies (_sources h) ctx name e = false) ->
      startcol = col ctx).
Proof.
  intros H. split; [now apply refresh_after_merged|].
  destruct (sorted_names (_sources h) (_matches h)) as [names|ex] eqn:S;
    [|rewrite (merged_raise ctx h ex S) in H; discriminate].
  destruct (merged_run ctx h names S) as [L E]. rewrite E in H.
  cbv zeta in H. inversion H as [[Hg Hm Hh]]. clear H E Hm Hh.
  unfold loop1.
  destruct (fold_step1_startcol (_sources h) ctx (_matches h) names
              (_matches h) (col ctx) (same_reports_refl _))
    as (Hle & Hall & Hex).
  set (g := snd (fold_left (step1 (_sources h) ctx) names
                           (_matches h, col ctx))) in *.
  assert (Hmin : forall name e, Dict.get name (_matches h) = Some e ->
                   qualifies (_sources h) ctx name e = true ->
                   g <= e_startcol e).
  { intros n e G Q. apply (Hall n e); auto.
    eapply stored_in_names; eauto. }
  split.
  - intros (n0 & e0 & G0 & Q0). split; auto.
    destruct Hex as [Hc|(n & e & _ & G & Q & Hg')]; [|eauto].
    exists n0, e0. repeat split; auto.
    pose proof (Hmin n0 e0 G0 Q0) as Hl.
    unfold qualifies in Q0. apply andb_prop in Q0. destruct Q0 as [Q0 _].
    apply Z.leb_le in Q0. lia.
  - intros Hno. destruct Hex as [Hc|(n & e & _ & G & Q & _)]; auto.
    rewrite (Hno n e G) in Q. discriminate.
Qed.

Lemma startcol_law_witness :
  merged law_ctx law_handler
  = Returned (fst (fst law_merged), snd (fst law_merged)) (snd law_merged)
  /\ fst (fst law_merged) = 1
  /\ (_refresh_completions law_ctx law_handler
      = _complete law_ctx (fst (fst law_merged)) (snd (fst law_merged))
                  (snd law_merged)
      /\ ((exists name e,
              Dict.get name (_matches law_handler) = Some e
              /\ qualifies (_sources law_handler) law_ctx name e = true) ->
          (exists name e,
              Dict.get name (_matches law_handler) = Some e
              /\ qualifies (_sources law_handler) law_ctx name e = true
              /\ fst (fst law_merged) = e_startcol e)
          /\ forall name e,
               Dict.get name (_matches law_handler) = Some e ->
               qualifies (_sources law_handler) law_ctx name e = true ->
               fst (fst law_merged) <= e_startcol e)
      /\ ((forall name e,
              Dict.get name (_matches law_handler) = Some e ->
              qualifies (_sources law_handler) law_ctx name e = false) ->
          fst (fst law_merged) = col law_ctx)).
Proof.
  assert (H : merged law_ctx law_handler
              = Returned (fst (fst law_merged), snd (fst law_merged))
                         (snd law_merged))
    by (vm_compute; reflexivity).
  split; [exact H|]. split; [reflexivity|].
  exact (startcol_law law_ctx law_handler (snd law_merged)
           (fst (fst law_merged)) (snd (fst law_merged)) H).
Defined.

(* ================================================================== *)
(** ** [_refresh_completions] and [cm_complete] as a whole *)

(** The merge leaves every report, and every key, of the store. *)
Lemma refresh_keeps (ctx : context) (h : Handler) :
  same_reports (_matches h) (_matches (final (_refresh_completions ctx h)))
  /\ Dict.keys (_matches (final (_refresh_completions ctx h)))
     = Dict.keys (_matches h).
Proof.
  unfold _refresh_completions, bind.
  destruct (sorted_names (_sources h) (_matches h)) as [names|ex] eqn:S.
  - destruct (merged_run ctx h names S) as [L ->]. cbv beta iota zeta.
    rewrite _complete_run.
    set (st1 := loop1 (_sources h) ctx names (_matches h)).
    set (st2 := loop2 ctx (snd st1) names (fst st1)).
    assert (K : same_reports (_matches h) (fst st2)
                /\ Dict.keys (fst st2) = Dict.keys (_matches h)).
    { destruct (fold_step1_keeps (_sources h) ctx names (_matches h) (col ctx))
        as [R1 K1].
      destruct (fold_step2_keeps ctx (snd st1) names (fst st1) []) as [R2 K2].
      fold (loop1 (_sources h) ctx names (_matches h)) in R1, K1.
      fold st1 in R1, K1.
      fold (loop2 ctx (snd st1) names (fst st1)) in R2, K2. fold st2 in R2, K2.
      split; [eapply same_reports_trans; eauto | congruence]. }
    destruct (is_nil _ && is_nil _); exact K.
  - rewrite (merged_raise ctx h ex S); simpl.
    split; [apply same_reports_refl | reflexivity].
Qed.

(** [cm_complete], branch by branch. *)
Lemma cm_complete_run (srcs : dict source_info) (name : string)
    (ctx : context) (startcol : Z) (matches : list item) (h : Handler) :
  cm_complete srcs name ctx startcol matches h =
  let store := fun h0 =>
    set_matches (store_matches name startcol matches (_matches h0)) h0 in
  match process_matches srcs name ctx startcol matches with
  | Raise ex => Raised ex (store (set_sources srcs h))
  | Ok result =>
      if is_nil result && is_nil (stored_last name (_matches h)) then
        Returned tt
          (store (add_log (Info_not_popping_up name startcol matches)
                          (set_sources srcs h)))
      else if _has_popped_up h then
        _refresh_completions ctx (store (set_sources srcs h))
      else Returned tt (store (set_sources srcs h))
  end.
Proof.
  unfold cm_complete, complete_is_inert, try_finally.
  unfold logger, bind, gets, modify, lift, ret. simpl.
  destruct (process_matches srcs name ctx startcol matches) as [r|ex];
    simpl; auto.
  destruct (is_nil r && is_nil _); simpl; auto.
  destruct (_has_popped_up h); auto.
Qed.

Lemma get_store_matches (name : string) (startcol : Z) (matches : list item)
    (m : dict entry) :
  option_map reported (Dict.get name (store_matches name startcol matches m))
  = match matches with
    | [] => None
    | _ :: _ => Some (startcol, matches)
    end.
Proof.
  unfold store_matches. destruct matches as [|it rest].
  - now rewrite DictFacts.get_del_eq.
  - now rewrite DictFacts.get_set_eq.
Qed.

(** C7. Whatever way a call of [cm_complete] ends (with the merge, without
    it, through the early return of an inert call, or with an exception),
    the store it leaves has, under [name], the new start column and the new
    raw matches when [matches] is not empty, and no entry when it is. *)
Theorem complete_always_stores (srcs : dict source_info) (name : string)
    (ctx : context) (startcol : Z) (matches : list item) (h : Handler) :
  let h' := final (cm_complete srcs name ctx startcol matches h) in
  match matches with
  | [] => Dict.get name (_matches h') = None
  | _ :: _ =>
      exists e, Dict.get name (_matches h') = Some e
                /\ e_startcol e = startcol /\ e_matches e = matches
  end.
Proof.
  cbv zeta.
  assert (K : option_map reported
                (Dict.get name
                   (_matches (final (cm_complete srcs name ctx startcol
                                                 matches h))))
              = match matches with
                | [] => None
                | _ :: _ => Some (startcol, matches)
                end).
  { rewrite cm_complete_run. cbv zeta.
    destruct (process_matches srcs name ctx startcol matches) as [r|ex];
      simpl; [|apply get_store_matches].
    destruct (is_nil r && is_nil _); simpl; [apply get_store_matches|].
    destruct (_has_popped_up h); simpl; [|apply get_store_matches].
    match goal with
    | |- context [_refresh_completions ctx ?h0] =>
        destruct (refresh_keeps ctx h0) as [R _]; rewrite (R name)
    end.
    simpl. apply get_store_matches. }
  destruct matches as [|it rest].
  - destruct (Dict.get name _); [discriminate | reflexivity].
  - destruct (Dict.get name _) as [e|]; [|discriminate].
    exists e. unfold reported in K; simpl in K. inversion K; auto.
Qed.

(* ================================================================== *)
(** ** The priority sort in front of the merge *)

(** C10. The sort reads [self._sources[x]['priority']] for every stored
    name outside any [try]: when every stored name has a descriptor with a
    priority, [_refresh_completions] returns; when some stored name has no
    descriptor, it raises and leaves the instance as it found it (no
    source processed, nothing sent to the editor). *)
Theorem priority_sort_guard (ctx : context) (h : Handler) :
  ((forall name, In name (Dict.keys (_matches h)) ->
      exists info p, Dict.get name (_sources h) = Some info
                     /\ s_priority info = Some p) ->
   exists h', _refresh_completions ctx h = Returned tt h')
  /\ (forall name, In name (Dict.keys (_matches h)) ->
        Dict.get name (_sources h) = None ->
        exists ex, _refresh_completions ctx h = Raised ex h).
Proof.
  split.
  - intros H.
    destruct (sorted_names_ok (_sources h) (_matches h)) as [names S].
    { intros x I. destruct (H x I) as (info & p & G & P).
      exists p. unfold priority_of, source_of. now rewrite G; simpl; rewrite P. }
    destruct (merged_run ctx h names S) as [L E].
    unfold _refresh_completions, bind. rewrite E. cbv beta iota zeta.
    rewrite _complete_run. eauto.
  - intros name I G.
    destruct (sorted_names_raise (_sources h) (_matches h) name (KeyError name) I)
      as [ex S].
    { unfold priority_of, source_of. now rewrite G. }
    exists ex. unfold _refresh_completions, bind.
    now rewrite (merged_raise ctx h ex S).
Qed.

Lemma priority_sort_guard_witness :
  (exists h', _refresh_completions guard_ctx guard_described = Returned tt h')
  /\ (exists ex, _refresh_completions guard_ctx guard_undescribed
                 = Raised ex guard_undescribed).
Proof.
  split.
  - apply (proj1 (priority_sort_guard guard_ctx guard_described)).
    intros name I. vm_compute in I. destruct I as [<-|[]].
    exists (plain_source 5 None), 5. split; reflexivity.
  - apply (proj2 (priority_sort_guard guard_ctx guard_undescribed) "words").
    + vm_compute. auto.
    + reflexivity.
Defined.

(* ================================================================== *)
(** ** The prefix of the merged candidates *)

Lemma processable_same_reports sources ctx (m m' : dict entry) :
  same_reports m m' -> processable sources ctx m -> processable sources ctx m'.
Proof.
  intros R P n e' G.
  destruct (same_reports_get _ _ _ _ (same_reports_sym _ _ R) G)
    as (e & Ge & Rep).
  destruct (P n e Ge) as [r Hr]. exists r.
  unfold reported in Rep. inversion Rep as [[H1 H2]]. congruence.
Qed.

Lemma step1_fresh sources ctx (m0 : dict entry) (g : Z) (name n : string) :
  processable sources ctx m0 ->
  n = name \/ fresh sources ctx m0 n ->
  fresh sources ctx (fst (step1 sources ctx (m0, g) name)) n.
Proof.
  intros P H. unfold step1.
  destruct (string_dec n name) as [->|N].
  - clear H. destruct (Dict.get name m0) as [e|] eqn:G; simpl.
    + destruct (col ctx <? e_startcol e) eqn:C; simpl.
      * intros e' G' Hc. rewrite DictFacts.get_set_eq in G'.
        inversion G'; subst e'; simpl in *. apply Z.ltb_lt in C. lia.
      * destruct (P name e G) as [r Hr]. rewrite Hr; simpl.
        intros e' G' Hc. rewrite DictFacts.get_set_eq in G'.
        inversion G'; subst e'; simpl. eauto.
    + intros e' G'. congruence.
  - destruct H as [H|H]; [contradiction|].
    destruct (Dict.get name m0) as [e|] eqn:G; simpl; auto.
    destruct (col ctx <? e_startcol e); simpl.
    + intros e' G'. rewrite DictFacts.get_set_ne in G' by auto. now apply H.
    + destruct (process_matches _ _ _ _ _); simpl; auto.
      intros e' G'. rewrite DictFacts.get_set_ne in G' by auto. now apply H.
Qed.

Lemma fold_step1_fresh sources ctx (names : list string) :
  forall (m0 : dict entry) (g : Z) (n : string),
    processable sources ctx m0 ->
    In n names \/ fresh sources ctx m0 n ->
    fresh sources ctx (fst (fold_left (step1 sources ctx) names (m0, g))) n.
Proof.
  induction names as [|name rest IH]; intros m0 g n P H; simpl.
  - destruct H as [[]|H]; exact H.
  - rewrite (surjective_pairing (step1 sources ctx (m0, g) name)).
    destruct (step1_keeps sources ctx m0 g name) as [R _].
    apply IH; [eapply processable_same_reports; eauto|].
    destruct (in_dec string_dec n rest) as [I|I]; [now left|right].
    apply step1_fresh; auto.
    destruct H as [[E|I']|H]; auto; contradiction.
Qed.

Lemma pad_prefix_ok (ctx : context) (g s : Z) (c : candidate) :
  1 <= g <= s ->
  matches_base (PyStr.slice (typed ctx) (s - 1) None) (word c) = true ->
  prefix_ok ctx g
    (pad (PyStr.slice (typed ctx) (g - 1) (Some (s - 1))) c).
Proof.
  intros Hg B. unfold prefix_ok, pad; simpl.
  rewrite (PyStrFacts.slice_split (typed ctx) (g - 1) (s - 1)) by lia.
  set (pre := PyStr.slice (typed ctx) (g - 1) (Some (s - 1))).
  set (base := PyStr.slice (typed ctx) (s - 1) None) in *.
  unfold matches_base in B. apply String.eqb_eq in B.
  unfold PyStr.len in *.
  rewrite PyStrFacts.slice_prefix in B.
  rewrite PyStrFacts.slice_prefix, PyStrFacts.length_app, PyStrFacts.take_app.
  rewrite !PyStrFacts.lower_app. now rewrite B.
Qed.

(** The second loop, over distinct names whose entries are fresh, adds
    only padded processed candidates, and each agrees with the prefix. *)
Lemma fold_step2_prefix sources ctx (m : dict entry) (g : Z)
    (names : list string) :
  (forall n e, Dict.get n m = Some e -> 1 <= e_startcol e) ->
  (forall n e, Dict.get n m = Some e ->
     qualifies sources ctx n e = true -> g <= e_startcol e) ->
  g = col ctx \/ 1 <= g ->
  NoDup names ->
  forall (m' : dict entry) (acc : list candidate),
    same_reports m m' ->
    (forall n, In n names -> fresh sources ctx m' n) ->
    Forall (fun c => prefix_ok ctx g c /\ emitted_from sources ctx m g c) acc ->
    Forall (fun c => prefix_ok ctx g c /\ emitted_from sources ctx m g c)
           (snd (fold_left (step2 ctx g) names (m', acc))).
Proof.
  intros Hone Hmin Hg ND. induction ND as [|name rest Hni ND IH];
    intros m' acc R F A; simpl; auto.
  assert (Frest : forall n, In n rest -> fresh sources ctx m' n)
    by (intros n I; apply F; now right).
  unfold step2 at 2.
  destruct (Dict.get name m') as [e'|] eqn:G; [|now apply IH].
  destruct (col ctx <? e_startcol e') eqn:C; [now apply IH|].
  apply Z.ltb_ge in C.
  destruct (F name (or_introl eq_refl) e' G C) as (r & Hr & Hl).
  rewrite Hl.
  destruct (same_reports_get _ _ _ _ (same_reports_sym _ _ R) G)
    as (e & Ge & Rep).
  assert (Es : e_startcol e = e_startcol e'
               /\ e_matches e = e_matches e')
    by (unfold reported in Rep; inversion Rep; auto).
  destruct Es as [Es Em].
  apply IH.
  - eapply same_reports_trans; [exact R | now apply set_last_reports].
  - intros n I e0 G0. rewrite DictFacts.get_set_ne in G0.
    + now apply (Frest n I).
    + intros ->. contradiction.
  - apply Forall_app. split; auto.
    apply Forall_forall. intros c I. apply in_map_iff in I.
    destruct I as (c0 & <- & I0).
    destruct (process_matches_in _ _ _ _ _ _ _ Hr I0) as [B _].
    assert (Q : qualifies sources ctx name e = true).
    { unfold qualifies. rewrite Es, Em, Hr.
      destruct r; [contradiction|]. apply andb_true_intro.
      split; auto. now apply Z.leb_le. }
    pose proof (Hmin name e Ge Q) as Hle.
    pose proof (Hone name e Ge) as H1.
    split.
    + apply pad_prefix_ok; auto. lia.
    + exists name, e, r, c0. rewrite Es, Em. repeat split; auto.
Qed.

Lemma priority_has_source (sources : dict source_info) (x : string) (p : Z) :
  priority_of sources x = Ok p -> exists src, Dict.get x sources = Some src.
Proof.
  unfold priority_of, source_of.
  destruct (Dict.get x sources) as [src|]; simpl; [eauto | discriminate].
Qed.

(** C5. When the typed text and the words of the stored candidates are
    ASCII, and the store is as the data model has it (distinct names, start
    columns from 1, every raw candidate with its word), every candidate
    that [_refresh_completions] passes to [_complete] agrees with the
    prefix typed from the merged start column: its word, cut to the length
    of [ctx['typed'][startcol-1:]] and lower-cased, is that prefix
    lower-cased. Each such candidate is a processed candidate of a stored
    source with the text between the merged and the source's start column
    put in front. *)
Theorem prefix_law (ctx : context) (h h' : Handler) (startcol : Z)
    (matches : list candidate) :
  ascii_text ctx (_matches h) ->
  well_formed_store (_matches h) ->
  merged ctx h = Returned (startcol, matches) h' ->
  _refresh_completions ctx h = _complete ctx startcol matches h'
  /\ forall c, In c matches ->
       (let prefix := PyStr.slice (typed ctx) (startcol - 1) None in
        PyStr.lower (PyStr.slice (word c) 0 (Some (PyStr.len prefix)))
        = PyStr.lower prefix)
       /\ emitted_from (_sources h) ctx (_matches h) startcol c.
Proof.
  intros _ [ND WF] H. split; [now apply refresh_after_merged|].
  destruct (sorted_names (_sources h) (_matches h)) as [names|ex] eqn:S;
    [|rewrite (merged_raise ctx h ex S) in H; discriminate].
  destruct (merged_run ctx h names S) as [L E]. rewrite E in H.
  cbv zeta in H. inversion H as [[Hg Hm Hh]]. clear H E Hh Hg Hm.
  destruct (sorted_names_perm _ _ _ S) as [Perm Prio].
  assert (P : processable (_sources h) ctx (_matches h)).
  { intros n e G.
    destruct (Prio n) as [p Hp]; [apply DictFacts.in_keys_get; eauto|].
    destruct (priority_has_source _ _ _ Hp) as [src Hs].
    eapply process_matches_total; eauto. now apply (WF n e). }
  unfold loop1, loop2 in *.
  destruct (fold_step1_startcol (_sources h) ctx (_matches h) names
              (_matches h) (col ctx) (same_reports_refl _))
    as (Hle & Hall & Hex).
  destruct (fold_step1_keeps (_sources h) ctx names (_matches h) (col ctx))
    as [R1 _].
  set (st1 := fold_left (step1 (_sources h) ctx) names
                        (_matches h, col ctx)) in *.
  assert (F : forall n, In n names -> fresh (_sources h) ctx (fst st1) n).
  { intros n I. apply fold_step1_fresh; auto. }
  pose proof (fold_step2_prefix (_sources h) ctx (_matches h) (snd st1) names)
    as K.
  specialize (K (fun n e G => proj1 (WF n e G))).
  assert (Hmin : forall n e, Dict.get n (_matches h) = Some e ->
                   qualifies (_sources h) ctx n e = true ->
                   snd st1 <= e_startcol e).
  { intros n e G Q. apply (Hall n e); auto. eapply stored_in_names; eauto. }
  assert (Hone : snd st1 = col ctx \/ 1 <= snd st1).
  { destruct Hex as [Hc|(n & e & _ & G & _ & Hs)]; auto.
    right. rewrite Hs. now apply (WF n e). }
  assert (NDn : NoDup names)
    by (apply (Permutation_NoDup (Permutation_sym Perm)); exact ND).
  specialize (K Hmin Hone NDn (fst st1) [] R1 F (Forall_nil _)).
  intros c I. rewrite Forall_forall in K. exact (K c I).
Qed.

Lemma law_store_well_formed : well_formed_store (_matches law_handler).
Proof.
  split.
  - vm_compute. constructor; [intros [E|[]]; discriminate E|].
    constructor; [intros []|constructor].
  - intros name e G.
    change (_matches law_handler)
      with [("words", {| e_startcol := 3;
                         e_matches := [Str "foo"; Str "bar"];
                         e_last_matches := None |});
            ("tags", {| e_startcol := 1; e_matches := [Str "a.foo"];
                        e_last_matches := None |})] in G.
    simpl in G.
    destruct (String.eqb name "words");
      [|destruct (String.eqb name "tags"); [|discriminate]];
      inversion G; subst e; simpl; split; try lia; repeat constructor.
Qed.

Lemma law_text_ascii : ascii_text law_ctx (_matches law_handler).
Proof.
  split; [reflexivity|]. intros name e it w G I W.
  change (_matches law_handler)
    with [("words", {| e_startcol := 3;
                       e_matches := [Str "foo"; Str "bar"];
                       e_last_matches := None |});
          ("tags", {| e_startcol := 1; e_matches := [Str "a.foo"];
                      e_last_matches := None |})] in G.
  simpl in G.
  destruct (String.eqb name "words");
    [|destruct (String.eqb name "tags"); [|discriminate]];
    inversion G; subst e; simpl in I;
    repeat (destruct I as [I|I]; [subst it; inversion W; reflexivity|]);
    destruct I.
Qed.

Lemma prefix_law_witness :
  ascii_text law_ctx (_matches law_handler)
  /\ well_formed_store (_matches law_handler)
  /\ merged law_ctx law_handler
     = Returned (fst (fst law_merged), snd (fst law_merged)) (snd law_merged)
  /\ map word (snd (fst law_merged)) = ["a.foo"; "a.foo"]
  /\ (_refresh_completions law_ctx law_handler
      = _complete law_ctx (fst (fst law_merged)) (snd (fst law_merged))
                  (snd law_merged)
      /\ forall c, In c (snd (fst law_merged)) ->
           (let prefix := PyStr.slice (typed law_ctx)
                                      (fst (fst law_merged) - 1) None in
            PyStr.lower (PyStr.slice (word c) 0 (Some (PyStr.len prefix)))
            = PyStr.lower prefix)
           /\ emitted_from (_sources law_handler) law_ctx
                (_matches law_handler) (fst (fst law_merged)) c).
Proof.
  assert (H : merged law_ctx law_handler
              = Returned (fst (fst law_merged), snd (fst law_merged))
                         (snd law_merged))
    by (vm_compute; reflexivity).
  split; [exact law_text_ascii|]. split; [exact law_store_well_formed|].
  split; [exact H|]. split; [reflexivity|].
  exact (prefix_law law_ctx law_handler (snd law_merged)
           (fst (fst law_merged)) (snd (fst law_merged))
           law_text_ascii law_store_well_formed H).
Defined.

(** C5, as stated for every store, fails. A source that starts at column
    0 makes [typed] be read from its last character: the merge is sent
    from column 0, where the prefix is ["o"], with the candidate ["foo"] of
    the other source. A source that answers with a candidate without its
    word makes its turn of the first loop raise; the list processed for its
    earlier answer is still under ['last_matches'] and the second loop
    appends it: ["foo"] is sent while the prefix is ["fx"]. All the text of
    both runs is ASCII. *)
Lemma prefix_law_fails_outside_the_data_model :
  (completions_sent column0_handler = [(0, ["ok"; "foo"])]
   /\ PyStr.slice (typed column0_ctx) (0 - 1) None = "o"
   /\ PyStr.lower (PyStr.slice "foo" 0 (Some (PyStr.len "o")))
      <> PyStr.lower "o")
  /\ (completions_sent wordless_handler = [(1, ["foo"]); (1, ["foo"; "fxy"])]
      /\ PyStr.slice (typed later_ctx) (1 - 1) None = "fx"
      /\ PyStr.lower (PyStr.slice "foo" 0 (Some (PyStr.len "fx")))
         <> PyStr.lower "fx").
Proof. repeat split; try reflexivity; discriminate. Qed.

(* ================================================================== *)
(** ** Faults of one source inside the loops *)








(* ================================================================== *)
(** ** [cm_complete] once the popup is shown *)

(** C8, as stated, fails: the popup is shown, [words] answers with nothing
    and had nothing stored; [cm_complete] returns through its early
    [return], having sent nothing to the editor and logged no merge, while
    a call of [_refresh_completions] on the same instance would have sent
    the candidate of [tags] once more. *)
Lemma inert_complete_skips_merge :
  _has_popped_up popup_shown = true
  /\ process_matches law_sources "words" popup_ctx 1 [] = Ok []
  /\ stored_last "words" (_matches popup_shown) = []
  /\ cm_complete law_sources "words" popup_ctx 1 [] popup_shown
     = Returned tt popup_inert_result
  /\ nvim_calls popup_inert_result = nvim_calls popup_shown
  /\ log popup_inert_result
     = (log popup_shown ++ [Info_not_popping_up "words" 1 []])%list
  /\ cm_complete law_sources "words" popup_ctx 1 [] popup_shown
     <> _refresh_completions popup_ctx (set_sources law_sources popup_shown)
  /\ List.length (nvim_calls
                    (final (_refresh_completions popup_ctx
                              (set_sources law_sources popup_shown))))
     = S (List.length (nvim_calls popup_shown)).
Proof.
  repeat split; try reflexivity.
  vm_compute. intros H. inversion H.
Qed.

(** C8, amended. With the popup shown, a call of [cm_complete] whose
    processing returns ends with [_refresh_completions], run on the
    instance with the answer stored, exactly when the processed answer or
    the processed list stored for the source before is non-empty; when
    both are empty the call stores the answer, logs that it does not pop
    up and returns without merging. *)
Theorem popped_up_complete_merges_unless_inert (srcs : dict source_info)
    (name : string) (ctx : context) (startcol : Z) (matches : list item)
    (h : Handler) (result : list candidate) :
  _has_popped_up h = true ->
  process_matches srcs name ctx startcol matches = Ok result ->
  let stored :=
    set_matches (store_matches name startcol matches (_matches h))
                (set_sources srcs h) in
  (result <> [] \/ stored_last name (_matches h) <> [] ->
   cm_complete srcs name ctx startcol matches h
   = _refresh_completions ctx stored)
  /\ (result = [] /\ stored_last name (_matches h) = [] ->
      cm_complete srcs name ctx startcol matches h
      = Returned tt (add_log (Info_not_popping_up name startcol matches)
                             stored)).
Proof.
  intros P R. cbv zeta. rewrite cm_complete_run, R, P. cbv zeta. split.
  - intros [H|H].
    + destruct result; [congruence | reflexivity].
    + destruct (stored_last name (_matches h)); [congruence|].
      now rewrite andb_false_r.
  - intros [-> ->]. reflexivity.
Qed.

Lemma popped_up_complete_merges_unless_inert_witness :
  (cm_complete law_sources "tags" popup_ctx 1 [Str "fox"] popup_shown
   = _refresh_completions popup_ctx
       (set_matches (store_matches "tags" 1 [Str "fox"] (_matches popup_shown))
                    (set_sources law_sources popup_shown)))
  /\ (cm_complete law_sources "words" popup_ctx 1 [] popup_shown
      = Returned tt
          (add_log (Info_not_popping_up "words" 1 [])
             (set_matches (store_matches "words" 1 [] (_matches popup_shown))
                          (set_sources law_sources popup_shown)))).
Proof.
  split.
  - apply (proj1 (popped_up_complete_merges_unless_inert
                    law_sources "tags" popup_ctx 1 [Str "fox"] popup_shown
                    [{| word := "fox"; menu := "Tag"; info := None;
                        extra := [] |}]
                    eq_refl eq_refl)).
    left. discriminate.
  - apply (proj2 (popped_up_complete_merges_unless_inert
                    law_sources "words" popup_ctx 1 [] popup_shown []
                    eq_refl eq_refl)).
    split; reflexivity.
Defined.

(* ================================================================== *)
(** ** Invariants of the instance *)

Lemma preserves_ret {A} P (a : A) : preserves P (ret a).
Proof. now intros h. Qed.

Lemma preserves_gets {A} P (f : Handler -> A) : preserves P (gets f).
Proof. now intros h. Qed.

Lemma preserves_lift {A} P (r : result A) : preserves P (lift r).
Proof. intros h. unfold lift. now destruct r. Qed.

Lemma preserves_modify P (f : Handler -> Handler) :
  (forall h, P h -> P (f h)) -> preserves P (modify f).
Proof. intros H h. apply H. Qed.

Lemma preserves_bind {A B} P (m : M A) (k : A -> M B) :
  preserves P m -> (forall a, preserves P (k a)) -> preserves P (bind m k).
Proof.
  intros Hm Hk h Hh. unfold bind. specialize (Hm h Hh).
  destruct (m h) as [a h1|ex h1]; simpl in *; [|exact Hm].
  now apply Hk.
Qed.

Lemma preserves_try_except {A} P (body : M A) (handler : exn -> M A) :
  preserves P body -> (forall ex, preserves P (handler ex)) ->
  preserves P (try_except body handler).
Proof.
  intros Hb Hx h Hh. unfold try_except. specialize (Hb h Hh).
  destruct (body h) as [a h1|ex h1]; simpl in *; [exact Hb|].
  now apply Hx.
Qed.

Lemma preserves_try_finally {A} P (body : M A) (fin : M unit) :
  preserves P body -> preserves P fin -> preserves P (try_finally body fin).
Proof.
  intros Hb Hf h Hh. unfold try_finally. specialize (Hb h Hh).
  destruct (body h) as [a h1|ex h1]; simpl in *;
    specialize (Hf h1 Hb); destruct (fin h1); simpl in *; assumption.
Qed.

Lemma preserves_for_each {X A} P (xs : list X) (body : X -> A -> M A) :
  (forall x a, preserves P (body x a)) ->
  forall acc, preserves P (for_each xs body acc).
Proof.
  intros Hb. induction xs as [|x rest IH]; intros acc; simpl.
  - apply preserves_ret.
  - apply preserves_bind; auto.
Qed.

(** A property of the instance that every assignment the methods make
    keeps is kept by every method, and so by every run of events. *)
Section Invariant.
Variable P : Handler -> Prop.
Hypothesis P_log : forall l h, P h -> P (add_log l h).
Hypothesis P_call : forall c h, P h -> P (add_call c h).
Hypothesis P_sources : forall s h, P h -> P (set_sources s h).
Hypothesis P_popped : forall b h, P h -> P (set_has_popped_up b h).
Hypothesis P_server : forall fs h, P h -> P (set_file_server fs h).
Hypothesis P_clear : forall h, P h -> P (set_matches [] h).
Hypothesis P_set :
  forall name e h, P h -> P (set_matches (Dict.set name e (_matches h)) h).
Hypothesis P_del :
  forall name h, P h -> P (set_matches (Dict.del name (_matches h)) h).

Ltac preserves_step :=
  first
    [ apply preserves_ret | apply preserves_gets | apply preserves_lift
    | apply preserves_modify; intros ? ?; cbv beta; solve [auto]
    | progress cbv zeta
    | progress unfold logger, put_last_matches, last_matches_of, entry_of
    | match goal with
      | |- preserves _ (if ?b then _ else _) => destruct b
      | |- preserves _ (match ?x with _ => _ end) => destruct x
      end
    | apply preserves_try_except; [|intros ?]
    | apply preserves_for_each; intros ? ?
    | apply preserves_bind; [|intros ?] ].

Lemma complete_preserves (ctx : context) (g : Z) (ms : list candidate) :
  preserves P (_complete ctx g ms).
Proof. unfold _complete. repeat preserves_step. Qed.

Lemma process_source_preserves (ctx : context) (name : string) (g : Z) :
  preserves P (process_source ctx name g).
Proof. unfold process_source, process_source_body. repeat preserves_step. Qed.

Lemma merge_source_preserves (ctx : context) (g : Z) (name : string)
    (acc : list candidate) :
  preserves P (merge_source ctx g name acc).
Proof. unfold merge_source, merge_source_body. repeat preserves_step. Qed.

Lemma refresh_source_preserves (ctx : context) (src : string * source_info)
    (acc : list string * list notification) :
  preserves P (refresh_source ctx src acc).
Proof. unfold refresh_source, refresh_source_body. repeat preserves_step. Qed.

Lemma refresh_preserves (ctx : context) :
  preserves P (_refresh_completions ctx).
Proof.
  unfold _refresh_completions, merged.
  apply preserves_bind; [|intros ?; apply complete_preserves].
  apply preserves_bind; [apply preserves_gets|intros sources].
  apply preserves_bind; [apply preserves_gets|intros m].
  apply preserves_bind; [apply preserves_lift|intros names].
  destruct names as [|n names]; [repeat preserves_step|].
  apply preserves_bind;
    [apply preserves_for_each; intros; apply process_source_preserves
    |intros g].
  apply preserves_bind;
    [apply preserves_for_each; intros; apply merge_source_preserves
    |intros ms].
  repeat preserves_step.
Qed.

Lemma store_preserves (name : string) (startcol : Z) (matches : list item) :
  preserves P
    (modify (fun h => set_matches
                        (store_matches name startcol matches (_matches h)) h)).
Proof.
  apply preserves_modify. intros h Hh. unfold store_matches.
  destruct matches; auto.
Qed.

Lemma cm_complete_preserves (srcs : dict source_info) (name : string)
    (ctx : context) (startcol : Z) (matches : list item) :
  preserves P (cm_complete srcs name ctx startcol matches).
Proof.
  unfold cm_complete.
  apply preserves_bind; [repeat preserves_step|intros _].
  apply preserves_bind.
  - apply preserves_try_finally; [|apply store_preserves].
    unfold complete_is_inert. repeat preserves_step.
  - intros [|]; [apply preserves_ret|].
    apply preserves_bind; [apply preserves_gets|intros [|]];
      [apply refresh_preserves | apply preserves_ret].
Qed.

Lemma cm_complete_timeout_preserves (srcs : dict source_info)
    (ctx : context) :
  preserves P (cm_complete_timeout srcs ctx).
Proof.
  unfold cm_complete_timeout.
  apply preserves_bind; [apply preserves_gets|intros [|]];
    [apply preserves_ret|].
  apply preserves_bind; [apply refresh_preserves|intros _].
  repeat preserves_step.
Qed.

Lemma cm_refresh_preserves (srcs : dict source_info) (ctx : context) :
  preserves P (cm_refresh srcs ctx).
Proof.
  unfold cm_refresh.
  apply preserves_bind; [repeat preserves_step|intros _].
  apply preserves_bind; [apply preserves_gets|intros fs]. cbv zeta.
  apply preserves_bind; [repeat preserves_step|intros _].
  apply preserves_bind; [repeat preserves_step|intros _].
  apply preserves_bind; [repeat preserves_step|intros _].
  apply preserves_bind;
    [apply preserves_for_each; intros; apply refresh_source_preserves
    |intros refreshes].
  destruct (is_nil (fst refreshes) && is_nil (snd refreshes)).
  - apply preserves_bind; [repeat preserves_step|intros _].
    apply preserves_bind; [apply refresh_preserves|intros _].
    repeat preserves_step.
  - repeat preserves_step.
Qed.

Lemma dispatch_preserves (ev : event) : preserves P (dispatch ev).
Proof.
  destruct ev; simpl.
  - apply cm_complete_preserves.
  - unfold cm_insert_enter. repeat preserves_step.
  - apply cm_complete_timeout_preserves.
  - apply cm_refresh_preserves.
Qed.

Lemma run_preserves (evs : list event) (h : Handler) : P h -> P (run evs h).
Proof.
  unfold run. revert h. induction evs as [|ev rest IH]; intros h Hh; simpl.
  - exact Hh.
  - apply IH. now apply dispatch_preserves.
Qed.
End Invariant.

(** No method assigns [self._last_matches]: it is the empty list of
    [__init__] for the life of the instance. *)
Lemma last_matches_stay_empty (evs : list event) (port : Z) :
  _last_matches (run evs (init port)) = [].
Proof.
  apply (run_preserves (fun h => _last_matches h = [])); auto.
Qed.

(** The names of the store stay distinct, as the keys of a dictionary. *)
Lemma store_names_distinct (evs : list event) (port : Z) :
  NoDup (Dict.keys (_matches (run evs (init port)))).
Proof.
  apply (run_preserves (fun h => NoDup (Dict.keys (_matches h)))); simpl;
    auto.
  - intros _ _. constructor.
  - intros name e h. apply DictFacts.NoDup_keys_set.
  - intros name h. apply DictFacts.NoDup_keys_del.
  - constructor.
Qed.

(** So a merge that comes out empty is never sent to the editor. *)
Lemma empty_merge_is_never_sent (evs : list event) (port : Z) (ctx : context)
    (g : Z) :
  _complete ctx g [] (run evs (init port)) = Returned tt (run evs (init port)).
Proof.
  rewrite _complete_run, last_matches_stay_empty. reflexivity.
Qed.

(** C2. The code at the failing input: the list sent last is ["foo"];
    two merges in a row come out empty (each logs its empty result), and
    neither is sent: the editor still has the one call that showed
    ["foo"]. [_complete] compares with [self._last_matches], which no
    method assigns. *)
Theorem empty_merges_after_popup_send_nothing :
  completions_sent popup_shown = [(1, ["foo"])]
  /\ log withdrawn
     = (log popup_shown ++ [Info_refresh_completions [] 3 []])%list
  /\ completions_sent withdrawn = [(1, ["foo"])]
  /\ log withdrawn_again
     = (log withdrawn ++ [Info_refresh_completions [] 3 []])%list
  /\ completions_sent withdrawn_again = [(1, ["foo"])]
  /\ _last_matches popup_shown = [].
Proof. repeat split; reflexivity. Qed.

(* ================================================================== *)
(** ** The display annotation *)

(** C6, as stated, fails on an ['info'] that is present and empty: it is
    shorter than 70 characters and the source has an abbreviation, yet the
    menu is the abbreviation alone, not ["Tag :"]. *)
Lemma menu_of_empty_info :
  let it := Rec {| r_word := Some "foo"; r_menu := None; r_info := Some "";
                   r_extra := [] |} in
  Dict.get "tags" law_sources = Some (plain_source 10 (Some "Tag"))
  /\ menu_of it = None
  /\ info_of it = Some ""
  /\ PyStr.len "" < 70
  /\ process_matches law_sources "tags" popup_ctx 1 [it]
     = Ok [{| word := "foo"; menu := "Tag"; info := Some ""; extra := [] |}]
  /\ "Tag" <> "Tag" ++ " :" ++ "".
Proof. repeat split; try reflexivity. discriminate. Qed.

(** C6, amended. Every candidate returned by [process_matches] comes from
    a raw candidate of the list; when that one has no ['menu']: with an
    ['info'] that is non-empty and shorter than 70 characters the menu is
    the abbreviation, [" :"] and the info when the source has a non-empty
    abbreviation, and the info alone otherwise; with no ['info'], or an
    empty one, the menu is the source's abbreviation (the empty string
    when it has none). *)
Theorem menu_is_derived_when_absent (sources : dict source_info)
    (name : string) (src : source_info) (ctx : context) (startcol : Z)
    (matches : list item) (res : list candidate) (c : candidate) :
  Dict.get name sources = Some src ->
  process_matches sources name ctx startcol matches = Ok res ->
  In c res ->
  exists it,
    In it matches /\ word_of it = Some (word c) /\ info_of it = info c
    /\ (menu_of it = None ->
        match info_of it with
        | Some i =>
            if truthy i then
              PyStr.len i < 70 ->
              menu c = if truthy (get_abbreviation src)
                       then get_abbreviation src ++ " :" ++ i
                       else i
            else menu c = get_abbreviation src
        | None => menu c = get_abbreviation src
        end).
Proof.
  intros G P I.
  destruct (process_matches_in _ _ _ _ _ _ _ P I)
    as (_ & it & e & Hi & N & W & Mn & Inf).
  destruct (normalize_fields _ _ _ _ N) as (Hw & Hinf & Hm).
  exists it. split; auto. split; [congruence|]. split; [congruence|].
  intros Hnone. rewrite Hnone in Hm. destruct Hm as (m & D & Hm).
  assert (Em : menu c = m) by congruence.
  rewrite Em. clear - G D.
  unfold derive_menu, source_of in D. rewrite G in D; simpl in D.
  destruct (info_of it) as [i|]; [|now inversion D].
  destruct (truthy i) eqn:T; simpl in D.
  - intros L. apply Z.ltb_lt in L. rewrite L in D; simpl in D.
    unfold get_abbreviation in *.
    destruct (s_abbreviation src) as [a|]; simpl in D.
    + destruct (truthy a); now inversion D.
    + now inversion D.
  - now inversion D.
Qed.

Lemma menu_is_derived_when_absent_witness :
  exists it,
    In it [Rec {| r_word := Some "foo"; r_menu := None;
                  r_info := Some "a function"; r_extra := [] |}]
    /\ word_of it = Some "foo" /\ info_of it = Some "a function"
    /\ (menu_of it = None ->
        match info_of it with
        | Some i =>
            if truthy i then
              PyStr.len i < 70 ->
              "Tag :a function"
              = if truthy (get_abbreviation (plain_source 10 (Some "Tag")))
                then get_abbreviation (plain_source 10 (Some "Tag"))
                     ++ " :" ++ i
                else i
            else "Tag :a function"
                 = get_abbreviation (plain_source 10 (Some "Tag"))
        | None => "Tag :a function"
                  = get_abbreviation (plain_source 10 (Some "Tag"))
        end).
Proof.
  exact (menu_is_derived_when_absent law_sources "tags"
           (plain_source 10 (Some "Tag")) popup_ctx 1
           [Rec {| r_word := Some "foo"; r_menu := None;
                   r_info := Some "a function"; r_extra := [] |}]
           [{| word := "foo"; menu := "Tag :a function";
               info := Some "a function"; extra := [] |}]
           {| word := "foo"; menu := "Tag :a function";
              info := Some "a function"; extra := [] |}
           eq_refl eq_refl (or_introl eq_refl)).
Defined.

(* ================================================================== *)
(** ** The versioned content cache *)

Lemma curpos_eqb_refl (p : list Z) : FS.curpos_eqb p p = true.
Proof. induction p as [|x r IH]; simpl; auto. now rewrite Z.eqb_refl. Qed.

Lemma curpos_eqb_sym (p q : list Z) : FS.curpos_eqb p q = FS.curpos_eqb q p.
Proof.
  revert q; induction p as [|x r IH]; intros [|y q]; simpl; auto.
  now rewrite IH, Z.eqb_sym.
Qed.

Lemma context_same (v : version) :
  FS._context_changed (Some v) (Some v) = false.
Proof.
  unfold FS._context_changed. now rewrite Z.eqb_refl, curpos_eqb_refl.
Qed.

Lemma context_changed_sym (v w : version) :
  FS._context_changed (Some v) (Some w) = FS._context_changed (Some w) (Some v).
Proof.
  unfold FS._context_changed. now rewrite Z.eqb_sym, curpos_eqb_sym.
Qed.

Lemma context_changed_none_l (c : option version) :
  FS._context_changed None c = true.
Proof. reflexivity. Qed.

Lemma context_changed_none_r (c : option version) :
  FS._context_changed c None = true.
Proof. now destruct c. Qed.

(** C4. When the version asked for is not the last one known and, after
    asking the editor, still is not the live one, [get_src] returns
    [None]; it only records the live version. *)
Theorem stale_request_returns_none (nvim : editor) (fs : FileServer)
    (requested : version) :
  FS._context_changed (_current_context fs) (Some requested) = true ->
  FS._context_changed (Some (cm_context nvim)) (Some requested) = true ->
  FS.get_src nvim fs requested
  = (None, FS.set_current (Some (cm_context nvim)) fs).
Proof.
  intros H1 H2. unfold FS.get_src. rewrite H1. simpl. now rewrite H2.
Qed.

Lemma stale_request_returns_none_witness :
  FS.get_src editor_at_2 cache_at_1 version0
  = (None, FS.set_current (Some (cm_context editor_at_2)) cache_at_1).
Proof.
  exact (stale_request_returns_none editor_at_2 cache_at_1 version0
           eq_refl eq_refl).
Defined.

(** C3, as stated, fails at its first step: with the cache built at
    [version1] and holding ["abc"], and the editor still at [version1], a
    request for [version2] returns [None], not ["abc"]. *)
Lemma request_ahead_of_editor :
  _cache_context cache_at_1 = Some version1
  /\ _cache_src cache_at_1 = "abc"
  /\ cm_context editor_at_1 = version1
  /\ fst (FS.get_src editor_at_1 cache_at_1 version2) = None
  /\ fst (FS.get_src editor_at_1 cache_at_1 version2) <> Some "abc".
Proof. repeat split; try reflexivity. discriminate. Qed.

(** C3, amended. With the cache built at [V1] and holding ["abc"]: a
    request for another version [V2] while the editor is still at [V1]
    returns [None] and leaves the cache; once the editor is at [V2] with
    the document ["abcd"], a request for [V2] rebuilds the cache and
    returns ["abcd"]. *)
Theorem scenario_b (V1 V2 : version) (port : Z) (before after : editor) :
  FS._context_changed (Some V1) (Some V2) = true ->
  cm_context before = V1 -> buffer before = ["abc"] ->
  cm_context after = V2 -> buffer after = ["abcd"] ->
  let built := FS.get_src before (FS.init port) V1 in
  let first := FS.get_src before (snd built) V2 in
  let second := FS.get_src after (snd first) V2 in
  fst built = Some "abc"
  /\ _cache_context (snd built) = Some V1
  /\ fst first = None
  /\ _cache_context (snd first) = Some V1
  /\ _cache_src (snd first) = "abc"
  /\ fst second = Some "abcd"
  /\ _cache_context (snd second) = Some V2
  /\ _cache_src (snd second) = "abcd".
Proof.
  intros D B1 C1 B2 C2.
  destruct before as [cb bb]; destruct after as [ca ba]; simpl in *; subst.
  set (at1 := {| _current_context := Some V1; _cache_context := Some V1;
                 _cache_src := "abc"; server_port := port |}).
  assert (E0 : FS.get_src {| cm_context := V1; buffer := ["abc"] |}
                 (FS.init port) V1 = (Some "abc", at1)).
  { unfold FS.get_src, FS.init; simpl.
    rewrite ?context_changed_none_l; simpl. rewrite context_same; simpl.
    now rewrite ?context_changed_none_r. }
  assert (E1 : FS.get_src {| cm_context := V1; buffer := ["abc"] |} at1 V2
               = (None, at1)).
  { unfold FS.get_src, at1; simpl. rewrite D; simpl. now rewrite D. }
  assert (E2 : FS.get_src {| cm_context := V2; buffer := ["abcd"] |} at1 V2
               = (Some "abcd",
                  {| _current_context := Some V2; _cache_context := Some V2;
                     _cache_src := "abcd"; server_port := port |})).
  { unfold FS.get_src, at1; simpl. rewrite D; simpl.
    rewrite context_same; simpl.
    now rewrite context_changed_sym, D. }
  rewrite E0; simpl. rewrite E1; simpl. rewrite E2; simpl.
  repeat split; reflexivity.
Qed.

Lemma scenario_b_witness :
  let built := FS.get_src editor_at_1 (FS.init 8000) version1 in
  let first := FS.get_src editor_at_1 (snd built) version2 in
  let second := FS.get_src editor_at_2 (snd first) version2 in
  fst built = Some "abc"
  /\ _cache_context (snd built) = Some version1
  /\ fst first = None
  /\ _cache_context (snd first) = Some version1
  /\ _cache_src (snd first) = "abc"
  /\ fst second = Some "abcd"
  /\ _cache_context (snd second) = Some version2
  /\ _cache_src (snd second) = "abcd".
Proof.
  exact (scenario_b version1 version2 8000 editor_at_1 editor_at_2
           eq_refl eq_refl eq_refl eq_refl eq_refl).
Defined.

(* ================================================================== *)
(** ** Order of a stable sort *)

Section SortOrder.
Variable A : Type.
Variable before : A -> A -> bool.
Hypothesis before_total : forall x y, before x y = false -> before y x = true.

Lemma insert_sorted (x : A) (l : list A) :
  Sorted (fun a b => before a b = true) l ->
  Sorted (fun a b => before a b = true) (insert before x l).
Proof.
  induction l as [|y r IH]; simpl; intros S.
  - repeat constructor.
  - destruct (before x y) eqn:E.
    + constructor; auto.
    + inversion S as [|? ? Sr Hd]; subst. constructor; auto.
      destruct r as [|z r']; simpl.
      * constructor. now apply before_total.
      * destruct (before x z); constructor.
        -- now apply before_total.
        -- now inversion Hd.
Qed.

Lemma stable_sort_sorted (l : list A) :
  Sorted (fun a b => before a b = true) (stable_sort before l).
Proof.
  induction l as [|x r IH]; simpl; [constructor|].
  now apply insert_sorted.
Qed.

(** A class of elements that the order does not separate keeps its
    order. *)
Variable same : A -> bool.
Hypothesis same_before :
  forall x y, same x = true -> same y = true -> before x y = true.

Lemma filter_insert (x : A) (l : list A) :
  filter same (insert before x l) = filter same (x :: l).
Proof.
  induction l as [|y r IH]; simpl; auto.
  destruct (before x y) eqn:E; simpl; auto.
  rewrite IH; simpl.
  destruct (same x) eqn:Sx; destruct (same y) eqn:Sy; auto.
  rewrite (same_before x y Sx Sy) in E. discriminate.
Qed.

Lemma filter_stable_sort (l : list A) :
  filter same (stable_sort before l) = filter same l.
Proof.
  induction l as [|x r IH]; simpl; auto.
  rewrite filter_insert; simpl. now rewrite IH.
Qed.
End SortOrder.

(* ================================================================== *)
(** ** More on [process_matches] *)

Lemma derive_menu_raises (sources : dict source_info) (name : string)
    (i : option string) :
  Dict.get name sources = None ->
  derive_menu sources name i = Raise (KeyError name).
Proof.
  intros G. unfold derive_menu, source_of. rewrite G; simpl.
  destruct i as [i|]; auto. now destruct (truthy i && _).
Qed.

(** What the loop of [process_matches] keeps, word by word: the words of
    the raw candidates that pass the prefix test, in their order. *)
Lemma filter_matches_words (sources : dict source_info) (name base : string)
    (matches : list item) (kept : list candidate) :
  filter_matches sources name base matches = Ok kept ->
  map word kept = filter (matches_base base) (raw_words matches).
Proof.
  revert kept; induction matches as [|it rest IH]; simpl; intros kept H.
  - now inversion H.
  - destruct (normalize sources name it) as [e|ex] eqn:N; simpl in H;
      [|discriminate].
    destruct (normalize_fields _ _ _ _ N) as (W & _ & _).
    destruct (r_word e) as [w|] eqn:Ew; [|discriminate].
    destruct (filter_matches sources name base rest) as [res|ex] eqn:F;
      simpl in H; [|discriminate].
    rewrite <- W; simpl. specialize (IH res eq_refl).
    destruct (matches_base base w); inversion H; subst; simpl;
      now rewrite IH.
Qed.

(** X1. What [process_matches] returns is what its loop kept, put in
    order of word length: every candidate's word is no longer than the
    word of any candidate after it; the words kept are those of the raw
    candidates that pass the prefix test. *)
Theorem process_matches_sorted (sources : dict source_info) (name : string)
    (ctx : context) (startcol : Z) (matches : list item)
    (res : list candidate) :
  process_matches sources name ctx startcol matches = Ok res ->
  StronglySorted no_longer res
  /\ Permutation (map word res)
       (filter (matches_base (PyStr.slice (typed ctx) (startcol - 1) None))
               (raw_words matches)).
Proof.
  unfold process_matches. intros H.
  destruct (filter_matches _ _ _ _) as [kept|ex] eqn:F; simpl in H;
    [|discriminate].
  inversion H; subst res; clear H. split.
  - apply Sorted_StronglySorted.
    + intros x y z. unfold no_longer. lia.
    + assert (S := stable_sort_sorted candidate shorter_first).
      assert (T : forall x y, shorter_first x y = false ->
                              shorter_first y x = true).
      { intros x y. unfold shorter_first. intros E.
        apply Nat.leb_gt in E. apply Nat.leb_le. lia. }
      specialize (S T kept).
      eapply Sorted_ind with (P := fun l => Sorted no_longer l);
        [constructor| |exact S].
      intros a l _ IH Hd. constructor; auto.
      destruct Hd as [|b l' Hb]; constructor.
      unfold shorter_first in Hb. apply Nat.leb_le in Hb. exact Hb.
  - rewrite <- (filter_matches_words _ _ _ _ _ F).
    apply Permutation_map, stable_sort_perm.
Qed.

Lemma process_matches_sorted_witness :
  StronglySorted no_longer
    [{| word := "foo"; menu := "Tag"; info := None; extra := [] |};
     {| word := "Fooo"; menu := "Tag"; info := None; extra := [] |};
     {| word := "foobar"; menu := "Tag"; info := None; extra := [] |}]
  /\ Permutation ["foo"; "Fooo"; "foobar"]
       (filter (matches_base (PyStr.slice "fo" (1 - 1) None))
               (raw_words [Str "foobar"; Str "bar"; Str "foo"; Str "Fooo"])).
Proof.
  exact (process_matches_sorted law_sources "tags" popup_ctx 1
           [Str "foobar"; Str "bar"; Str "foo"; Str "Fooo"] _ eq_refl).
Defined.

(** X2. The sort of [process_matches] is stable: among the candidates
    whose words have one length, the order returned is the order in which
    the loop kept them, which is the order of the raw candidates. *)
Theorem process_matches_stable (sources : dict source_info) (name : string)
    (ctx : context) (startcol : Z) (matches : list item)
    (res : list candidate) :
  process_matches sources name ctx startcol matches = Ok res ->
  exists kept,
    filter_matches sources name
      (PyStr.slice (typed ctx) (startcol - 1) None) matches = Ok kept
    /\ map word kept
       = filter (matches_base (PyStr.slice (typed ctx) (startcol - 1) None))
                (raw_words matches)
    /\ forall k, filter (word_length_is k) res = filter (word_length_is k) kept.
Proof.
  unfold process_matches. intros H.
  destruct (filter_matches _ _ _ _) as [kept|ex] eqn:F; simpl in H;
    [|discriminate].
  inversion H; subst res; clear H. exists kept. split; auto.
  split; [now apply filter_matches_words with (sources := sources)
                                              (name := name)|].
  intros k. apply filter_stable_sort.
  intros x y Hx Hy. unfold word_length_is, shorter_first in *.
  apply Nat.eqb_eq in Hx, Hy. apply Nat.leb_le. lia.
Qed.

Lemma process_matches_stable_witness :
  exists kept,
    filter_matches law_sources "tags" (PyStr.slice "fo" (1 - 1) None)
      [Str "fob"; Str "foobar"; Str "foa"; Str "bar"] = Ok kept
    /\ map word kept
       = filter (matches_base (PyStr.slice "fo" (1 - 1) None))
                (raw_words [Str "fob"; Str "foobar"; Str "foa"; Str "bar"])
    /\ forall k,
         filter (word_length_is k)
           [{| word := "fob"; menu := "Tag"; info := None; extra := [] |};
            {| word := "foa"; menu := "Tag"; info := None; extra := [] |};
            {| word := "foobar"; menu := "Tag"; info := None; extra := [] |}]
         = filter (word_length_is k) kept.
Proof.
  exact (process_matches_stable law_sources "tags" popup_ctx 1
           [Str "fob"; Str "foobar"; Str "foa"; Str "bar"] _ eq_refl).
Defined.


Lemma normalize_ok_iff (sources : dict source_info) (name : string)
    (it : item) :
  (exists e, normalize sources name it = Ok e)
  <-> (Dict.get name sources <> None \/ has_menu it).
Proof.
  unfold normalize, has_menu. split.
  - intros [e H]. destruct (Dict.get name sources) eqn:G;
      [left; discriminate|right].
    destruct it as [s|d]; simpl in *.
    + now rewrite (derive_menu_raises _ _ None G) in H.
    + destruct (r_menu d); [discriminate|].
      now rewrite (derive_menu_raises _ _ (r_info d) G) in H.
  - intros [G|Hm].
    + destruct (Dict.get name sources) as [src|] eqn:Gs; [|congruence].
      destruct it as [s|d]; simpl.
      * destruct (derive_menu_total sources name src None Gs) as [m ->];
          simpl; eauto.
      * destruct (r_menu d); eauto.
        destruct (derive_menu_total sources name src (r_info d) Gs)
          as [m ->]; simpl; eauto.
    + destruct it as [s|d]; simpl in *; [congruence|].
      destruct (r_menu d); [eauto | congruence].
Qed.

(** X3. [process_matches] returns exactly when every raw candidate has its
    ['word'] and, unless every raw candidate brings its own ['menu'], the
    source is in the table; otherwise it raises, also for a candidate that
    the prefix test would drop. *)
Theorem process_matches_returns_iff (sources : dict source_info)
    (name : string) (ctx : context) (startcol : Z) (matches : list item) :
  (exists res, process_matches sources name ctx startcol matches = Ok res)
  <-> (Forall has_word matches
       /\ (Dict.get name sources <> None \/ Forall has_menu matches)).
Proof.
  unfold process_matches.
  set (base := PyStr.slice (typed ctx) (startcol - 1) None).
  assert (K : (exists kept, filter_matches sources name base matches = Ok kept)
              <-> Forall (fun it => has_word it
                            /\ (Dict.get name sources <> None \/ has_menu it))
                         matches).
  { induction matches as [|it rest IH]; simpl.
    - split; eauto.
    - split.
      + intros [kept H].
        destruct (normalize sources name it) as [e|ex] eqn:N; simpl in H;
          [|discriminate].
        destruct (normalize_fields _ _ _ _ N) as (W & _ & _).
        destruct (r_word e) as [w|] eqn:Ew; [|discriminate].
        destruct (filter_matches sources name base rest) as [res|ex] eqn:F;
          simpl in H; [|discriminate].
        constructor; [|apply IH; eauto]. split.
        * destruct it as [s|d]; simpl in *; [exact I | congruence].
        * apply normalize_ok_iff; eauto.
      + intros F. inversion F as [|? ? [Hw Hs] Fr]; subst.
        destruct (proj2 (normalize_ok_iff sources name it) Hs) as [e N].
        rewrite N; simpl.
        destruct (normalize_fields _ _ _ _ N) as (W & _ & _). rewrite W.
        destruct (proj2 IH Fr) as [res ->]; simpl.
        destruct it as [s|d]; simpl in *.
        * destruct (matches_base base s); eauto.
        * destruct (r_word d) as [w|]; [|congruence].
          destruct (matches_base base w); eauto. }
  split.
  - intros [res H].
    destruct (filter_matches sources name base matches) as [kept|ex] eqn:F;
      simpl in H; [|discriminate].
    assert (Fa := proj1 K (ex_intro _ kept eq_refl)).
    rewrite Forall_forall in Fa. split.
    + apply Forall_forall. intros it I. now apply Fa.
    + destruct (Dict.get name sources); [left; discriminate|right].
      apply Forall_forall. intros it I.
      destruct (Fa it I) as [_ [C|C]]; [congruence | exact C].
  - intros [Hw Hs].
    destruct (proj2 K) as [kept ->]; simpl; eauto.
    rewrite Forall_forall in *. intros it I. split; auto.
    destruct Hs as [G|Hm]; [now left | right]. auto.
Qed.

Lemma filter_matches_fields (sources : dict source_info) (name base : string)
    (matches : list item) (kept : list candidate) (c : candidate) :
  filter_matches sources name base matches = Ok kept -> In c kept ->
  exists it, In it matches
    /\ word_of it = Some (word c) /\ info_of it = info c
    /\ extra_of it = extra c
    /\ (forall m, menu_of it = Some m -> menu c = m).
Proof.
  revert kept; induction matches as [|it rest IH]; simpl; intros kept H I.
  - inversion H; subst; contradiction.
  - destruct (normalize sources name it) as [e|ex] eqn:N; simpl in H;
      [|discriminate].
    destruct (r_word e) as [w|] eqn:W; [|discriminate].
    destruct (filter_matches sources name base rest) as [res|ex] eqn:F;
      simpl in H; [|discriminate].
    assert (K : In c res -> exists it0, In it0 (it :: rest)
                  /\ word_of it0 = Some (word c) /\ info_of it0 = info c
                  /\ extra_of it0 = extra c
                  /\ (forall m, menu_of it0 = Some m -> menu c = m)).
    { intros I'. destruct (IH res eq_refl I') as (it0 & Hi & Hr).
      exists it0. simpl; tauto. }
    destruct (matches_base base w) eqn:B; inversion H; subst kept; auto.
    destruct I as [Hc|I]; auto. subst c; simpl.
    exists it. split; [now left|].
    destruct (normalize_fields _ _ _ _ N) as (Hw & Hi & Hm).
    assert (He : r_extra e = extra_of it).
    { unfold normalize in N. destruct it as [s|d]; simpl in *.
      - destruct (derive_menu sources name None); simpl in N;
          inversion N; auto.
      - destruct (r_menu d).
        + inversion N; auto.
        + destruct (derive_menu sources name (r_info d)); simpl in N;
            inversion N; auto. }
    repeat split; try congruence.
    intros m Em. rewrite Em in Hm. now rewrite Hm.
Qed.

(** X4. [process_matches] works on copies and only adds a menu: every
    candidate it returns has the word, the info and the other keys of a
    raw candidate of the list, and the menu of that one when it had a
    menu. *)
Theorem process_matches_keeps_fields (sources : dict source_info)
    (name : string) (ctx : context) (startcol : Z) (matches : list item)
    (res : list candidate) (c : candidate) :
  process_matches sources name ctx startcol matches = Ok res -> In c res ->
  exists it, In it matches
    /\ word_of it = Some (word c) /\ info_of it = info c
    /\ extra_of it = extra c
    /\ (forall m, menu_of it = Some m -> menu c = m).
Proof.
  unfold process_matches. intros H I.
  destruct (filter_matches _ _ _ _) as [kept|ex] eqn:F; simpl in H;
    [|discriminate].
  inversion H; subst res. apply stable_sort_in in I.
  eapply filter_matches_fields; eauto.
Qed.

Lemma process_matches_keeps_fields_witness :
  exists it,
    In it [Rec {| r_word := Some "foo"; r_menu := Some "mine";
                  r_info := Some "doc"; r_extra := [("kind", "f")] |}]
    /\ word_of it = Some "foo" /\ info_of it = Some "doc"
    /\ extra_of it = [("kind", "f")]
    /\ (forall m, menu_of it = Some m -> "mine" = m).
Proof.
  exact (process_matches_keeps_fields law_sources "tags" popup_ctx 1
           [Rec {| r_word := Some "foo"; r_menu := Some "mine";
                   r_info := Some "doc"; r_extra := [("kind", "f")] |}]
           _ {| word := "foo"; menu := "mine"; info := Some "doc";
                extra := [("kind", "f")] |}
           eq_refl (or_introl eq_refl)).
Defined.

Lemma length_lower (s : string) :
  String.length (PyStr.lower s) = String.length s.
Proof. induction s as [|c r IH]; simpl; auto. Qed.

Lemma lower_take (n : nat) (s : string) :
  PyStr.lower (PyStr.take n s) = PyStr.take n (PyStr.lower s).
Proof.
  revert s; induction n as [|n IH]; intros [|c r]; simpl; auto.
  now rewrite IH.
Qed.

Lemma lower_drop (n : nat) (s : string) :
  PyStr.lower (PyStr.drop n s) = PyStr.drop n (PyStr.lower s).
Proof.
  revert s; induction n as [|n IH]; intros [|c r]; simpl; auto.
Qed.

Lemma lower_slice (s : string) (a : Z) (b : option Z) :
  PyStr.lower (PyStr.slice s a b) = PyStr.slice (PyStr.lower s) a b.
Proof.
  unfold PyStr.slice, PyStr.len.
  now rewrite lower_take, lower_drop, length_lower.
Qed.

Lemma filter_matches_base_ext (sources : dict source_info) (name : string)
    (base base' : string) (matches : list item) :
  (forall w, matches_base base' w = matches_base base w) ->
  filter_matches sources name base' matches
  = filter_matches sources name base matches.
Proof.
  intros E. induction matches as [|it rest IH]; simpl; auto.
  destruct (normalize sources name it); simpl; auto.
  destruct (r_word a); auto. now rewrite IH, E.
Qed.

(** X5. The prefix test ignores the case of what was typed: two contexts
    whose typed texts are ASCII and equal up to case give the same
    processed list. *)
Theorem process_matches_ignores_case (sources : dict source_info)
    (name : string) (ctx ctx' : context) (startcol : Z)
    (matches : list item) :
  PyStr.is_ascii (typed ctx) = true ->
  PyStr.is_ascii (typed ctx') = true ->
  PyStr.lower (typed ctx') = PyStr.lower (typed ctx) ->
  process_matches sources name ctx' startcol matches
  = process_matches sources name ctx startcol matches.
Proof.
  intros _ _ E. unfold process_matches.
  rewrite (filter_matches_base_ext sources name
             (PyStr.slice (typed ctx) (startcol - 1) None)
             (PyStr.slice (typed ctx') (startcol - 1) None)); auto.
  intros w. unfold matches_base.
  assert (L : PyStr.lower (PyStr.slice (typed ctx') (startcol - 1) None)
              = PyStr.lower (PyStr.slice (typed ctx) (startcol - 1) None))
    by (now rewrite !lower_slice, E).
  assert (N : PyStr.len (PyStr.slice (typed ctx') (startcol - 1) None)
              = PyStr.len (PyStr.slice (typed ctx) (startcol - 1) None)).
  { unfold PyStr.len. f_equal.
    rewrite <- (length_lower (PyStr.slice (typed ctx') _ _)), L.
    apply length_lower. }
  now rewrite L, N.
Qed.

Lemma process_matches_ignores_case_witness :
  PyStr.lower (typed case_ctx) = PyStr.lower (typed popup_ctx)
  /\ typed case_ctx <> typed popup_ctx
  /\ process_matches law_sources "tags" case_ctx 1 [Str "foo"; Str "FOX"]
     = process_matches law_sources "tags" popup_ctx 1 [Str "foo"; Str "FOX"].
Proof.
  split; [reflexivity|]. split; [discriminate|].
  exact (process_matches_ignores_case law_sources "tags" popup_ctx case_ctx 1
           [Str "foo"; Str "FOX"] eq_refl eq_refl eq_refl).
Defined.


(* ================================================================== *)
(** ** More on the content cache *)

Lemma curpos_eqb_eq (p q : list Z) : FS.curpos_eqb p q = true <-> p = q.
Proof.
  revert q; induction p as [|x r IH]; intros [|y q]; simpl;
    try (split; [discriminate | discriminate]); [tauto|].
  rewrite andb_true_iff, Z.eqb_eq, IH. split.
  - intros [-> ->]; reflexivity.
  - intros H; inversion H; auto.
Qed.

Lemma same_version_iff (a b : version) :
  FS._context_changed (Some a) (Some b) = false <-> a = b.
Proof.
  unfold FS._context_changed. destruct a as [ta pa], b as [tb pb]; simpl.
  rewrite orb_false_iff, !negb_false_iff, Z.eqb_eq, curpos_eqb_eq.
  split.
  - intros [-> ->]; reflexivity.
  - intros H; inversion H; auto.
Qed.

Lemma context_unchanged_some (c : option version) (v : version) :
  FS._context_changed c (Some v) = false -> c = Some v.
Proof.
  destruct c as [w|]; [|discriminate].
  intros H. f_equal. now apply same_version_iff.
Qed.

(** The server after [get_src] has served. *)
Lemma get_src_some_state (nvim : editor) (fs fs' : FileServer)
    (requested : version) (src : string) :
  FS.get_src nvim fs requested = (Some src, fs') ->
  _current_context fs' = Some requested
  /\ _cache_context fs' = Some requested
  /\ _cache_src fs' = src.
Proof.
  unfold FS.get_src.
  set (fs1 := if FS._context_changed (_current_context fs) (Some requested)
              then FS.set_current (Some (cm_context nvim)) fs else fs).
  destruct (FS._context_changed (_current_context fs1) (Some requested))
    eqn:C; [discriminate|].
  apply context_unchanged_some in C.
  destruct (FS._context_changed (_current_context fs1) (_cache_context fs1))
    eqn:D; intros H; inversion H; subst; simpl.
  - rewrite C. auto.
  - rewrite C in D. rewrite C.
    destruct (_cache_context fs1) as [w|] eqn:E;
      [|rewrite context_changed_none_r in D; discriminate].
    apply same_version_iff in D. subst w. auto.
Qed.

(** X7. What [get_src] serves, when it serves: the server ends with both
    its current context and its cache at the version asked for, the text
    returned is the cached one, and that text is either the buffer as read
    during this call or the text already cached for this very version. *)
Theorem get_src_serves_requested_version (nvim : editor) (fs fs' : FileServer)
    (requested : version) (src : string) :
  FS.get_src nvim fs requested = (Some src, fs') ->
  _current_context fs' = Some requested
  /\ _cache_context fs' = Some requested
  /\ _cache_src fs' = src
  /\ (src = PyStr.join PyStr.newline (buffer nvim)
      \/ (_cache_context fs = Some requested /\ src = _cache_src fs)).
Proof.
  intros H.
  destruct (get_src_some_state _ _ _ _ _ H) as (Hc & Hk & Hs).
  repeat split; auto.
  revert H. unfold FS.get_src.
  set (fs1 := if FS._context_changed (_current_context fs) (Some requested)
              then FS.set_current (Some (cm_context nvim)) fs else fs).
  assert (K : _cache_context fs1 = _cache_context fs
              /\ _cache_src fs1 = _cache_src fs).
  { unfold fs1. destruct (FS._context_changed _ _); auto. }
  destruct K as [Kc Ks].
  destruct (FS._context_changed (_current_context fs1) (Some requested));
    [discriminate|].
  destruct (FS._context_changed (_current_context fs1) (_cache_context fs1));
    intros H; inversion H; subst; simpl in *; auto.
  right. split; congruence.
Qed.

Lemma get_src_serves_requested_version_witness :
  _current_context (snd (FS.get_src editor_at_2 cache_at_1 version2))
  = Some version2
  /\ _cache_context (snd (FS.get_src editor_at_2 cache_at_1 version2))
     = Some version2
  /\ _cache_src (snd (FS.get_src editor_at_2 cache_at_1 version2)) = "abcd"
  /\ ("abcd" = PyStr.join PyStr.newline (buffer editor_at_2)
      \/ (_cache_context cache_at_1 = Some version2
          /\ "abcd" = _cache_src cache_at_1)).
Proof.
  exact (get_src_serves_requested_version editor_at_2 cache_at_1 _ version2
           "abcd" eq_refl).
Defined.

(** X8. A version that was served is served again with the same text, and
    the server is left as it was, whatever the editor holds by then: the
    editor is asked neither for its context nor for its buffer. *)
Theorem get_src_is_stable (nvim nvim' : editor) (fs fs' : FileServer)
    (requested : version) (src : string) :
  FS.get_src nvim fs requested = (Some src, fs') ->
  FS.get_src nvim' fs' requested = (Some src, fs').
Proof.
  intros H.
  destruct (get_src_some_state _ _ _ _ _ H) as (Hc & Hk & Hs).
  unfold FS.get_src. rewrite Hc, context_same; simpl.
  rewrite Hc, context_same, Hk, context_same. now rewrite Hs.
Qed.

Lemma get_src_is_stable_witness :
  FS.get_src editor_at_2 cache_at_1 version1 = (Some "abc", cache_at_1).
Proof.
  exact (get_src_is_stable editor_at_1 editor_at_2 (FS.init 8000) cache_at_1
           version1 "abc" eq_refl).
Defined.

(** X9. When [get_src] answers [None] it has asked the editor for its
    context, keeps that as its current context, and leaves the cache, its
    version and its text, untouched. *)
Theorem get_src_none_keeps_cache (nvim : editor) (fs fs' : FileServer)
    (requested : version) :
  FS.get_src nvim fs requested = (None, fs') ->
  fs' = FS.set_current (Some (cm_context nvim)) fs
  /\ FS._context_changed (_current_context fs) (Some requested) = true
  /\ FS._context_changed (Some (cm_context nvim)) (Some requested) = true
  /\ _cache_context fs' = _cache_context fs
  /\ _cache_src fs' = _cache_src fs.
Proof.
  unfold FS.get_src.
  destruct (FS._context_changed (_current_context fs) (Some requested))
    eqn:C.
  - simpl.
    destruct (FS._context_changed (Some (cm_context nvim)) (Some requested))
      eqn:D.
    + intros H; inversion H; subst; auto.
    + now destruct (FS._context_changed _ _).
  - rewrite C. now destruct (FS._context_changed _ _).
Qed.

Lemma get_src_none_keeps_cache_witness :
  snd (FS.get_src editor_at_1 cache_at_1 version2)
  = FS.set_current (Some (cm_context editor_at_1)) cache_at_1
  /\ FS._context_changed (_current_context cache_at_1) (Some version2) = true
  /\ FS._context_changed (Some (cm_context editor_at_1)) (Some version2)
     = true
  /\ _cache_context (snd (FS.get_src editor_at_1 cache_at_1 version2))
     = _cache_context cache_at_1
  /\ _cache_src (snd (FS.get_src editor_at_1 cache_at_1 version2))
     = _cache_src cache_at_1.
Proof.
  exact (get_src_none_keeps_cache editor_at_1 cache_at_1 _ version2 eq_refl).
Defined.

(** X10. Once [set_current_context] has recorded a context, a request for
    the version of that context is always served, without the editor being
    asked for its context: from the cache when it was built for that
    version, and otherwise from the buffer as it is at the time of the
    request. *)
Theorem current_context_is_served (nvim : editor) (fs : FileServer)
    (ctx : context) :
  fst (FS.get_src nvim (FS.set_current_context ctx fs) (version_of ctx))
  = Some (if FS._context_changed (Some (version_of ctx)) (_cache_context fs)
          then PyStr.join PyStr.newline (buffer nvim)
          else _cache_src fs).
Proof.
  unfold FS.get_src, FS.set_current_context. simpl.
  rewrite context_same; simpl. rewrite context_same; simpl.
  now destruct (FS._context_changed (Some (version_of ctx)) (_cache_context fs)).
Qed.


(* ================================================================== *)
(** ** The merged list in closed form *)

Lemma contribution_reported (sources : dict source_info) (ctx : context)
    (g : Z) (m m' : dict entry) (name : string) :
  same_reports m m' ->
  contribution sources ctx g m' name = contribution sources ctx g m name.
Proof.
  intros R. unfold contribution. specialize (R name).
  destruct (Dict.get name m) as [e|], (Dict.get name m') as [e'|];
    simpl in R; try discriminate; auto.
  unfold reported in R. inversion R as [[H1 H2]]. now rewrite H1, H2.
Qed.

Lemma fold_step2_closed (sources : dict source_info) (ctx : context)
    (m : dict entry) (g : Z) (names : list string) :
  NoDup names ->
  forall (m' : dict entry) (acc : list candidate),
    same_reports m m' ->
    (forall n, In n names -> fresh sources ctx m' n) ->
    snd (fold_left (step2 ctx g) names (m', acc))
    = (acc ++ flat_map (contribution sources ctx g m) names)%list.
Proof.
  intros ND. induction ND as [|name rest Hni ND IH]; intros m' acc R F; simpl.
  - now rewrite app_nil_r.
  - assert (Frest : forall n, In n rest -> fresh sources ctx m' n)
      by (intros n I; apply F; now right).
    rewrite <- (contribution_reported sources ctx g m m' name R).
    unfold step2 at 2. unfold contribution at 1.
    destruct (Dict.get name m') as [e'|] eqn:G; [|now apply IH].
    destruct (col ctx <? e_startcol e') eqn:C; [now apply IH|].
    apply Z.ltb_ge in C.
    destruct (F name (or_introl eq_refl) e' G C) as (r & Hr & Hl).
    rewrite Hl, Hr. rewrite IH.
    + now rewrite <- app_assoc.
    + eapply same_reports_trans; [exact R | now apply set_last_reports].
    + intros n I e0 G0. rewrite DictFacts.get_set_ne in G0.
      * now apply (Frest n I).
      * intros ->. contradiction.
Qed.

Lemma store_with_words_processable (sources : dict source_info)
    (ctx : context) (m : dict entry) (names : list string) :
  sorted_names sources m = Ok names ->
  (forall name e, Dict.get name m = Some e -> Forall has_word (e_matches e)) ->
  processable sources ctx m.
Proof.
  intros S W n e G.
  destruct (sorted_names_perm _ _ _ S) as [_ Prio].
  destruct (Prio n) as [p Hp]; [apply DictFacts.in_keys_get; eauto|].
  destruct (priority_has_source _ _ _ Hp) as [src Hs].
  eapply process_matches_total; eauto.
Qed.

(** X11. In a store with distinct names whose raw candidates all have
    their word, the list that [_refresh_completions] passes to [_complete]
    is the concatenation, over the stored names in the order of the
    priority sort, of what each source adds: its processed candidates,
    each with the typed text between the merged start column and the
    source's own start column in front; nothing for a source whose start
    column is past the cursor. *)
Theorem merged_closed_form (ctx : context) (h h' : Handler) (startcol : Z)
    (matches : list candidate) :
  store_with_words (_matches h) ->
  merged ctx h = Returned (startcol, matches) h' ->
  exists names,
    sorted_names (_sources h) (_matches h) = Ok names
    /\ matches
       = flat_map (contribution (_sources h) ctx startcol (_matches h)) names.
Proof.
  intros [ND W] H.
  destruct (sorted_names (_sources h) (_matches h)) as [names|ex] eqn:S;
    [|rewrite (merged_raise ctx h ex S) in H; discriminate].
  exists names. split; auto.
  destruct (merged_run ctx h names S) as [L E]. rewrite E in H.
  cbv zeta in H. inversion H as [[Hg Hm Hh]]. clear H E Hh Hg Hm.
  destruct (sorted_names_perm _ _ _ S) as [Perm _].
  pose proof (store_with_words_processable _ ctx _ _ S W) as P.
  unfold loop1, loop2.
  destruct (fold_step1_keeps (_sources h) ctx names (_matches h) (col ctx))
    as [R1 _].
  set (st1 := fold_left (step1 (_sources h) ctx) names
                        (_matches h, col ctx)) in *.
  rewrite (fold_step2_closed (_sources h) ctx (_matches h) (snd st1) names);
    auto.
  - apply (Permutation_NoDup (Permutation_sym Perm)); exact ND.
  - intros n I. apply fold_step1_fresh; auto.
Qed.

Lemma law_store_with_words : store_with_words (_matches law_handler).
Proof.
  split.
  - vm_compute. constructor; [intros [E|[]]; discriminate E|].
    constructor; [intros []|constructor].
  - intros name e G.
    change (_matches law_handler)
      with [("words", {| e_startcol := 3;
                         e_matches := [Str "foo"; Str "bar"];
                         e_last_matches := None |});
            ("tags", {| e_startcol := 1; e_matches := [Str "a.foo"];
                        e_last_matches := None |})] in G.
    simpl in G.
    destruct (String.eqb name "words");
      [|destruct (String.eqb name "tags"); [|discriminate]];
      inversion G; subst e; simpl; repeat constructor.
Qed.

Lemma law_merged_run :
  merged law_ctx law_handler
  = Returned (fst (fst law_merged), snd (fst law_merged)) (snd law_merged).
Proof. vm_compute. reflexivity. Qed.

Lemma merged_closed_form_witness :
  exists names,
    sorted_names (_sources law_handler) (_matches law_handler) = Ok names
    /\ snd (fst law_merged)
       = flat_map (contribution (_sources law_handler) law_ctx
                                (fst (fst law_merged)) (_matches law_handler))
                  names.
Proof.
  exact (merged_closed_form law_ctx law_handler (snd law_merged)
           (fst (fst law_merged)) (snd (fst law_merged))
           law_store_with_words law_merged_run).
Defined.


Lemma step1_startcol_reported (sources : dict source_info) (ctx : context)
    (m m0 : dict entry) (g : Z) (name : string) :
  same_reports m m0 ->
  snd (step1 sources ctx (m0, g) name) = snd (step1 sources ctx (m, g) name).
Proof.
  intros R. rewrite !step1_startcol. specialize (R name).
  destruct (Dict.get name m) as [e|], (Dict.get name m0) as [e0|];
    simpl in R; try discriminate; auto.
  assert (Rep : reported e0 = reported e) by congruence.
  rewrite (qualifies_reported _ _ _ _ _ Rep).
  unfold reported in Rep. inversion Rep as [[H1 H2]]. now rewrite H1.
Qed.

Lemma fold_step1_startcol_reported (sources : dict source_info)
    (ctx : context) (names : list string) :
  forall (m m0 : dict entry) (g : Z),
    same_reports m m0 ->
    snd (fold_left (step1 sources ctx) names (m0, g))
    = snd (fold_left (step1 sources ctx) names (m, g)).
Proof.
  induction names as [|n rest IH]; intros m m0 g R; simpl; auto.
  rewrite (surjective_pairing (step1 sources ctx (m0, g) n)).
  rewrite (surjective_pairing (step1 sources ctx (m, g) n)).
  rewrite (step1_startcol_reported sources ctx m m0 g n R).
  apply IH.
  destruct (step1_keeps sources ctx m g n) as [R1 _].
  destruct (step1_keeps sources ctx m0 g n) as [R2 _].
  apply (same_reports_trans _ m _ (same_reports_sym _ _ R1)).
  exact (same_reports_trans _ m0 _ R R2).
Qed.

Lemma sorted_names_keys (sources : dict source_info) (m m' : dict entry) :
  Dict.keys m' = Dict.keys m ->
  sorted_names sources m' = sorted_names sources m.
Proof. intros K. unfold sorted_names. now rewrite K. Qed.

(** The merge of a store with words, with the store it leaves. *)
Lemma merged_result (ctx : context) (h : Handler) (names : list string) :
  store_with_words (_matches h) ->
  sorted_names (_sources h) (_matches h) = Ok names ->
  exists L m2,
    merged ctx h
    = Returned
        (snd (loop1 (_sources h) ctx names (_matches h)),
         flat_map (contribution (_sources h) ctx
                     (snd (loop1 (_sources h) ctx names (_matches h)))
                     (_matches h))
                  names)
        (with_log (log h ++ L) (set_matches m2 h))
    /\ same_reports (_matches h) m2
    /\ Dict.keys m2 = Dict.keys (_matches h).
Proof.
  intros [ND W] S.
  destruct (merged_run ctx h names S) as [L E].
  destruct (sorted_names_perm _ _ _ S) as [Perm _].
  pose proof (store_with_words_processable _ ctx _ _ S W) as P.
  destruct (fold_step1_keeps (_sources h) ctx names (_matches h) (col ctx))
    as [R1 K1].
  fold (loop1 (_sources h) ctx names (_matches h)) in R1, K1.
  set (st1 := loop1 (_sources h) ctx names (_matches h)) in *.
  destruct (fold_step2_keeps ctx (snd st1) names (fst st1) []) as [R2 K2].
  fold (loop2 ctx (snd st1) names (fst st1)) in R2, K2.
  exists L, (fst (loop2 ctx (snd st1) names (fst st1))).
  split; [|split; [eapply same_reports_trans; eauto | congruence]].
  rewrite E. cbv zeta. fold st1. f_equal. f_equal.
  unfold loop2.
  rewrite (fold_step2_closed (_sources h) ctx (_matches h) (snd st1) names);
    auto.
  - apply (Permutation_NoDup (Permutation_sym Perm)); exact ND.
  - intros n I. apply fold_step1_fresh; auto.
Qed.

(** X12. Merging is idempotent on a store with words: a second merge of
    the same context, run on the instance the first one left, passes the
    same start column and the same list to [_complete]. (The first merge
    leaves padded words under ['last_matches']; the second one processes
    the raw matches again.) *)
Theorem merge_is_idempotent (ctx : context) (h h' : Handler) (startcol : Z)
    (matches : list candidate) :
  store_with_words (_matches h) ->
  merged ctx h = Returned (startcol, matches) h' ->
  exists h'', merged ctx h' = Returned (startcol, matches) h''.
Proof.
  intros W H.
  destruct (sorted_names (_sources h) (_matches h)) as [names|ex] eqn:S;
    [|rewrite (merged_raise ctx h ex S) in H; discriminate].
  destruct (merged_result ctx h names W S) as (L & m2 & E & R & K).
  rewrite E in H. inversion H as [[Hg Hm Hh]]. clear H.
  set (h1 := with_log (log h ++ L) (set_matches m2 h)) in *.
  assert (W1 : store_with_words (_matches h1)).
  { destruct W as [ND Hw]. split; simpl; [now rewrite K|].
    intros name e' G.
    destruct (same_reports_get _ _ _ _ (same_reports_sym _ _ R) G)
      as (e & Ge & Rep).
    assert (Hem : e_matches e = e_matches e')
      by (unfold reported in Rep; congruence).
    rewrite <- Hem. eauto. }
  assert (S1 : sorted_names (_sources h1) (_matches h1) = Ok names).
  { simpl. now rewrite (sorted_names_keys _ _ _ K). }
  destruct (merged_result ctx h1 names W1 S1) as (L1 & m3 & E1 & _ & _).
  rewrite E1. eexists. f_equal.
  assert (G : snd (loop1 (_sources h1) ctx names (_matches h1))
              = snd (loop1 (_sources h) ctx names (_matches h))).
  { unfold loop1. simpl. now apply fold_step1_startcol_reported. }
  rewrite G. f_equal.
  apply flat_map_ext. intros n. simpl. now apply contribution_reported.
Qed.

Lemma merge_is_idempotent_witness :
  exists h'',
    merged law_ctx (snd law_merged)
    = Returned (fst (fst law_merged), snd (fst law_merged)) h''.
Proof.
  exact (merge_is_idempotent law_ctx law_handler (snd law_merged)
           (fst (fst law_merged)) (snd (fst law_merged))
           law_store_with_words law_merged_run).
Defined.


(* ================================================================== *)
(** ** The order of the priority sort *)

Lemma keyed_names (sources : dict source_info) (keys : list string)
    (ys : list (Z * string)) :
  rmap (fun x => rbind (priority_of sources x) (fun p => Ok (p, x))) keys
  = Ok ys ->
  map snd ys = keys
  /\ Forall (fun y => priority_of sources (snd y) = Ok (fst y)) ys.
Proof.
  intros E. apply rmap_ok_inv in E.
  induction E as [|x y l l' Hxy _ [IH1 IH2]]; simpl; [split; auto|].
  destruct (priority_of sources x) as [p|] eqn:P; simpl in Hxy;
    [|discriminate].
  inversion Hxy; subst y; simpl. split; [now rewrite IH1|].
  constructor; auto.
Qed.

Lemma filter_keyed (sources : dict source_info) (p : Z)
    (l : list (Z * string)) :
  Forall (fun y => priority_of sources (snd y) = Ok (fst y)) l ->
  map snd (filter (fun y => fst y =? p) l)
  = filter (priority_is sources p) (map snd l).
Proof.
  induction 1 as [|y l Hy _ IH]; simpl; auto.
  unfold priority_is at 1. rewrite Hy.
  destruct (fst y =? p); simpl; now rewrite IH.
Qed.

(** X13. The names that [_refresh_completions] goes over are the stored
    names in an order of non-increasing priority, and sources of one
    priority keep the order they have in the store (the order in which
    their entries were first stored). *)
Theorem sorted_names_order (sources : dict source_info) (m : dict entry)
    (names : list string) :
  sorted_names sources m = Ok names ->
  Permutation names (Dict.keys m)
  /\ StronglySorted (priority_not_below sources) names
  /\ forall p, filter (priority_is sources p) names
               = filter (priority_is sources p) (Dict.keys m).
Proof.
  intros S. split; [now apply (sorted_names_perm _ _ _ S)|].
  unfold sorted_names in S.
  destruct (rmap _ (Dict.keys m)) as [ys|ex] eqn:E; simpl in S;
    [|discriminate].
  inversion S; subst names; clear S.
  destruct (keyed_names _ _ _ E) as [Hk Hp].
  assert (Hs : Forall (fun y => priority_of sources (snd y) = Ok (fst y))
                      (stable_sort higher_first ys)).
  { apply Forall_forall. intros y I. apply stable_sort_in in I.
    rewrite Forall_forall in Hp. auto. }
  split.
  - assert (T : forall x y : Z * string,
               higher_first x y = false -> higher_first y x = true).
    { intros x y. unfold higher_first. intros F.
      apply Z.leb_gt in F. apply Z.leb_le. lia. }
    pose proof (stable_sort_sorted (Z * string) higher_first T ys) as So.
    apply Sorted_StronglySorted in So;
      [|intros x y z; unfold higher_first; intros A B;
        apply Z.leb_le in A, B; apply Z.leb_le; lia].
    revert Hs. induction So as [|y l _ IH Hall]; intros Hs; simpl;
      [constructor|].
    inversion Hs as [|? ? Hy Hl]; subst. constructor; auto.
    rewrite Forall_forall in *. intros x I. apply in_map_iff in I.
    destruct I as (z & <- & Iz).
    exists (fst y), (fst z). repeat split; auto.
    specialize (Hall z Iz). unfold higher_first in Hall.
    now apply Z.leb_le.
  - intros p. rewrite <- Hk.
    rewrite <- !filter_keyed by assumption. f_equal.
    apply filter_stable_sort.
    intros x y Hx Hy. unfold higher_first.
    apply Z.eqb_eq in Hx, Hy. apply Z.leb_le. lia.
Qed.

Lemma sorted_names_order_witness :
  Permutation ["tags"; "words"] (Dict.keys (_matches law_handler))
  /\ StronglySorted (priority_not_below law_sources) ["tags"; "words"]
  /\ forall p, filter (priority_is law_sources p) ["tags"; "words"]
               = filter (priority_is law_sources p)
                        (Dict.keys (_matches law_handler)).
Proof.
  exact (sorted_names_order law_sources (_matches law_handler)
           ["tags"; "words"] eq_refl).
Defined.

(* ================================================================== *)
(** ** A start column past the cursor *)

Lemma step1_cleared (sources : dict source_info) (ctx : context)
    (m0 : dict entry) (g : Z) (name n : string) :
  n = name \/ cleared ctx m0 n ->
  cleared ctx (fst (step1 sources ctx (m0, g) name)) n.
Proof.
  intros H. unfold step1.
  destruct (Dict.get name m0) as [e|] eqn:G; simpl.
  - destruct (col ctx <? e_startcol e) eqn:C; simpl.
    + intros e' G' Hc. destruct (string_dec n name) as [->|N].
      * rewrite DictFacts.get_set_eq in G'. now inversion G'.
      * rewrite DictFacts.get_set_ne in G' by auto.
        destruct H as [H|H]; [contradiction | now apply H].
    + apply Z.ltb_ge in C.
      destruct (process_matches _ _ _ _ _) as [r|ex]; simpl.
      * intros e' G' Hc. destruct (string_dec n name) as [->|N].
        -- rewrite DictFacts.get_set_eq in G'. inversion G'; subst e'.
           simpl in Hc. lia.
        -- rewrite DictFacts.get_set_ne in G' by auto.
           destruct H as [H|H]; [contradiction | now apply H].
      * intros e' G' Hc. destruct H as [->|H]; [|now apply H].
        rewrite G in G'. inversion G'; subst e'. lia.
  - intros e' G' Hc. destruct H as [->|H]; [congruence | now apply H].
Qed.

Lemma fold_step1_cleared (sources : dict source_info) (ctx : context)
    (names : list string) :
  forall (m0 : dict entry) (g : Z) (n : string),
    In n names \/ cleared ctx m0 n ->
    cleared ctx (fst (fold_left (step1 sources ctx) names (m0, g))) n.
Proof.
  induction names as [|name rest IH]; intros m0 g n H; simpl.
  - destruct H as [[]|H]; exact H.
  - rewrite (surjective_pairing (step1 sources ctx (m0, g) name)).
    apply IH.
    destruct (in_dec string_dec n rest) as [I|I]; [now left|right].
    apply step1_cleared.
    destruct H as [[E|I']|H]; auto; contradiction.
Qed.

Lemma step2_cleared (ctx : context) (g : Z) (m0 : dict entry)
    (acc : list candidate) (name n : string) :
  cleared ctx m0 n -> cleared ctx (fst (step2 ctx g (m0, acc) name)) n.
Proof.
  intros H. unfold step2.
  destruct (Dict.get name m0) as [e|] eqn:G; simpl; auto.
  destruct (col ctx <? e_startcol e) eqn:C; simpl; auto.
  apply Z.ltb_ge in C.
  destruct (e_last_matches e); simpl; auto.
  intros e' G' Hc. destruct (string_dec n name) as [->|N].
  - rewrite DictFacts.get_set_eq in G'. inversion G'; subst e'.
    simpl in Hc. lia.
  - rewrite DictFacts.get_set_ne in G' by auto. now apply H.
Qed.

Lemma fold_step2_cleared (ctx : context) (g : Z) (names : list string) :
  forall (m0 : dict entry) (acc : list candidate) (n : string),
    cleared ctx m0 n ->
    cleared ctx (fst (fold_left (step2 ctx g) names (m0, acc))) n.
Proof.
  induction names as [|name rest IH]; intros m0 acc n H; simpl; auto.
  rewrite (surjective_pairing (step2 ctx g (m0, acc) name)).
  apply IH. now apply step2_cleared.
Qed.

(** Filtering a sorted list and inserting into it commute. *)
Section SortFilter.
Variable A : Type.
Variable before : A -> A -> bool.
Hypothesis before_total : forall x y, before x y = false -> before y x = true.
Hypothesis before_trans :
  forall x y z, before x y = true -> before y z = true -> before x z = true.
Variable keep : A -> bool.

Lemma insert_front (x : A) (l : list A) :
  Forall (fun z => before x z = true) l -> insert before x l = x :: l.
Proof.
  destruct l as [|y r]; simpl; auto.
  intros H. inversion H as [|? ? Hy _]; subst. now rewrite Hy.
Qed.

Lemma filter_insert_sorted (x : A) (l : list A) :
  StronglySorted (fun a b => before a b = true) l ->
  filter keep (insert before x l)
  = if keep x then insert before x (filter keep l) else filter keep l.
Proof.
  induction 1 as [|y r Sr IH Hall]; simpl.
  - destruct (keep x); reflexivity.
  - destruct (before x y) eqn:E; simpl.
    + destruct (keep x) eqn:Kx; destruct (keep y) eqn:Ky; simpl;
        rewrite ?E; auto.
      symmetry. apply insert_front.
      apply Forall_forall. intros z I. apply filter_In in I.
      destruct I as [I _]. rewrite Forall_forall in Hall.
      apply (before_trans x y z E). now apply Hall.
    + rewrite IH.
      destruct (keep x); destruct (keep y); simpl; rewrite ?E; auto.
Qed.

Lemma filter_stable_sort_commute (l : list A) :
  filter keep (stable_sort before l) = stable_sort before (filter keep l).
Proof.
  induction l as [|x r IH]; simpl; auto.
  rewrite filter_insert_sorted.
  - destruct (keep x); simpl; now rewrite IH.
  - apply Sorted_StronglySorted.
    + intros a b c. apply before_trans.
    + now apply stable_sort_sorted.
Qed.
End SortFilter.

Lemma keys_del (name : string) (m : dict entry) :
  Dict.keys (Dict.del name m) = filter (other_than name) (Dict.keys m).
Proof.
  unfold Dict.keys, other_than. induction m as [|[k v] r IH]; simpl; auto.
  destruct (String.eqb name k); simpl; now rewrite IH.
Qed.

Lemma keyed_filter (sources : dict source_info) (q : string -> bool)
    (keys : list string) :
  forall ys : list (Z * string),
  rmap (fun x => rbind (priority_of sources x) (fun p => Ok (p, x))) keys
  = Ok ys ->
  rmap (fun x => rbind (priority_of sources x) (fun p => Ok (p, x)))
       (filter q keys)
  = Ok (filter (fun y => q (snd y)) ys).
Proof.
  induction keys as [|x r IH]; simpl; intros ys H.
  - inversion H; reflexivity.
  - destruct (priority_of sources x) as [p|] eqn:P; simpl in H;
      [|discriminate].
    destruct (rmap _ r) as [ys'|] eqn:E; simpl in H; [|discriminate].
    inversion H; subst ys; simpl.
    destruct (q x); simpl; rewrite ?P; simpl; rewrite (IH ys' eq_refl);
      reflexivity.
Qed.

Lemma map_snd_filter (q : string -> bool) (l : list (Z * string)) :
  map snd (filter (fun y => q (snd y)) l) = filter q (map snd l).
Proof.
  induction l as [|y r IH]; simpl; auto.
  destruct (q (snd y)); simpl; now rewrite IH.
Qed.

(** The names of a store from which an entry was deleted are the other
    names, in the same order. *)
Lemma sorted_names_del (sources : dict source_info) (m : dict entry)
    (name : string) (names : list string) :
  sorted_names sources m = Ok names ->
  sorted_names sources (Dict.del name m)
  = Ok (filter (other_than name) names).
Proof.
  unfold sorted_names. intros H.
  destruct (rmap _ (Dict.keys m)) as [ys|] eqn:E; simpl in H; [|discriminate].
  inversion H; subst names; clear H.
  rewrite keys_del, (keyed_filter sources (other_than name) _ ys E); simpl.
  f_equal. rewrite <- map_snd_filter. f_equal.
  symmetry. apply filter_stable_sort_commute.
  - intros x y. unfold higher_first. intros F.
    apply Z.leb_gt in F. apply Z.leb_le. lia.
  - intros x y z. unfold higher_first. intros F G.
    apply Z.leb_le in F, G. apply Z.leb_le. lia.
Qed.

Lemma agree_off_set (name n : string) (v : entry) (m m' : dict entry) :
  agree_off name m m' -> agree_off name (Dict.set n v m) (Dict.set n v m').
Proof.
  intros H k N. destruct (string_dec k n) as [->|K].
  - now rewrite !DictFacts.get_set_eq.
  - rewrite !DictFacts.get_set_ne by auto. now apply H.
Qed.

Lemma agree_off_trans (name : string) (m1 m2 m3 : dict entry) :
  agree_off name m1 m2 -> agree_off name m2 m3 -> agree_off name m1 m3.
Proof. intros H K n N. rewrite (K n N). now apply H. Qed.

Lemma agree_off_sym (name : string) (m m' : dict entry) :
  agree_off name m m' -> agree_off name m' m.
Proof. intros H n N. symmetry. now apply H. Qed.

Lemma past_cursor_same_reports (ctx : context) (m m' : dict entry)
    (name : string) :
  same_reports m m' -> past_cursor ctx m name -> past_cursor ctx m' name.
Proof.
  intros R (e & G & C).
  destruct (same_reports_get _ _ _ _ R G) as (e' & G' & Rep).
  exists e'. split; auto. unfold reported in Rep. inversion Rep. lia.
Qed.

(** A turn of the first loop for another name does not look at the entry
    of [name]. *)
Lemma step1_off (sources : dict source_info) (ctx : context)
    (name n : string) (m m' : dict entry) (g : Z) :
  n <> name -> agree_off name m m' ->
  snd (step1 sources ctx (m', g) n) = snd (step1 sources ctx (m, g) n)
  /\ agree_off name (fst (step1 sources ctx (m, g) n))
                    (fst (step1 sources ctx (m', g) n)).
Proof.
  intros N H. unfold step1. rewrite (H n N).
  destruct (Dict.get n m) as [e|]; simpl; auto.
  destruct (col ctx <? e_startcol e); simpl.
  - split; auto. now apply agree_off_set.
  - destruct (process_matches _ _ _ _ _); simpl; auto.
    split; auto. now apply agree_off_set.
Qed.

(** The turn of the first loop for a name whose entry starts past the
    cursor leaves the start column and the other entries. *)
Lemma step1_past (sources : dict source_info) (ctx : context)
    (name : string) (m : dict entry) (g : Z) :
  past_cursor ctx m name ->
  snd (step1 sources ctx (m, g) name) = g
  /\ agree_off name m (fst (step1 sources ctx (m, g) name)).
Proof.
  intros (e & G & C). unfold step1. rewrite G.
  assert (Cb : (col ctx <? e_startcol e) = true) by now apply Z.ltb_lt.
  rewrite Cb; simpl. split; auto.
  intros n N. now apply DictFacts.get_set_ne.
Qed.

Lemma fold_step1_off (sources : dict source_info) (ctx : context)
    (name : string) (names : list string) :
  forall (m m' : dict entry) (g : Z),
    agree_off name m m' -> past_cursor ctx m name ->
    snd (fold_left (step1 sources ctx) (filter (other_than name) names)
                   (m', g))
    = snd (fold_left (step1 sources ctx) names (m, g))
    /\ agree_off name
         (fst (fold_left (step1 sources ctx) names (m, g)))
         (fst (fold_left (step1 sources ctx)
                         (filter (other_than name) names) (m', g))).
Proof.
  induction names as [|n rest IH]; intros m m' g H P; simpl; auto.
  rewrite (surjective_pairing (step1 sources ctx (m, g) n)).
  assert (P' : past_cursor ctx (fst (step1 sources ctx (m, g) n)) name).
  { apply (past_cursor_same_reports ctx m); auto.
    apply (step1_keeps sources ctx m g n). }
  destruct (String.eqb name n) eqn:E;
    [replace (other_than name n) with false by (unfold other_than; now rewrite E)
    |replace (other_than name n) with true by (unfold other_than; now rewrite E)];
    simpl.
  - apply String.eqb_eq in E; subst n.
    destruct (step1_past sources ctx name m g P) as [Hs Ha].
    rewrite Hs. apply IH; auto.
    apply (agree_off_trans name _ m); auto. now apply agree_off_sym.
  - apply String.eqb_neq in E.
    assert (N : n <> name) by congruence.
    rewrite (surjective_pairing (step1 sources ctx (m', g) n)).
    destruct (step1_off sources ctx name n m m' g N H) as [Hs Ha].
    rewrite Hs. now apply IH.
Qed.

Lemma step2_off (ctx : context) (startcol : Z) (name n : string)
    (m m' : dict entry) (acc : list candidate) :
  n <> name -> agree_off name m m' ->
  snd (step2 ctx startcol (m', acc) n) = snd (step2 ctx startcol (m, acc) n)
  /\ agree_off name (fst (step2 ctx startcol (m, acc) n))
                    (fst (step2 ctx startcol (m', acc) n)).
Proof.
  intros N H. unfold step2. rewrite (H n N).
  destruct (Dict.get n m) as [e|]; simpl; auto.
  destruct (col ctx <? e_startcol e); simpl; auto.
  destruct (e_last_matches e); simpl; auto.
  split; auto. now apply agree_off_set.
Qed.

(** The turn of the second loop for a name whose entry starts past the
    cursor adds nothing. *)
Lemma step2_past (ctx : context) (startcol : Z) (name : string)
    (m : dict entry) (acc : list candidate) :
  past_cursor ctx m name ->
  step2 ctx startcol (m, acc) name = (m, acc).
Proof.
  intros (e & G & C). unfold step2. rewrite G.
  assert (Cb : (col ctx <? e_startcol e) = true) by now apply Z.ltb_lt.
  now rewrite Cb.
Qed.

Lemma fold_step2_off (ctx : context) (startcol : Z) (name : string)
    (names : list string) :
  forall (m m' : dict entry) (acc : list candidate),
    agree_off name m m' -> past_cursor ctx m name ->
    snd (fold_left (step2 ctx startcol) (filter (other_than name) names)
                   (m', acc))
    = snd (fold_left (step2 ctx startcol) names (m, acc))
    /\ agree_off name
         (fst (fold_left (step2 ctx startcol) names (m, acc)))
         (fst (fold_left (step2 ctx startcol)
                         (filter (other_than name) names) (m', acc))).
Proof.
  induction names as [|n rest IH]; intros m m' acc H P; simpl; auto.
  destruct (String.eqb name n) eqn:E;
    [replace (other_than name n) with false by (unfold other_than; now rewrite E)
    |replace (other_than name n) with true by (unfold other_than; now rewrite E)];
    simpl.
  - apply String.eqb_eq in E; subst n.
    rewrite (step2_past ctx startcol name m acc P). now apply IH.
  - apply String.eqb_neq in E.
    assert (N : n <> name) by congruence.
    rewrite (surjective_pairing (step2 ctx startcol (m, acc) n)).
    rewrite (surjective_pairing (step2 ctx startcol (m', acc) n)).
    destruct (step2_off ctx startcol name n m m' acc N H) as [Hs Ha].
    rewrite Hs. apply IH; auto.
    apply (past_cursor_same_reports ctx m); auto.
    apply (step2_keeps ctx startcol m acc n).
Qed.

(** X14. A stored source whose start column is past the cursor column is
    left out of the merge: the start column and the list that the merge
    passes on are those that it passes on when the entry of that source is
    deleted from the store first; and after the merge the entry holds the
    same report with an empty list under ['last_matches']. *)
Theorem startcol_past_cursor_is_left_out (ctx : context) (h h' : Handler)
    (startcol : Z) (matches : list candidate) (name : string) (e : entry) :
  merged ctx h = Returned (startcol, matches) h' ->
  Dict.get name (_matches h) = Some e ->
  col ctx < e_startcol e ->
  (exists h'',
      merged ctx (set_matches (Dict.del name (_matches h)) h)
      = Returned (startcol, matches) h'')
  /\ Dict.get name (_matches h') = Some (with_last_matches [] e).
Proof.
  intros H G C.
  destruct (sorted_names (_sources h) (_matches h)) as [names|ex] eqn:S;
    [|rewrite (merged_raise ctx h ex S) in H; discriminate].
  destruct (merged_run ctx h names S) as [L E]. rewrite E in H.
  cbv zeta in H. inversion H as [[Hg Hm Hh]]. clear H E.
  unfold loop1, loop2 in *.
  set (st1 := fold_left (step1 (_sources h) ctx) names
                        (_matches h, col ctx)) in *.
  set (st2 := fold_left (step2 ctx (snd st1)) names (fst st1, [])) in *.
  destruct (fold_step1_keeps (_sources h) ctx names (_matches h) (col ctx))
    as [R1 _].
  destruct (fold_step2_keeps ctx (snd st1) names (fst st1) []) as [R2 _].
  fold st1 in R1, R2. fold st2 in R2.
  split.
  - pose proof (sorted_names_del (_sources h) (_matches h) name names S)
      as S'.
    destruct (merged_run ctx (set_matches (Dict.del name (_matches h)) h)
                (filter (other_than name) names) S') as [L' E'].
    rewrite E'. cbv zeta. eexists. f_equal.
    change (_sources (set_matches (Dict.del name (_matches h)) h))
      with (_sources h).
    change (_matches (set_matches (Dict.del name (_matches h)) h))
      with (Dict.del name (_matches h)).
    unfold loop1, loop2.
    assert (A0 : agree_off name (_matches h) (Dict.del name (_matches h)))
      by (intros n N; now apply DictFacts.get_del_ne).
    assert (P0 : past_cursor ctx (_matches h) name) by (exists e; auto).
    destruct (fold_step1_off (_sources h) ctx name names (_matches h)
                (Dict.del name (_matches h)) (col ctx) A0 P0) as [F1 A1].
    fold st1 in F1, A1. rewrite F1.
    assert (P1 : past_cursor ctx (fst st1) name)
      by (apply (past_cursor_same_reports ctx (_matches h)); auto).
    destruct (fold_step2_off ctx (snd st1) name names (fst st1) _ [] A1 P1)
      as [F2 _].
    fold st2 in F2. rewrite F2. subst startcol matches. reflexivity.
  - simpl.
    assert (Cl : cleared ctx (fst st2) name).
    { apply fold_step2_cleared. apply fold_step1_cleared. left.
      eapply stored_in_names; eauto. }
    destruct (same_reports_get _ _ _ _ (same_reports_trans _ _ _ R1 R2) G)
      as (e2 & G2 & Rep).
    rewrite G2. f_equal.
    assert (Hs : e_startcol e2 = e_startcol e
                 /\ e_matches e2 = e_matches e)
      by (unfold reported in Rep; inversion Rep; auto).
    destruct Hs as [Hs1 Hs2].
    specialize (Cl e2 G2). rewrite Hs1 in Cl. specialize (Cl C).
    destruct e2 as [s2 r2 l2]; simpl in *. subst.
    reflexivity.
Qed.

Lemma past_merged_run :
  merged past_ctx past_handler
  = Returned (fst (fst past_merged), snd (fst past_merged)) (snd past_merged).
Proof. vm_compute. reflexivity. Qed.

Lemma startcol_past_cursor_is_left_out_witness :
  map word (snd (fst past_merged)) = ["foobar"]
  /\ (exists h'',
         merged past_ctx
           (set_matches (Dict.del "tags" (_matches past_handler)) past_handler)
         = Returned (fst (fst past_merged), snd (fst past_merged)) h'')
  /\ Dict.get "tags" (_matches (snd past_merged))
     = Some (with_last_matches []
               {| e_startcol := 15; e_matches := [Str "foo"];
                  e_last_matches := None |}).
Proof.
  split; [reflexivity|].
  apply (startcol_past_cursor_is_left_out past_ctx past_handler
           (snd past_merged) (fst (fst past_merged)) (snd (fst past_merged))
           "tags" _ past_merged_run).
  - reflexivity.
  - simpl. lia.
Defined.

(** X15. The start column that [_refresh_completions] passes to
    [_complete] is never past the cursor column of the context. *)
Theorem merged_startcol_within_cursor (ctx : context) (h h' : Handler)
    (startcol : Z) (matches : list candidate) :
  merged ctx h = Returned (startcol, matches) h' ->
  startcol <= col ctx.
Proof.
  intros H.
  destruct (sorted_names (_sources h) (_matches h)) as [names|ex] eqn:S;
    [|rewrite (merged_raise ctx h ex S) in H; discriminate].
  destruct (merged_run ctx h names S) as [L E]. rewrite E in H.
  cbv zeta in H. inversion H as [[Hg Hm Hh]].
  unfold loop1.
  now destruct (fold_step1_startcol (_sources h) ctx (_matches h) names
                  (_matches h) (col ctx) (same_reports_refl _)) as [Hle _].
Qed.

Lemma merged_startcol_within_cursor_witness :
  fst (fst law_merged) <= col law_ctx.
Proof.
  exact (merged_startcol_within_cursor law_ctx law_handler (snd law_merged)
           (fst (fst law_merged)) (snd (fst law_merged)) law_merged_run).
Defined.


(* ================================================================== *)
(** ** [_refresh_completions] seen from outside *)

(** The instance that [_refresh_completions] leaves. *)
Lemma refresh_final (ctx : context) (h : Handler) :
  (exists ex, _refresh_completions ctx h = Raised ex h
              /\ sorted_names (_sources h) (_matches h) = Raise ex)
  \/ exists L m2 g ms,
       let h1 := with_log (log h ++ L) (set_matches m2 h) in
       merged ctx h = Returned (g, ms) h1
       /\ same_reports (_matches h) m2
       /\ Dict.keys m2 = Dict.keys (_matches h)
       /\ _refresh_completions ctx h
          = Returned tt
              (if is_nil ms && is_nil (_last_matches h) then h1
               else add_call (Core_complete ctx g ms m2) h1).
Proof.
  destruct (sorted_names (_sources h) (_matches h)) as [names|ex] eqn:S.
  - right. destruct (merged_run ctx h names S) as [L E].
    set (st1 := loop1 (_sources h) ctx names (_matches h)) in *.
    set (st2 := loop2 ctx (snd st1) names (fst st1)) in *.
    exists L, (fst st2), (snd st1), (snd st2). cbv zeta in *.
    destruct (fold_step1_keeps (_sources h) ctx names (_matches h) (col ctx))
      as [R1 K1].
    fold (loop1 (_sources h) ctx names (_matches h)) in R1, K1.
    fold st1 in R1, K1.
    destruct (fold_step2_keeps ctx (snd st1) names (fst st1) []) as [R2 K2].
    fold (loop2 ctx (snd st1) names (fst st1)) in R2, K2. fold st2 in R2, K2.
    split; [exact E|]. split; [eapply same_reports_trans; eauto|].
    split; [congruence|].
    unfold _refresh_completions, bind. rewrite E. cbv beta iota.
    rewrite _complete_run. reflexivity.
  - left. exists ex. split; auto.
    unfold _refresh_completions, bind. now rewrite (merged_raise ctx h ex S).
Qed.

(** X16. [_refresh_completions] writes nothing but ['last_matches'] in the
    entries of the store and sends at most one message, a completion
    result: the source table, the popup flag and the file server are as
    before, and when a result is sent its last argument is the store as
    the merge left it. *)
Theorem refresh_sends_at_most_one_result (ctx : context) (h : Handler) :
  let h' := final (_refresh_completions ctx h) in
  _sources h' = _sources h
  /\ _has_popped_up h' = _has_popped_up h
  /\ _file_server h' = _file_server h
  /\ same_reports (_matches h) (_matches h')
  /\ (nvim_calls h' = nvim_calls h
      \/ exists g ms,
           merged ctx h
           = Returned (g, ms)
               (with_log (log h') (set_matches (_matches h') h))
           /\ nvim_calls h'
              = (nvim_calls h ++ [Core_complete ctx g ms (_matches h')])%list).
Proof.
  cbv zeta.
  destruct (refresh_final ctx h) as [(ex & E & _)|(L & m2 & g & ms & K)].
  - rewrite E; simpl. repeat split; auto; apply same_reports_refl.
  - cbv zeta in K. destruct K as (Em & R & _ & E). rewrite E; simpl.
    destruct (is_nil ms && is_nil (_last_matches h)); simpl;
      repeat split; auto; right; exists g, ms; split; auto.
Qed.

(** X17. [cm_complete_timeout] fires once: with the popup shown it does
    nothing; when it returns the popup is marked shown, so that a second
    timeout, whatever its arguments, leaves the instance as it is; when it
    raises (out of the priority sort) the instance is unchanged and the
    popup is still not marked. *)
Theorem timeout_fires_once (srcs : dict source_info) (ctx : context)
    (h : Handler) :
  (_has_popped_up h = true -> cm_complete_timeout srcs ctx h = Returned tt h)
  /\ (forall h', cm_complete_timeout srcs ctx h = Returned tt h' ->
        _has_popped_up h' = true
        /\ forall srcs' ctx', cm_complete_timeout srcs' ctx' h' = Returned tt h')
  /\ (forall ex h', cm_complete_timeout srcs ctx h = Raised ex h' ->
        h' = h /\ _has_popped_up h = false).
Proof.
  assert (Again : forall h0, _has_popped_up h0 = true ->
            forall srcs' ctx', cm_complete_timeout srcs' ctx' h0
                               = Returned tt h0).
  { intros h0 P srcs' ctx'. unfold cm_complete_timeout, bind, gets, ret.
    now rewrite P. }
  split; [intros P; now apply Again|].
  unfold cm_complete_timeout, bind, gets, ret, modify.
  destruct (_has_popped_up h) eqn:P.
  - split.
    + intros h' H. inversion H; subst. split; auto.
      intros srcs' ctx'. now rewrite P.
    + intros ex h' H. discriminate.
  - destruct (refresh_final ctx h) as [(ex & E & _)|(L & m2 & g & ms & K)].
    + rewrite E. split; [intros h' H; discriminate|].
      intros ex' h' H. inversion H; auto.
    + cbv zeta in K. destruct K as (_ & _ & _ & E). rewrite E. split.
      * intros h' H. inversion H; subst h'. split; [reflexivity|].
        intros srcs' ctx'. reflexivity.
      * intros ex h' H. discriminate.
Qed.

Lemma timeout_fires_once_witness :
  cm_complete_timeout law_sources popup_ctx popup_shown
  = Returned tt popup_shown
  /\ (_has_popped_up popup_shown = true
      /\ forall srcs' ctx',
           cm_complete_timeout srcs' ctx' popup_shown
           = Returned tt popup_shown)
  /\ (guard_undescribed = guard_undescribed
      /\ _has_popped_up guard_undescribed = false).
Proof.
  split; [|split].
  - exact (proj1 (timeout_fires_once law_sources popup_ctx popup_shown)
             eq_refl).
  - apply (proj1 (proj2 (timeout_fires_once law_sources popup_ctx
                           (run [Ev_complete law_sources "tags" popup_ctx 1
                                   [Str "foo"]] (init 8000))))).
    reflexivity.
  - apply (proj2 (proj2 (timeout_fires_once law_sources guard_ctx
                           guard_undescribed)) (KeyError "words")).
    reflexivity.
Defined.

(** X18. [cm_complete] takes over the source table it is given and never
    touches the popup flag or the file server, however it ends; it sends
    at most one message, a completion result, and none at all while the
    popup is not shown. *)
Theorem complete_frame (srcs : dict source_info) (name : string)
    (ctx : context) (startcol : Z) (matches : list item) (h : Handler) :
  let h' := final (cm_complete srcs name ctx startcol matches h) in
  _sources h' = srcs
  /\ _has_popped_up h' = _has_popped_up h
  /\ _file_server h' = _file_server h
  /\ (nvim_calls h' = nvim_calls h
      \/ _has_popped_up h = true
         /\ exists g ms,
              nvim_calls h'
              = (nvim_calls h ++ [Core_complete ctx g ms (_matches h')])%list).
Proof.
  cbv zeta. rewrite cm_complete_run. cbv zeta.
  destruct (process_matches srcs name ctx startcol matches) as [r|ex];
    simpl; [|repeat split; auto].
  destruct (is_nil r && is_nil _); simpl; [repeat split; auto|].
  destruct (_has_popped_up h) eqn:P; simpl; [|repeat split; auto].
  match goal with
  | |- context [_refresh_completions ctx ?h0] =>
      destruct (refresh_final ctx h0)
        as [(ex & E & _)|(L & m2 & g & ms & K)]
  end.
  - rewrite E; simpl. repeat split; auto.
  - cbv zeta in K. destruct K as (_ & _ & _ & E). rewrite E; simpl.
    destruct (is_nil ms && is_nil _); simpl; repeat split; auto;
      right; split; auto; exists g, ms; reflexivity.
Qed.


(* ================================================================== *)
(** ** [cm_refresh] *)

Lemma with_log_only_twice (l1 l2 : list log_entry) (h : Handler) :
  with_log (log (with_log (log h ++ l1) h) ++ l2) (with_log (log h ++ l1) h)
  = with_log (log h ++ (l1 ++ l2)) h.
Proof. unfold with_log; simpl. now rewrite app_assoc. Qed.

(** One turn of the loop of [cm_refresh]: it only logs, and adds the
    source to the two lists exactly when it is asked. *)
Lemma refresh_source_run (ctx : context) (src : string * source_info)
    (acc : list string * list notification) (h : Handler) :
  exists L,
    refresh_source ctx src acc h
    = Returned
        ((fst acc ++ asked_calls ctx (_matches h) [src])%list,
         (snd acc ++ asked_channels ctx (_matches h) [src])%list)
        (with_log (log h ++ L) h).
Proof.
  unfold refresh_source, refresh_source_body, asked_calls, asked_channels,
    asks.
  unfold try_except, logger, bind, gets, modify, lift, ret. simpl.
  destruct acc as [calls channels]; simpl.
  destruct (_check_scope ctx (snd src)); simpl.
  - destruct (s_name (snd src)) as [n|]; simpl.
    + destruct (Dict.contains n (_matches h) && _); simpl.
      * exists []. rewrite !app_nil_r. destruct h; reflexivity.
      * exists []. rewrite ?app_nil_r.
        destruct (s_cm_refresh (snd src)); simpl; rewrite ?app_nil_r;
          destruct h; reflexivity.
    + eexists [_]. rewrite !app_nil_r. reflexivity.
  - eexists [_]. rewrite !app_nil_r. reflexivity.
Qed.

Lemma refresh_loop_run (ctx : context) (srcs : dict source_info) :
  forall (acc : list string * list notification) (h : Handler),
  exists L,
    for_each srcs (refresh_source ctx) acc h
    = Returned
        ((fst acc ++ asked_calls ctx (_matches h) srcs)%list,
         (snd acc ++ asked_channels ctx (_matches h) srcs)%list)
        (with_log (log h ++ L) h).
Proof.
  induction srcs as [|src rest IH]; intros acc h.
  - exists []. simpl. unfold ret, asked_calls, asked_channels; simpl.
    rewrite !app_nil_r. destruct acc, h; reflexivity.
  - simpl. unfold bind.
    destruct (refresh_source_run ctx src acc h) as [L1 ->].
    match goal with
    | |- context [for_each rest _ ?a ?h1] =>
        destruct (IH a h1) as [L2 ->]
    end.
    exists (L1 ++ L2)%list. rewrite with_log_only_twice. simpl.
    f_equal. unfold asked_calls, asked_channels; simpl.
    destruct (asks ctx (_matches h) (snd src) && s_cm_refresh (snd src));
      simpl; rewrite <- !app_assoc; reflexivity.
Qed.

(** [cm_refresh] up to its last step. *)
Lemma cm_refresh_run (srcs : dict source_info) (ctx0 : context) (h : Handler) :
  let ctx := stamped h ctx0 in
  let m := store_after_reset ctx0 (_matches h) in
  let calls := asked_calls ctx m srcs in
  let channels := asked_channels ctx m srcs in
  exists L,
    let h0 :=
      with_log (log h ++ L)
        (set_matches m
           (set_has_popped_up false
              (set_sources srcs
                 (set_file_server
                    (FS.set_current_context ctx0 (_file_server h)) h)))) in
    cm_refresh srcs ctx0 h
    = if is_nil calls && is_nil channels then
        match _refresh_completions ctx (add_log Info_not_notifying h0) with
        | Returned _ h1 => Returned tt (set_has_popped_up true h1)
        | Raised ex h1 => Raised ex h1
        end
      else
        Returned tt
          (add_call (Notify_sources_to_refresh calls channels ctx)
                    (add_log (Info_notify calls channels) h0)).
Proof.
  cbv zeta. unfold cm_refresh.
  unfold bind at 1 2 3 4 5. unfold modify at 1 2 3, gets at 1.
  set (ctx := stamped h ctx0).
  change (with_file_url _ ctx0) with ctx.
  set (ha := set_has_popped_up false
               (set_sources srcs
                  (set_file_server
                     (FS.set_current_context ctx0 (_file_server h)) h))).
  assert (Hr : exists hb,
             (match PyStr.last_char (typed ctx) with
              | None => modify (set_matches [])
              | Some c => if negb (PyStr.is_word_char c)
                          then modify (set_matches []) else ret tt
              end) ha = Returned tt hb
             /\ hb = set_matches (store_after_reset ctx0 (_matches h)) ha).
  { unfold store_after_reset, typed_reset.
    change (typed ctx) with (typed ctx0).
    destruct (PyStr.last_char (typed ctx0)) as [c|];
      [|eexists; split; reflexivity].
    destruct (negb (PyStr.is_word_char c)); [eexists; split; reflexivity|].
    exists ha. split; auto; unfold ha; destruct h; reflexivity. }
  destruct Hr as (hb & -> & Hb). unfold bind.
  destruct (refresh_loop_run ctx srcs ([], []) hb) as [L ->].
  exists L. subst hb.
  set (m := store_after_reset ctx0 (_matches h)).
  change (_matches (set_matches m ha)) with m.
  cbn [fst snd app].
  destruct (is_nil (asked_calls ctx m srcs)
            && is_nil (asked_channels ctx m srcs)).
  - unfold logger, modify.
    match goal with
    | |- match _refresh_completions ctx ?x with _ => _ end
         = match _refresh_completions ctx ?y with _ => _ end =>
        change x with y; destruct (_refresh_completions ctx y); reflexivity
    end.
  - reflexivity.
Qed.


(** X19. When [cm_refresh] finds a source to ask, it returns having sent
    one message, the request to refresh, and no completion result: the
    request names the sources that are in scope, have a ['name'], and have
    no stored matches or set ['refresh'] (those with ['cm_refresh'] as
    calls, those with channels as notifications, in the order of the
    table), with the context carrying its ['file_url']; the popup flag is
    down, the table is the new one, and the store is the old one, emptied
    if the typed text is empty or ends a word. *)
Theorem refresh_asks_sources (srcs : dict source_info) (ctx0 : context)
    (h : Handler) :
  let ctx := stamped h ctx0 in
  let m := store_after_reset ctx0 (_matches h) in
  let calls := asked_calls ctx m srcs in
  let channels := asked_channels ctx m srcs in
  calls <> [] \/ channels <> [] ->
  exists h',
    cm_refresh srcs ctx0 h = Returned tt h'
    /\ nvim_calls h'
       = (nvim_calls h ++ [Notify_sources_to_refresh calls channels ctx])%list
    /\ _has_popped_up h' = false
    /\ _sources h' = srcs
    /\ _matches h' = m.
Proof.
  cbv zeta. intros N.
  destruct (cm_refresh_run srcs ctx0 h) as [L E]. cbv zeta in E.
  rewrite E.
  destruct (is_nil (asked_calls _ _ srcs) && is_nil (asked_channels _ _ srcs))
    eqn:B.
  - apply andb_prop in B. destruct B as [B1 B2].
    destruct (asked_calls _ _ srcs); [|discriminate].
    destruct (asked_channels _ _ srcs); [|discriminate].
    destruct N as [N|N]; congruence.
  - eexists. split; [reflexivity|]. repeat split.
Qed.

Lemma refresh_asks_sources_witness :
  exists h',
    cm_refresh asking_sources popup_ctx popup_shown = Returned tt h'
    /\ nvim_calls h'
       = (nvim_calls popup_shown
          ++ [Notify_sources_to_refresh
                (asked_calls (stamped popup_shown popup_ctx)
                   (store_after_reset popup_ctx (_matches popup_shown))
                   asking_sources)
                (asked_channels (stamped popup_shown popup_ctx)
                   (store_after_reset popup_ctx (_matches popup_shown))
                   asking_sources)
                (stamped popup_shown popup_ctx)])%list
    /\ _has_popped_up h' = false
    /\ _sources h' = asking_sources
    /\ _matches h' = store_after_reset popup_ctx (_matches popup_shown).
Proof.
  apply (refresh_asks_sources asking_sources popup_ctx popup_shown).
  right. vm_compute. discriminate.
Defined.

(** X20. When [cm_refresh] finds no source to ask, it merges at once: if
    it returns, the popup is marked shown and the only message it may have
    sent is one completion result; if it raises (out of the priority
    sort), the popup flag is down, nothing was sent and the store is the
    old one, emptied if the typed text is empty or ends a word. *)
Theorem refresh_merges_when_nothing_to_ask (srcs : dict source_info)
    (ctx0 : context) (h : Handler) :
  let ctx := stamped h ctx0 in
  let m := store_after_reset ctx0 (_matches h) in
  asked_calls ctx m srcs = [] ->
  asked_channels ctx m srcs = [] ->
  (forall h', cm_refresh srcs ctx0 h = Returned tt h' ->
     _has_popped_up h' = true
     /\ same_reports m (_matches h')
     /\ (nvim_calls h' = nvim_calls h
         \/ exists g ms,
              nvim_calls h'
              = (nvim_calls h ++ [Core_complete ctx g ms (_matches h')])%list))
  /\ (forall ex h', cm_refresh srcs ctx0 h = Raised ex h' ->
        _has_popped_up h' = false
        /\ nvim_calls h' = nvim_calls h
        /\ _matches h' = m).
Proof.
  cbv zeta. intros C1 C2.
  destruct (cm_refresh_run srcs ctx0 h) as [L E]. cbv zeta in E.
  rewrite E, C1, C2. simpl andb. cbv iota.
  match goal with
  | |- context [_refresh_completions ?c ?h0] =>
      destruct (refresh_final c h0)
        as [(ex & Er & _)|(L2 & m2 & g & ms & K)]
  end.
  - rewrite Er. split.
    + intros h' H. discriminate.
    + intros ex' h' H. inversion H; subst. repeat split.
  - cbv zeta in K. destruct K as (_ & R & _ & Er). rewrite Er. split.
    + intros h' H. inversion H; subst h'. clear H.
      destruct (is_nil ms && is_nil _); simpl; repeat split; auto;
        right; exists g, ms; reflexivity.
    + intros ex' h' H. discriminate.
Qed.

Lemma refresh_merges_when_nothing_to_ask_witness :
  (forall h', cm_refresh law_sources popup_ctx popup_shown = Returned tt h' ->
     _has_popped_up h' = true
     /\ same_reports (store_after_reset popup_ctx (_matches popup_shown))
                     (_matches h')
     /\ (nvim_calls h' = nvim_calls popup_shown
         \/ exists g ms,
              nvim_calls h'
              = (nvim_calls popup_shown
                 ++ [Core_complete (stamped popup_shown popup_ctx) g ms
                       (_matches h')])%list))
  /\ (forall ex h',
        cm_refresh law_sources popup_ctx popup_shown = Raised ex h' ->
        _has_popped_up h' = false
        /\ nvim_calls h' = nvim_calls popup_shown
        /\ _matches h' = store_after_reset popup_ctx (_matches popup_shown)).
Proof.
  apply (refresh_merges_when_nothing_to_ask law_sources popup_ctx popup_shown);
    reflexivity.
Defined.

Lemma keys_nil (m : dict entry) : Dict.keys m = [] -> m = [].
Proof. destruct m; [reflexivity | discriminate]. Qed.

(** X21. A typed text that is empty, or ends with a character that is not
    a word character, starts a new completion: [cm_refresh] then returns,
    whatever the table and the store were, and leaves the store empty. *)
Theorem refresh_on_reset_empties_store (srcs : dict source_info)
    (ctx0 : context) (h : Handler) :
  typed_reset ctx0 = true ->
  exists h', cm_refresh srcs ctx0 h = Returned tt h' /\ _matches h' = [].
Proof.
  intros T.
  destruct (cm_refresh_run srcs ctx0 h) as [L E]. cbv zeta in E.
  unfold store_after_reset in E. rewrite T in E. rewrite E. clear E.
  destruct (is_nil (asked_calls _ _ srcs) && is_nil (asked_channels _ _ srcs));
    [|eexists; split; reflexivity].
  match goal with
  | |- context [_refresh_completions ?c ?h0] =>
      destruct (refresh_final c h0)
        as [(ex & Er & S)|(L2 & m2 & g & ms & K)]
  end.
  - simpl in S. discriminate.
  - cbv zeta in K. destruct K as (_ & _ & Hk & Er). rewrite Er.
    simpl in Hk. apply keys_nil in Hk. subst m2.
    eexists. split; [reflexivity|].
    destruct (is_nil ms && is_nil _); reflexivity.
Qed.

Lemma refresh_on_reset_empties_store_witness :
  exists h',
    cm_refresh law_sources reset_ctx popup_shown = Returned tt h'
    /\ _matches h' = [].
Proof.
  exact (refresh_on_reset_empties_store law_sources reset_ctx popup_shown
           eq_refl).
Defined.

(* ================================================================== *)
(** ** What [_complete] sends *)

(** X23. On an instance made by [__init__] and driven by any events,
    [_complete] sends the merged list to the editor exactly when the list
    is not empty: an empty list is never sent, whatever was sent before. *)
Theorem complete_sends_iff_nonempty (evs : list event) (port : Z)
    (ctx : context) (g : Z) (ms : list candidate) :
  let h := run evs (init port) in
  match ms with
  | [] => _complete ctx g ms h = Returned tt h
  | _ :: _ =>
      _complete ctx g ms h
      = Returned tt (add_call (Core_complete ctx g ms (_matches h)) h)
  end.
Proof.
  cbv zeta. rewrite _complete_run, last_matches_stay_empty.
  now destruct ms.
Qed.


(* ================================================================== *)
(** ** Requests to the file server *)

Lemma get_fold_set (k : string) (query : list (string * string)) :
  forall params : dict string,
    Dict.get k (fold_left (fun p e => Dict.set (fst e) (snd e) p) query params)
    = match last_value k query with
      | Some v => Some v
      | None => Dict.get k params
      end.
Proof.
  induction query as [|[k' v] rest IH]; intros params; simpl; auto.
  rewrite IH. destruct (last_value k rest); auto.
  destruct (String.eqb k k') eqn:E.
  - apply String.eqb_eq in E; subst. apply DictFacts.get_set_eq.
  - apply String.eqb_neq in E. now apply DictFacts.get_set_ne.
Qed.

(** X25. A request for a version that is neither the one the server knows
    nor the one the editor is at gets 200 with an empty body, not an
    error and not the cached text, and the cache is left as it was. *)
Theorem stale_get_request_is_empty (json_loads : string -> version + string)
    (query : list (string * string)) (nvim : editor) (fs : FileServer)
    (text : string) (requested : version) :
  last_value "context" query = Some text ->
  json_loads text = inl requested ->
  FS._context_changed (_current_context fs) (Some requested) = true ->
  FS._context_changed (Some (cm_context nvim)) (Some requested) = true ->
  let r := do_GET json_loads query nvim fs in
  status (fst r) = 200 /\ body (fst r) = ""
  /\ _cache_context (snd r) = _cache_context fs
  /\ _cache_src (snd r) = _cache_src fs.
Proof.
  intros Q J C1 C2. cbv zeta.
  unfold do_GET, run_GET, query_params. rewrite get_fold_set, Q, J.
  unfold FS.get_src. rewrite C1. simpl. rewrite C2. simpl. auto.
Qed.

Lemma stale_get_request_is_empty_witness :
  let r := do_GET (fun _ => inl version2)
                  [("context", "old"); ("context", "{}")]
                  editor_at_1 cache_at_1 in
  status (fst r) = 200 /\ body (fst r) = ""
  /\ _cache_context (snd r) = _cache_context cache_at_1
  /\ _cache_src (snd r) = _cache_src cache_at_1.
Proof.
  exact (stale_get_request_is_empty (fun _ => inl version2)
           [("context", "old"); ("context", "{}")]
           editor_at_1 cache_at_1 "{}" version2
           eq_refl eq_refl eq_refl eq_refl).
Defined.


(* ================================================================== *)
(** ** Everything that is sent *)

Lemma merged_within_cursor (ctx : context) (h h' : Handler) (g : Z)
    (ms : list candidate) :
  merged ctx h = Returned (g, ms) h' -> g <= col ctx.
Proof.
  intros H.
  destruct (sorted_names (_sources h) (_matches h)) as [names|ex] eqn:S;
    [|rewrite (merged_raise ctx h ex S) in H; discriminate].
  destruct (merged_run ctx h names S) as [L E]. rewrite E in H.
  cbv zeta in H. inversion H as [[Hg Hm Hh]].
  unfold loop1.
  now destruct (fold_step1_startcol (_sources h) ctx (_matches h) names
                  (_matches h) (col ctx) (same_reports_refl _)) as [Hle _].
Qed.

Lemma refresh_sound (ctx : context) (h : Handler) :
  sound_instance h -> sound_instance (final (_refresh_completions ctx h)).
Proof.
  intros [Hl Hc].
  destruct (refresh_final ctx h) as [(ex & E & _)|(L & m2 & g & ms & K)].
  - rewrite E. now split.
  - cbv zeta in K. destruct K as (Em & _ & _ & E). rewrite E, Hl; simpl.
    rewrite andb_true_r.
    destruct ms as [|c ms]; simpl; split; auto.
    apply Forall_app. split; auto. constructor; [|constructor].
    split; [discriminate|]. eapply merged_within_cursor; eauto.
Qed.

Lemma dispatch_sound (ev : event) (h : Handler) :
  sound_instance h -> sound_instance (final (dispatch ev h)).
Proof.
  intros Hs. destruct ev as [srcs name ctx startcol matches| |srcs ctx|srcs ctx];
    simpl.
  - rewrite cm_complete_run. cbv zeta.
    destruct (process_matches srcs name ctx startcol matches) as [r|ex];
      simpl; [|exact Hs].
    destruct (is_nil r && is_nil _); simpl; [exact Hs|].
    destruct (_has_popped_up h); simpl; [|exact Hs].
    apply refresh_sound. exact Hs.
  - exact Hs.
  - unfold cm_complete_timeout, bind, gets, ret, modify.
    destruct (_has_popped_up h); [exact Hs|].
    pose proof (refresh_sound ctx h Hs) as K.
    destruct (_refresh_completions ctx h); exact K.
  - destruct (cm_refresh_run srcs ctx h) as [L E]. cbv zeta in E.
    rewrite E. destruct Hs as [Hl Hc].
    destruct (is_nil _ && is_nil _).
    + match goal with
      | |- context [_refresh_completions ?c ?h0] =>
          assert (K : sound_instance (final (_refresh_completions c h0)))
            by (apply refresh_sound; split; assumption);
          destruct (_refresh_completions c h0); exact K
      end.
    + split; simpl; auto. apply Forall_app. split; auto.
      constructor; [exact I | constructor].
Qed.

(** X26. Over any sequence of events on an instance made by [__init__],
    every completion result sent to the editor carries a list that is not
    empty and a start column that is not past the cursor column of the
    context it is sent with. *)
Theorem every_result_sent_is_sound (evs : list event) (port : Z) :
  Forall sound_call (nvim_calls (run evs (init port))).
Proof.
  assert (K : forall h, sound_instance h -> sound_instance (run evs h)).
  { unfold run. induction evs as [|ev rest IH]; intros h Hs; simpl; auto.
    apply IH. now apply dispatch_sound. }
  apply K. split; [reflexivity | constructor].
Qed.
